(** * Extraction Reconciliation Engine

    A shallow embedding of the price-list reconciliation core of the
    repository:

    - [src/components/MappingModal.tsx]: [normalizeText], [parsePrice],
      [resolveName], [resolveCost], [resolveSrp], [getPopulatedColumns],
      [getUnresolvedReason], [importAnalysis]; the changes of the mapping
      state: the first guess of the columns, [toggleFallbackField],
      [updateManualRetag], [getQuickFallbackEligibleCount],
      [applyQuickFallback], [handleSubmit];
    - [src/services/geminiService.ts]: [similarityScore],
      [harmonizeColumnNames];
    - [src/App.tsx]: [formatBrandName] and the staging of the rows in
      [handleMappingConfirm] ([normalizeText], [getBestValue],
      [cleanPrice], [incomingItems]).

    The JavaScript values the code handles are modelled as follows.

    - Strings are Rocq strings over 8-bit characters.  Header names and cell
      texts are taken to be ASCII: [toLowerCase] folds [A-Z] only and
      [trim] strips the ASCII white space characters.
    - A [number] is [NaN], an infinity, or a finite value; finite values are
      integers (prices are whole currency units), held in [Z].  The rounding
      of [parseInt] to a double is written out in [to_double].
    - An object used as a record of cells ([RawExtractionItem]) is an
      association list in [Object.keys] order; [obj_set] writes a property
      the way an assignment does, array-index keys first and in ascending
      order.  Header names are ordinary property names (no member of
      [Object.prototype]).
    - [Record<number, _>] is a [gmap nat _], [Set<string>] a [gset string],
      and a [Map] an association list in insertion order. *)

From Stdlib Require Import Ascii QArith DecimalString DecimalPos.
From stdpp Require Import gmap strings list sorting.

Local Open Scope string_scope.

(** ** JavaScript primitives *)

Module JS.

(** *** Strings *)

Definition is_upper (c : Ascii.ascii) : bool :=
  let n := Ascii.N_of_ascii c in (65 <=? n)%N && (n <=? 90)%N.

Definition lower_char (c : Ascii.ascii) : Ascii.ascii :=
  if is_upper c then Ascii.ascii_of_N (Ascii.N_of_ascii c + 32) else c.

(** [s.toLowerCase()] *)
Fixpoint toLowerCase (s : string) : string :=
  match s with
  | EmptyString => EmptyString
  | String c s' => String (lower_char c) (toLowerCase s')
  end.

(** White space of [String.prototype.trim]: TAB, LF, VT, FF, CR, SP. *)
Definition is_space (c : Ascii.ascii) : bool :=
  let n := Ascii.N_of_ascii c in ((9 <=? n)%N && (n <=? 13)%N) || (n =? 32)%N.

Definition is_empty (s : string) : bool :=
  match s with EmptyString => true | _ => false end.

(** A string is truthy when it is not empty. *)
Definition truthy (s : string) : bool := negb (is_empty s).

Fixpoint trimStart (s : string) : string :=
  match s with
  | EmptyString => EmptyString
  | String c s' => if is_space c then trimStart s' else s
  end.

Fixpoint trimEnd (s : string) : string :=
  match s with
  | EmptyString => EmptyString
  | String c s' =>
      let t := trimEnd s' in
      if is_space c && is_empty t then EmptyString else String c t
  end.

(** [s.trim()] *)
Definition trim (s : string) : string := trimEnd (trimStart s).

(** [s.includes(p)] *)
Fixpoint includes (p s : string) : bool :=
  String.prefix p s ||
  match s with
  | EmptyString => false
  | String _ s' => includes p s'
  end.

(** [/w1|w2|.../i.test(s)] for lower-case literal alternatives: some
    alternative occurs in [s], letters compared without case. *)
Definition test_any (alts : list string) (s : string) : bool :=
  existsb (fun w => includes w (toLowerCase s)) alts.

(** [/^(w1|w2|...)$/i.test(s)] for lower-case literal alternatives. *)
Definition test_whole (alts : list string) (s : string) : bool :=
  existsb (String.eqb (toLowerCase s)) alts.

Definition is_digit (c : Ascii.ascii) : bool :=
  let n := Ascii.N_of_ascii c in (48 <=? n)%N && (n <=? 57)%N.

(** [s.replace(/[^0-9]/g, '')] *)
Fixpoint keep_digits (s : string) : string :=
  match s with
  | EmptyString => EmptyString
  | String c s' =>
      if is_digit c then String c (keep_digits s') else keep_digits s'
  end.

(** *** Numbers *)

Inductive number : Type :=
| NaN
| Infinity
| NegInfinity
| Fin (z : Z).

#[global] Instance number_eq_dec : EqDecision number.
Proof. solve_decision. Defined.

(** [Number.isFinite(n)] *)
Definition isFinite (n : number) : bool :=
  match n with Fin _ => true | _ => false end.

(** A number is falsy when it is zero or [NaN]. *)
Definition truthy_number (n : number) : bool :=
  match n with
  | NaN => false
  | Fin z => negb (z =? 0)%Z
  | _ => true
  end.

(** [n > 0] *)
Definition gt0 (n : number) : bool :=
  match n with
  | Infinity => true
  | Fin z => (0 <? z)%Z
  | _ => false
  end.

(** [n <= 0] *)
Definition le0 (n : number) : bool :=
  match n with
  | NegInfinity => true
  | Fin z => (z <=? 0)%Z
  | _ => false
  end.

(** [n || 0] *)
Definition or0 (n : number) : number :=
  if truthy_number n then n else Fin 0.

(** [String(n)]: decimal digits for a finite integer (exact below
    [10^21], where JavaScript switches to exponent notation). *)
Definition number_to_string (n : number) : string :=
  match n with
  | NaN => "NaN"
  | Infinity => "Infinity"
  | NegInfinity => "-Infinity"
  | Fin z => NilEmpty.string_of_int (Z.to_int z)
  end.

(** The double nearest to the integer [n >= 0], ties to even, with
    overflow to [Infinity]: 53 bits of precision, largest finite value
    [2^1024 - 2^971]. *)
Definition to_double (n : Z) : number :=
  if (n <? 2 ^ 53)%Z then Fin n
  else
    let e := (Z.log2 n - 52)%Z in
    let q := Z.shiftr n e in
    let r := (n - Z.shiftl q e)%Z in
    let half := (2 ^ (e - 1))%Z in
    let q' := if (half <? r)%Z || ((r =? half)%Z && Z.odd q)
              then (q + 1)%Z else q in
    let v := Z.shiftl q' e in
    if (2 ^ 1024 <=? v)%Z then Infinity else Fin v.

Definition negate (n : number) : number :=
  match n with
  | NaN => NaN
  | Infinity => NegInfinity
  | NegInfinity => Infinity
  | Fin z => Fin (- z)
  end.

Definition digit_value (c : Ascii.ascii) : Z :=
  (Z.of_N (Ascii.N_of_ascii c) - 48)%Z.

(** The leading run of decimal digits of [s], read most significant digit
    first with accumulator [acc]; [seen] tells whether a digit was read. *)
Fixpoint read_digits (s : string) (acc : Z) (seen : bool) : option Z :=
  match s with
  | String c s' =>
      if is_digit c then read_digits s' (acc * 10 + digit_value c)%Z true
      else if seen then Some acc else None
  | EmptyString => if seen then Some acc else None
  end.

(** [parseInt(s, 10)]: leading white space, an optional sign, then the
    longest run of digits; [NaN] when there is no digit. *)
Definition parseInt (s : string) : number :=
  let s1 := trimStart s in
  let '(neg, s2) :=
    match s1 with
    | String "-"%char r => (true, r)
    | String "+"%char r => (false, r)
    | _ => (false, s1)
    end in
  match read_digits s2 0 false with
  | None => NaN
  | Some n => if neg then negate (to_double n) else to_double n
  end.

(** *** Values and objects *)

(** A cell value, [string | number]. *)
Inductive value : Type :=
| VStr (s : string)
| VNum (n : number).

#[global] Instance value_eq_dec : EqDecision value.
Proof. solve_decision. Defined.

(** [String(v)] *)
Definition to_string (v : value) : string :=
  match v with
  | VStr s => s
  | VNum n => number_to_string n
  end.

(** An object with string keys, in [Object.keys] order. *)
Definition object (A : Type) : Type := list (string * A).

(** [Object.keys(o)] *)
Definition keys {A} (o : object A) : list string := o.*1.

(** [o[k]]: [None] is [undefined]. *)
Fixpoint get {A} (o : object A) (k : string) : option A :=
  match o with
  | [] => None
  | (k', v) :: o' => if String.eqb k' k then Some v else get o' k
  end.

(** [o.hasOwnProperty(k)] *)
Definition hasOwnProperty {A} (o : object A) (k : string) : bool :=
  match get o k with Some _ => true | None => false end.

Fixpoint all_digits (s : string) : bool :=
  match s with
  | EmptyString => true
  | String c s' => is_digit c && all_digits s'
  end.

(** An array index: the canonical decimal form of an integer below
    [2^32 - 1].  Such keys are enumerated first, in ascending order. *)
Definition array_index (k : string) : option Z :=
  match k with
  | EmptyString => None
  | String c rest =>
      if all_digits k
         && (negb (Ascii.eqb c "0"%char) || is_empty rest)
      then
        match read_digits k 0 false with
        | Some n => if (n <? 2 ^ 32 - 1)%Z then Some n else None
        | None => None
        end
      else None
  end.

(** The place of a new key [k] among the keys of [o]: an array index goes
    before the first key that is a larger index or no index at all, any
    other key goes last. *)
Fixpoint insert_key {A} (ik : option Z) (k : string) (v : A)
    (o : object A) : object A :=
  match o with
  | [] => [(k, v)]
  | (k', v') :: o' =>
      let here :=
        match ik, array_index k' with
        | Some n, Some n' => (n <? n')%Z
        | Some _, None => true
        | None, _ => false
        end in
      if here then (k, v) :: o else (k', v') :: insert_key ik k v o'
  end.

Fixpoint replace_key {A} (k : string) (v : A) (o : object A) : object A :=
  match o with
  | [] => []
  | (k', v') :: o' =>
      if String.eqb k' k then (k', v) :: o' else (k', v') :: replace_key k v o'
  end.

(** [o[k] = v]: an existing property keeps its place. *)
Definition obj_set {A} (o : object A) (k : string) (v : A) : object A :=
  if hasOwnProperty o k then replace_key k v o
  else insert_key (array_index k) k v o.

(** [Array.from(new Set(l))]: the elements of [l] in first-seen order. *)
Fixpoint uniq_from (seen : gset string) (l : list string) : list string :=
  match l with
  | [] => []
  | k :: l' =>
      if decide (k ∈ seen) then uniq_from seen l'
      else k :: uniq_from ({[k]} ∪ seen) l'
  end.

Definition uniq (l : list string) : list string := uniq_from ∅ l.

(** [map.set(k, v)] on a [Map]: a new key goes last, an existing one keeps
    its place. *)
Definition map_set {A} (m : list (string * A)) (k : string) (v : A)
    : list (string * A) :=
  if hasOwnProperty m k then replace_key k v m else (m ++ [(k, v)])%list.

(** [l.forEach((x, i) => ...)] threading a state, from index [i]. *)
Fixpoint forEach {A St} (f : St -> A -> nat -> St) (l : list A) (i : nat)
    (s : St) : St :=
  match l with
  | [] => s
  | x :: l' => forEach f l' (S i) (f s x i)
  end.

End JS.

(** ** Types ([src/types.ts]) *)

Module Types.
Import JS.

(** [interface RawExtractionItem { [key: string]: string | number }] *)
Definition RawExtractionItem : Type := object value.

(** The row without headers, [{}]. *)
Definition empty_row : RawExtractionItem := [].

(** One entry of [manualRetagByRow]; absent fields are [None]. *)
Record ManualRetag : Type := {
  name : option string;
  costPrice : option number;
  srpPrice : option number;
}.

(** [interface ColumnMapping]; optional fields are [option]s. *)
Record ColumnMapping : Type := {
  nameField : string;
  costField : string;
  srpField : option string;
  brandName : string;
  nameFallbackFields : option (list string);
  costFallbackFields : option (list string);
  srpFallbackFields : option (list string);
  manualRetagByRow : option (gmap nat ManualRetag);
}.

End Types.

(** ** Field Resolver and Readiness Analyzer
  ([src/components/MappingModal.tsx]) *)

Module MappingModal.
Import JS Types.

(** The placeholder tokens of [/^(undefined|null|n\/a|na|-)$/i]. *)
Definition placeholders : list string :=
  ["undefined"; "null"; "n/a"; "na"; "-"].

(** [normalizeText(val)]; [None] is an [undefined] cell. *)
Definition normalizeText (val : option value) : string :=
  match val with
  | None => ""
  | Some v =>
      let text := trim (to_string v) in
      if is_empty text then ""
      else if test_whole placeholders text then ""
      else text
  end.

(** [parsePrice(val)] *)
Definition parsePrice (val : option value) : number :=
  match val with
  | Some (VNum n) => if isFinite n then n else Fin 0
  | _ =>
      let str := normalizeText val in
      if is_empty str then Fin 0
      else
        let digits := keep_digits str in
        or0 (parseInt digits)
  end.

(** [[primary, ...(fallbacks || [])].filter(Boolean)] *)
Definition candidates (primary : string) (fallbacks : option (list string))
    : list string :=
  List.filter truthy (primary :: default [] fallbacks).

(** The loop [for (const key of candidates)] of [resolveName]. *)
Fixpoint name_of_candidates (row : RawExtractionItem) (cs : list string)
    : string :=
  match cs with
  | [] => ""
  | key :: cs' =>
      let value := normalizeText (get row key) in
      if truthy value then value else name_of_candidates row cs'
  end.

(** The loop [for (const key of candidates)] of [resolveCost] and
    [resolveSrp]. *)
Fixpoint price_of_candidates (row : RawExtractionItem) (cs : list string)
    : number :=
  match cs with
  | [] => Fin 0
  | key :: cs' =>
      let value := parsePrice (get row key) in
      if gt0 value then value else price_of_candidates row cs'
  end.

(** [mapping.manualRetagByRow?.[rowIndex]] *)
Definition manualRetag (mapping : ColumnMapping) (rowIndex : nat)
    : option ManualRetag :=
  manualRetagByRow mapping ≫= (fun table => table !! rowIndex).

Section Resolver.
(** The component's current [mapping] state, which the resolvers close
    over. *)
Variable mapping : ColumnMapping.

Definition resolveName (row : RawExtractionItem) (rowIndex : nat)
    : string :=
  let manualName :=
    normalizeText (VStr <$> (manualRetag mapping rowIndex ≫= name)) in
  if truthy manualName then manualName
  else
    name_of_candidates row
      (candidates (nameField mapping) (nameFallbackFields mapping)).

Definition resolveCost (row : RawExtractionItem) (rowIndex : nat)
    : number :=
  let manualCost :=
    or0 (default NaN (manualRetag mapping rowIndex ≫= costPrice)) in
  if gt0 manualCost then manualCost
  else
    price_of_candidates row
      (candidates (costField mapping) (costFallbackFields mapping)).

Definition resolveSrp (row : RawExtractionItem) (rowIndex : nat)
    : number :=
  let manualSrp :=
    or0 (default NaN (manualRetag mapping rowIndex ≫= srpPrice)) in
  if gt0 manualSrp then manualSrp
  else if negb (truthy (default "" (srpField mapping))) then Fin 0
  else
    price_of_candidates row
      (candidates (default "" (srpField mapping))
         (srpFallbackFields mapping)).

(** [getPopulatedColumns(row)] *)
Definition getPopulatedColumns (row : RawExtractionItem) : list string :=
  List.filter (fun key => truthy (normalizeText (get row key))) (keys row).

(** [getUnresolvedReason(name, cost)] *)
Definition getUnresolvedReason (name : string) (cost : number) : string :=
  if negb (truthy name) && le0 cost
  then "Missing Product Name and Cost Price"
  else if negb (truthy name) then "Missing Product Name"
  else "Missing Cost Price".

(** An entry of [importAnalysis.rows]. *)
Record AnalysisRow : Type := {
  index : nat;
  row : RawExtractionItem;
  currentName : string;
  currentCost : number;
  isResolved : bool;
  reason : string;
  hasName : bool;
  hasCost : bool;
  populatedColumns : list string;
}.

(** An entry of [importAnalysis.unresolved] (no [isResolved] field). *)
Record UnresolvedRow : Type := {
  u_index : nat;
  u_row : RawExtractionItem;
  u_currentName : string;
  u_currentCost : number;
  u_reason : string;
  u_hasName : bool;
  u_hasCost : bool;
  u_populatedColumns : list string;
}.

(** The value of [importAnalysis]. *)
Record Analysis : Type := {
  total : nat;
  ready : nat;
  unresolved : list UnresolvedRow;
  rows : list AnalysisRow;
}.

(** The mutable locals [ready], [unresolved] and [rows] of the memo
    body. *)
Definition acc : Type := nat * list UnresolvedRow * list AnalysisRow.

(** The body of [data.forEach((row, index) => ...)]. *)
Definition analyseRow (st : acc) (r : RawExtractionItem) (i : nat) : acc :=
  let '(ready, unresolved, rows) := st in
  let currentName := resolveName r i in
  let currentCost := resolveCost r i in
  let hasName := truthy currentName in
  let hasCost := gt0 currentCost in
  let isResolved := hasName && hasCost in
  let reason := getUnresolvedReason currentName currentCost in
  let populatedColumns := getPopulatedColumns r in
  let rows' :=
    (rows ++ [Build_AnalysisRow i r currentName currentCost isResolved
                reason hasName hasCost populatedColumns])%list in
  if isResolved then (ready + 1, unresolved, rows')
  else
    (ready,
     (unresolved ++ [Build_UnresolvedRow i r currentName currentCost
                       reason hasName hasCost populatedColumns])%list,
     rows').

(** [importAnalysis], as a function of [data] (and of [mapping]). *)
Definition importAnalysis (data : list RawExtractionItem) : Analysis :=
  let '(ready, unresolved, rows) := forEach analyseRow data 0 (0, [], []) in
  {| total := length data;
     ready := ready;
     unresolved := unresolved;
     rows := rows |}.

End Resolver.

End MappingModal.

(** ** Header Similarity Scorer and Column Harmonizer
  ([src/services/geminiService.ts]) *)

Module GeminiService.
Import JS Types.

(** The keys of the [patterns] table, in declaration order. *)
Inductive category : Type :=
| name | cost | srp | price | brand | code | qty.

#[global] Instance category_eq_dec : EqDecision category.
Proof. solve_decision. Defined.

Definition categories : list category :=
  [name; cost; srp; price; brand; code; qty].

(** The alternatives of each regular expression of [patterns]. *)
Definition alternatives (c : category) : list string :=
  match c with
  | name => ["product"; "name"; "desc"; "item"; "title"; "artikel"; "produk"]
  | cost => ["cost"; "dealer"; "net"; "wholesale"; "modal"]
  | srp => ["srp"; "msrp"; "retail"; "list"; "suggested"; "base"]
  | price => ["price"; "harga"; "nilai"; "rate"]
  | brand => ["brand"; "merk"; "merek"; "supplier"; "vendor"; "pabrik"]
  | code => ["code"; "sku"; "id"; "nomor"; "no"; "kode"]
  | qty => ["qty"; "quantity"; "jumlah"; "stok"; "stock"]
  end.

(** [patterns[c].test(s)] *)
Definition test (c : category) (s : string) : bool :=
  test_any (alternatives c) s.

(** [Object.entries(patterns).filter(([_, pat]) => pat.test(s)).map(([k]) => k)] *)
Definition matched (s : string) : list category :=
  List.filter (fun c => test c s) categories.

(** [aLower[i] === bLower[i]] *)
Definition same_char (aLower bLower : string) (i : nat) : bool :=
  bool_decide (String.get i aLower = String.get i bLower).

(** The loop [for (let i = 0; i < minLen; i++)] counting [matches]. *)
Definition count_matches (aLower bLower : string) (minLen : nat) : nat :=
  length (List.filter (same_char aLower bLower) (seq 0 minLen)).

(** [similarityScore(a, b)].  The results are the rationals whose nearest
    doubles the code returns; the quotient of the last branch is compared
    with [0.75] exactly as its double is. *)
Definition similarityScore (a b : string) : Q :=
  let aLower := toLowerCase a in
  let bLower := toLowerCase b in
  if String.eqb aLower bLower then 1.0%Q
  else
    let aPatterns := matched a in
    let bPatterns := matched b in
    let aCost := test cost a in
    let bCost := test cost b in
    let aSrp := test srp a in
    let bSrp := test srp b in
    if (aCost && bSrp) || (aSrp && bCost) then 0.2%Q
    else
      let overlap :=
        length (List.filter (fun p => bool_decide (p ∈ bPatterns)) aPatterns) in
      if (0 <? overlap)%nat then 0.9%Q
      else
        let minLen := Nat.min (String.length aLower) (String.length bLower) in
        let maxLen := Nat.max (String.length aLower) (String.length bLower) in
        let matches := count_matches aLower bLower minLen in
        (Z.of_nat matches # Pos.of_nat maxLen)%Q.

(** [score >= 0.75] *)
Definition similar (a b : string) : bool :=
  Qle_bool 0.75%Q (similarityScore a b).

(** [const allKeys = Array.from(new Set(rows.flatMap((r) => Object.keys(r))))] *)
Definition allKeys (rows : list RawExtractionItem) : list string :=
  uniq (List.concat (List.map keys rows)).

(** The state of the grouping loops: the [group] being filled and the
    [assigned] set. *)
Definition inner_state : Type := list string * gset string.

(** The body of [for (const otherKey of allKeys)]. *)
Definition scan (key : string) (st : inner_state) (otherKey : string)
    : inner_state :=
  let '(group, assigned) := st in
  if decide (otherKey ∈ assigned) then st
  else if similar key otherKey
       then ((group ++ [otherKey])%list, {[otherKey]} ∪ assigned)
       else st.

(** The [groups] map and the [assigned] set. *)
Definition outer_state : Type := list (string * list string) * gset string.

(** The body of [for (const key of allKeys)]. *)
Definition open_group (allKeys : list string) (st : outer_state)
    (key : string) : outer_state :=
  let '(groups, assigned) := st in
  if decide (key ∈ assigned) then st
  else
    let '(group, assigned') :=
      fold_left (scan key) allKeys ([key], {[key]} ∪ assigned) in
    (map_set groups key group, assigned').

(** The [groups] map built from [allKeys]. *)
Definition buildGroups (allKeys : list string) : list (string * list string) :=
  fst (fold_left (open_group allKeys) allKeys ([], ∅)).

(** The loop [for (const variant of variants)] with its [break]: the cell
    of the first variant the row owns. *)
Fixpoint first_variant (row : RawExtractionItem) (variants : list string)
    : option value :=
  match variants with
  | [] => None
  | variant :: rest =>
      match get row variant with
      | Some v => Some v
      | None => first_variant row rest
      end
  end.

(** The body of [for (const [canonical, variants] of groups)]. *)
Definition copy_group (row : RawExtractionItem)
    (normalized : RawExtractionItem) (g : string * list string)
    : RawExtractionItem :=
  match first_variant row (snd g) with
  | Some v => obj_set normalized (fst g) v
  | None => normalized
  end.

(** The callback of [rows.map]. *)
Definition normalizeRow (groups : list (string * list string))
    (row : RawExtractionItem) : RawExtractionItem :=
  fold_left (copy_group row) groups [].

(** [harmonizeColumnNames(rows)] *)
Definition harmonizeColumnNames (rows : list RawExtractionItem)
    : list RawExtractionItem :=
  match rows with
  | [] => rows
  | _ =>
      let allKeys := allKeys rows in
      match allKeys with
      | [] => rows
      | _ =>
          let groups := buildGroups allKeys in
          List.map (normalizeRow groups) rows
      end
  end.

End GeminiService.

(** ** Reference definitions: the notions the statements are written with *)

Module Spec.
Import JS Types MappingModal.

(** A price in the sense of the Price Normalizer's contract: a finite,
    non-negative integer. *)
Definition nonneg_integer (n : number) : bool :=
  match n with
  | Fin z => (0 <=? z)%Z
  | _ => false
  end.

(** A non-negative number: a non-negative integer, or [Infinity]. *)
Definition nonneg (n : number) : bool :=
  match n with
  | Infinity => true
  | Fin z => (0 <=? z)%Z
  | _ => false
  end.

(** The first usable entry of a priority chain, or the default. *)
Definition first_usable {A} (usable : A -> bool) (dflt : A)
    (chain : list A) : A :=
  default dflt (head (List.filter usable chain)).

(** The configured field names of a target: the primary field, then the
    fallback fields in declared order, unnamed (empty) fields left out. *)
Definition configured (primary : string) (fallbacks : option (list string))
    : list string :=
  List.filter truthy (primary :: default [] fallbacks).

(** The manual override of a row for the name, as entered. *)
Definition manual_name (mapping : ColumnMapping) (rowIndex : nat)
    : option string :=
  manualRetag mapping rowIndex ≫= Types.name.

(** The manual override of a row for the cost price, as entered. *)
Definition manual_cost (mapping : ColumnMapping) (rowIndex : nat)
    : option number :=
  manualRetag mapping rowIndex ≫= costPrice.

(** The manual override of a row for the SRP price, as entered. *)
Definition manual_srp (mapping : ColumnMapping) (rowIndex : nat)
    : option number :=
  manualRetag mapping rowIndex ≫= srpPrice.

(** The priority chain of the name: the normalized manual override, the
    normalized primary cell, the normalized fallback cells. *)
Definition name_chain (mapping : ColumnMapping) (row : RawExtractionItem)
    (rowIndex : nat) : list string :=
  normalizeText (VStr <$> manual_name mapping rowIndex)
  :: List.map (fun key => normalizeText (get row key))
       (configured (nameField mapping) (nameFallbackFields mapping)).

(** The priority chain of the cost: the manual override as entered, the
    normalized primary cell, the normalized fallback cells. *)
Definition cost_chain (mapping : ColumnMapping) (row : RawExtractionItem)
    (rowIndex : nat) : list number :=
  (match manual_cost mapping rowIndex with
   | Some n => [n]
   | None => []
   end
   ++ List.map (fun key => parsePrice (get row key))
        (configured (costField mapping) (costFallbackFields mapping)))%list.

(** The priority rule read on the override as entered: a present,
    non-empty manual name is the resolved name. *)
Definition manual_name_wins (mapping : ColumnMapping)
    (row : RawExtractionItem) (rowIndex : nat) : Prop :=
  forall s, manual_name mapping rowIndex = Some s -> truthy s = true ->
            resolveName mapping row rowIndex = s.

(** The entry of [rows] for the row [r] at index [i]. *)
Definition analysed (mapping : ColumnMapping) (r : RawExtractionItem)
    (i : nat) : AnalysisRow :=
  let currentName := resolveName mapping r i in
  let currentCost := resolveCost mapping r i in
  {| index := i; row := r;
     currentName := currentName; currentCost := currentCost;
     isResolved := truthy currentName && gt0 currentCost;
     reason := getUnresolvedReason currentName currentCost;
     hasName := truthy currentName; hasCost := gt0 currentCost;
     populatedColumns := getPopulatedColumns r |}.

(** The entry of [unresolved] that goes with an entry of [rows]. *)
Definition as_unresolved (e : AnalysisRow) : UnresolvedRow :=
  {| u_index := index e; u_row := row e;
     u_currentName := currentName e; u_currentCost := currentCost e;
     u_reason := reason e; u_hasName := hasName e; u_hasCost := hasCost e;
     u_populatedColumns := populatedColumns e |}.

(** An entry that is not resolved. *)
Definition unready (e : AnalysisRow) : bool := negb (isResolved e).

(** The header keys held by the groups, group after group. *)
Definition members (groups : list (string * list string)) : list string :=
  List.concat (List.map snd groups).

(** The canonical keys of the groups. *)
Definition canonical_keys (groups : list (string * list string))
    : list string :=
  List.map fst groups.

(** The number of groups a header key belongs to. *)
Definition group_count (k : string) (groups : list (string * list string))
    : nat :=
  length (List.filter (fun g => bool_decide (k ∈ snd g)) groups).

(** Two rows hold the same cells: every key reads the same in both. *)
Definition same_cells (r1 r2 : RawExtractionItem) : Prop :=
  forall k, get r1 k = get r2 k.

(** The content of a row: the finite mapping from its header keys to their
    values, whatever the order of the keys. *)
Definition cells (r : RawExtractionItem) : gmap string value :=
  list_to_map r.

(** Header naming is canonical when no two distinct headers are similar. *)
Definition canonical_naming (headers : list string) : Prop :=
  forall a b, a ∈ headers -> b ∈ headers -> a <> b ->
              GeminiService.similar a b = false.

(** What holds of the [groups] map and the [assigned] set once the keys
    [done] of the key list [all] have been visited. *)
Record grouped (all done : list string) (st : GeminiService.outer_state) : Prop := {
  grouped_assigned : forall k, k ∈ (snd st) <-> k ∈ members (fst st);
  grouped_nodup : NoDup (members (fst st));
  grouped_head : forall c vs, (c, vs) ∈ (fst st) -> exists rest, vs = c :: rest;
  grouped_done : forall k, k ∈ done -> k ∈ (snd st);
  grouped_keys : forall k, k ∈ members (fst st) -> k ∈ all;
  grouped_apart : forall c vs o,
    (c, vs) ∈ (fst st) -> o ∈ all -> o ∉ (snd st) -> GeminiService.similar c o = false;
  grouped_dissimilar : forall c vs c' vs',
    (c, vs) ∈ (fst st) -> (c', vs') ∈ (fst st) -> c <> c' -> GeminiService.similar c c' = false;
  grouped_first : forall c vs,
    (c, vs) ∈ (fst st) ->
    exists before after,
      all = (before ++ c :: after)%list /\ forall v, v ∈ vs -> v ∉ before;
  grouped_visited : forall c, c ∈ canonical_keys (fst st) -> c ∈ done;
  grouped_order :
    canonical_keys (fst st)
    = List.filter (fun k => bool_decide (k ∈ canonical_keys (fst st))) done;
}.

(** The value of a string of decimal digits. *)
Fixpoint digits_value (s : string) : Z :=
  match s with
  | EmptyString => 0
  | String c s' =>
      (digit_value c * 10 ^ Z.of_nat (String.length s') + digits_value s')%Z
  end.

(** A key that is an array index. *)
Definition is_index (k : string) : bool :=
  match array_index k with Some _ => true | None => false end.

(** The order of two array-index properties: by index. *)
Definition index_lt {A} (b1 b2 : string * A) : Prop :=
  match array_index (fst b1), array_index (fst b2) with
  | Some n1, Some n2 => (n1 < n2)%Z
  | _, _ => False
  end.

(** The object obtained by assigning the bindings in turn. *)
Definition build {A} (bindings : list (string * A)) : object A :=
  fold_left (fun o b => obj_set o (fst b) (snd b)) bindings [].

(** The properties of [r] at the keys [ks], in the order of [ks]. *)
Definition bindings_at (r : RawExtractionItem) (ks : list string)
    : list (string * value) :=
  omap (fun k => (fun v => (k, v)) <$> get r k) ks.

End Spec.

(** ** Sample data: the batch and mappings of the specification's scenarios *)

Module Examples.
Import JS Types.

(** A mapping with primary fields only: no fallback field and no SRP
    field. *)
Definition primary_mapping (table : option (gmap nat ManualRetag))
    : ColumnMapping :=
  {| nameField := "Desc"; costField := "Net"; srpField := None;
     brandName := "Sony";
     nameFallbackFields := None; costFallbackFields := None;
     srpFallbackFields := None;
     manualRetagByRow := table |}.

(** A mapping with fallback fields for the three targets, still without an
    SRP field. *)
Definition fallback_mapping (table : gmap nat ManualRetag) : ColumnMapping :=
  {| nameField := "Desc"; costField := "Net"; srpField := None;
     brandName := "Sony";
     nameFallbackFields := Some ["Alt"; "Item"];
     costFallbackFields := Some ["Alt"; "Modal"];
     srpFallbackFields := Some ["SRP"];
     manualRetagByRow := Some table |}.

(** An override of the name alone. *)
Definition retag_name (s : string) : ManualRetag :=
  {| name := Some s; costPrice := None; srpPrice := None |}.

(** An override of the three targets. *)
Definition retag_all : ManualRetag :=
  {| name := Some "Manual"; costPrice := Some (Fin 7);
     srpPrice := Some (Fin 30000) |}.

(** The two rows of the end-to-end scenario. *)
Definition row0 : RawExtractionItem :=
  [("Desc", VStr "Sony A7C"); ("Net", VStr "24.845")].

Definition row1 : RawExtractionItem :=
  [("Desc", VStr ""); ("Net", VStr "91.199")].

(** The batch of the end-to-end scenario. *)
Definition batch : list RawExtractionItem := [row0; row1].

(** A row in which the primary and the fallback fields hold different
    values, and the same row with the primary cells cleared. *)
Definition full_row : RawExtractionItem :=
  [("Desc", VStr "Primary"); ("Net", VStr "1.000");
   ("Item", VStr "Fallback"); ("Modal", VNum (Fin 2000));
   ("SRP", VStr "27.999")].

Definition cleared_row : RawExtractionItem :=
  [("Desc", VStr " "); ("Net", VStr "-");
   ("Item", VStr "Fallback"); ("Modal", VNum (Fin 2000));
   ("SRP", VStr "27.999")].

(** A batch whose headers vary from row to row. *)
Definition mixed_batch : list RawExtractionItem :=
  [ [("Product Name", VStr "Nikon D850"); ("Cost Price", VNum (Fin 24000000));
     ("SRP Price", VNum (Fin 27000000))];
    [("Desc", VStr "Sony A7C"); ("Net", VStr "24.845")];
    [];
    [("Item", VStr "Canon R5"); ("Dealer", VStr "35.000");
     ("Retail", VStr "39.999"); ("Desc", VStr "body only")] ].

End Examples.

(** ** The modal's state changes ([src/components/MappingModal.tsx]) *)

Module ModalState.
Import JS Types MappingModal.

(** Line terminators, which [.] does not match. *)
Definition is_line_terminator (c : Ascii.ascii) : bool :=
  let n := Ascii.N_of_ascii c in (n =? 10)%N || (n =? 13)%N.

(** [/^.*w/.test(s)]: [w] after any run of characters of one line. *)
Fixpoint after_gap (w s : string) : bool :=
  String.prefix w s ||
  match s with
  | EmptyString => false
  | String c s' => negb (is_line_terminator c) && after_gap w s'
  end.

(** The rest of [s] after its prefix [w], when it starts with [w]. *)
Fixpoint strip_prefix (w s : string) : option string :=
  match w, s with
  | EmptyString, _ => Some s
  | String a w', String b s' =>
      if Ascii.eqb a b then strip_prefix w' s' else None
  | String _ _, EmptyString => None
  end.

(** [/w1.*w2/.test(s)] *)
Fixpoint includes_then (w1 w2 s : string) : bool :=
  match strip_prefix w1 s with
  | Some rest => after_gap w2 rest
  | None => false
  end ||
  match s with
  | EmptyString => false
  | String _ s' => includes_then w1 w2 s'
  end.

(** [/desc|name|product|item|model/i.test(k)] *)
Definition name_guess (k : string) : bool :=
  test_any ["desc"; "name"; "product"; "item"; "model"] k.

(** [/price|cost|dealer|net|wholesale/i.test(k)] *)
Definition cost_guess (k : string) : bool :=
  test_any ["price"; "cost"; "dealer"; "net"; "wholesale"] k.

(** [/srp|retail|sell|suggested.*price|base.*price/i.test(k)] *)
Definition srp_guess (k : string) : bool :=
  test_any ["srp"; "retail"; "sell"] k
  || includes_then "suggested" "price" (toLowerCase k)
  || includes_then "base" "price" (toLowerCase k).

(** [allKeys.find(p)], kept when truthy (the test [if (key)]). *)
Definition found (p : string -> bool) (allKeys : list string) : option string :=
  match List.find p allKeys with
  | Some k => if truthy k then Some k else None
  | None => None
  end.

(** The effect on [mapping] of the [useEffect] hook run on [data]: the
    guessed fields overwrite the previous ones. *)
Definition guessMapping (prev : ColumnMapping) (data : list RawExtractionItem)
    : ColumnMapping :=
  match data with
  | [] => prev
  | _ =>
      let allKeys := uniq (List.concat (List.map keys data)) in
      let nameKey := found name_guess allKeys in
      let costKey := found cost_guess allKeys in
      let srpKey := found srp_guess allKeys in
      {| nameField := default (nameField prev) nameKey;
         costField := default (costField prev) costKey;
         srpField := match srpKey with Some k => Some k | None => srpField prev end;
         brandName := brandName prev;
         nameFallbackFields := nameFallbackFields prev;
         costFallbackFields := costFallbackFields prev;
         srpFallbackFields := srpFallbackFields prev;
         manualRetagByRow := manualRetagByRow prev |}
  end.

(** The first argument of [toggleFallbackField]. *)
Inductive fallback_type : Type := for_name | for_cost | for_srp.

(** [Array.from(new Set(next))] for the [next] list of a toggle. *)
Definition toggled (current : option (list string)) (field : string)
    (checked : bool) : list string :=
  let current := default [] current in
  let next :=
    if checked then (current ++ [field])%list
    else List.filter (fun k => negb (String.eqb k field)) current in
  uniq next.

(** [toggleFallbackField(type, field, checked)], as the new mapping. *)
Definition toggleFallbackField (prev : ColumnMapping) (type : fallback_type)
    (field : string) (checked : bool) : ColumnMapping :=
  match type with
  | for_name =>
      {| nameField := nameField prev; costField := costField prev;
         srpField := srpField prev; brandName := brandName prev;
         nameFallbackFields :=
           Some (toggled (nameFallbackFields prev) field checked);
         costFallbackFields := costFallbackFields prev;
         srpFallbackFields := srpFallbackFields prev;
         manualRetagByRow := manualRetagByRow prev |}
  | for_cost =>
      {| nameField := nameField prev; costField := costField prev;
         srpField := srpField prev; brandName := brandName prev;
         nameFallbackFields := nameFallbackFields prev;
         costFallbackFields :=
           Some (toggled (costFallbackFields prev) field checked);
         srpFallbackFields := srpFallbackFields prev;
         manualRetagByRow := manualRetagByRow prev |}
  | for_srp =>
      {| nameField := nameField prev; costField := costField prev;
         srpField := srpField prev; brandName := brandName prev;
         nameFallbackFields := nameFallbackFields prev;
         costFallbackFields := costFallbackFields prev;
         srpFallbackFields :=
           Some (toggled (srpFallbackFields prev) field checked);
         manualRetagByRow := manualRetagByRow prev |}
  end.

(** The [partial] argument of [updateManualRetag]: a key may be absent
    ([None]) or present, with a value or with [undefined]. *)
Record RetagPartial : Type := {
  p_name : option (option string);
  p_costPrice : option (option number);
  p_srpPrice : option (option number);
}.

(** [{}] *)
Definition no_retag : ManualRetag :=
  {| name := None; costPrice := None; srpPrice := None |}.

(** [{ ...current, ...partial }] *)
Definition merge (current : ManualRetag) (partial : RetagPartial)
    : ManualRetag :=
  {| name := default (name current) (p_name partial);
     costPrice := default (costPrice current) (p_costPrice partial);
     srpPrice := default (srpPrice current) (p_srpPrice partial) |}.

(** [updateManualRetag(rowIndex, partial)], as the new mapping. *)
Definition updateManualRetag (prev : ColumnMapping) (rowIndex : nat)
    (partial : RetagPartial) : ColumnMapping :=
  let current := default no_retag (manualRetag prev rowIndex) in
  let merged := merge current partial in
  {| nameField := nameField prev; costField := costField prev;
     srpField := srpField prev; brandName := brandName prev;
     nameFallbackFields := nameFallbackFields prev;
     costFallbackFields := costFallbackFields prev;
     srpFallbackFields := srpFallbackFields prev;
     manualRetagByRow :=
       Some (<[rowIndex := merged]> (default ∅ (manualRetagByRow prev))) |}.

(** The [target] of the quick fallback, ['name' | 'cost']. *)
Inductive quick_target : Type := quick_name | quick_cost.

(** [getQuickFallbackEligibleCount(column, target)] over the current
    [importAnalysis.unresolved]. *)
Definition getQuickFallbackEligibleCount (unresolved : list UnresolvedRow)
    (column : string) (target : quick_target) : nat :=
  if negb (truthy column) then 0
  else
    fold_left
      (fun count unresolvedRow =>
         let value := get (u_row unresolvedRow) column in
         match target with
         | quick_name =>
             count + (if truthy (normalizeText value) then 1 else 0)
         | quick_cost =>
             count + (if gt0 (parsePrice value) then 1 else 0)
         end)
      unresolved 0.

(** [applyQuickFallback()]: the alert shown, or the new mapping. *)
Definition applyQuickFallback (mapping : ColumnMapping)
    (data : list RawExtractionItem) (quickFallbackColumn : string)
    (quickFallbackTarget : quick_target) : string + ColumnMapping :=
  if negb (truthy quickFallbackColumn)
  then inl "Please select a column first."
  else
    let eligibleCount :=
      getQuickFallbackEligibleCount (unresolved (importAnalysis mapping data))
        quickFallbackColumn quickFallbackTarget in
    if (eligibleCount =? 0)%nat
    then inl "Selected column has no usable data for unresolved rows."
    else
      match quickFallbackTarget with
      | quick_name =>
          inr (toggleFallbackField mapping for_name quickFallbackColumn true)
      | quick_cost =>
          inr (toggleFallbackField mapping for_cost quickFallbackColumn true)
      end.

(** [handleSubmit()]: the alert shown, or the mapping given to
    [onConfirm]. *)
Definition handleSubmit (mapping : ColumnMapping) : string + ColumnMapping :=
  if negb (truthy (nameField mapping)) || negb (truthy (costField mapping))
  then inl "Please map the Product Name and Cost Price columns."
  else if negb (truthy (trim (brandName mapping)))
  then inl "Please enter a Brand Name for this price list."
  else
    inr {| nameField := nameField mapping; costField := costField mapping;
           srpField := srpField mapping; brandName := brandName mapping;
           nameFallbackFields := Some (default [] (nameFallbackFields mapping));
           costFallbackFields := Some (default [] (costFallbackFields mapping));
           srpFallbackFields := srpFallbackFields mapping;
           manualRetagByRow := Some (default ∅ (manualRetagByRow mapping)) |}.

End ModalState.

(** ** The import step ([src/App.tsx], [handleMappingConfirm]) *)

Module App.
Import JS Types.

Definition is_lower (c : Ascii.ascii) : bool :=
  let n := Ascii.N_of_ascii c in (97 <=? n)%N && (n <=? 122)%N.

Definition upper_char (c : Ascii.ascii) : Ascii.ascii :=
  if is_lower c then Ascii.ascii_of_N (Ascii.N_of_ascii c - 32) else c.

(** [s.toUpperCase()] *)
Fixpoint toUpperCase (s : string) : string :=
  match s with
  | EmptyString => EmptyString
  | String c s' => String (upper_char c) (toUpperCase s')
  end.

(** [s.replace(/\s+/g, ' ')]; [in_run] tells that the previous character
    was white space. *)
Fixpoint compact (in_run : bool) (s : string) : string :=
  match s with
  | EmptyString => EmptyString
  | String c s' =>
      if is_space c
      then if in_run then compact true s' else String " " (compact true s')
      else String c (compact false s')
  end.

(** [formatBrandName(value)]; [None] is [undefined] or [null]. *)
Definition formatBrandName (value : option string) : string :=
  let compacted := compact false (trim (default "" value)) in
  if truthy compacted then toUpperCase compacted else "UNKNOWN".

(** [normalizeText(val)], local to [handleMappingConfirm]. *)
Definition normalizeText (val : option value) : string :=
  match val with
  | None => ""
  | Some v =>
      let text := trim (to_string v) in
      if is_empty text then ""
      else if test_whole ["undefined"; "null"; "n/a"; "na"; "-"] text then ""
      else text
  end.

(** The loop [for (const key of fallbackKeys)] of [getBestValue]. *)
Fixpoint first_fallback (item : RawExtractionItem) (fallbackKeys : list string)
    : option string :=
  match fallbackKeys with
  | [] => None
  | key :: rest =>
      let value := normalizeText (get item key) in
      if truthy value then Some value else first_fallback item rest
  end.

(** The end of [getBestValue]: the cell of the first key of the item that
    matches the pattern and holds a usable text; the pattern is an
    alternation of literals, tested without case. *)
Definition by_pattern (item : RawExtractionItem)
    (fallbackPattern : option (list string)) : string :=
  match fallbackPattern with
  | None => ""
  | Some alts =>
      let fallbackKey :=
        List.find
          (fun key => test_any alts key
                      && truthy (normalizeText (get item key)))
          (keys item) in
      match fallbackKey with
      | Some key => if truthy key then normalizeText (get item key) else ""
      | None => ""
      end
  end.

(** [getBestValue(item, preferredKey, fallbackKeys, fallbackPattern)] *)
Definition getBestValue (item : RawExtractionItem) (preferredKey : string)
    (fallbackKeys : list string) (fallbackPattern : option (list string))
    : string :=
  let preferred := normalizeText (get item preferredKey) in
  if truthy preferred then preferred
  else
    match first_fallback item fallbackKeys with
    | Some value => value
    | None => by_pattern item fallbackPattern
    end.

(** [cleanPrice(val)] *)
Definition cleanPrice (val : value) : number :=
  match val with
  | VNum n => n
  | VStr str =>
      let cleanStr := keep_digits str in
      or0 (parseInt cleanStr)
  end.

(** [/desc|name|product|item|model/i] *)
Definition name_pattern : list string :=
  ["desc"; "name"; "product"; "item"; "model"].

(** [/price|cost|dealer|net|wholesale/i] *)
Definition cost_pattern : list string :=
  ["price"; "cost"; "dealer"; "net"; "wholesale"].

(** [/price|retail|sell|srp/i] *)
Definition srp_pattern : list string := ["price"; "retail"; "sell"; "srp"].

(** An element of [incomingItems]. *)
Record StagedItem : Type := {
  name : string;
  costPrice : number;
  srpPrice : number;
  brand : string;
  rawJson : RawExtractionItem;
}.

(** [manualRetag?.costPrice && manualRetag.costPrice > 0
      ? manualRetag.costPrice : 0] *)
Definition manual_price (price : option number) : number :=
  match price with
  | Some n => if truthy_number n && gt0 n then n else Fin 0
  | None => Fin 0
  end.

(** The callback of [extractedData.map((item, index) => ...)]. *)
Definition stage (mapping : ColumnMapping) (index : nat)
    (item : RawExtractionItem) : StagedItem :=
  let manualRetag := MappingModal.manualRetag mapping index in
  let manualName := normalizeText (VStr <$> (manualRetag ≫= Types.name)) in
  let productName :=
    if truthy manualName then manualName
    else getBestValue item (nameField mapping)
           (default [] (nameFallbackFields mapping)) (Some name_pattern) in
  let manualCost := manual_price (manualRetag ≫= Types.costPrice) in
  let priceRaw :=
    if gt0 manualCost then VNum manualCost
    else VStr (getBestValue item (costField mapping)
                 (default [] (costFallbackFields mapping))
                 (Some cost_pattern)) in
  let manualSrp := manual_price (manualRetag ≫= Types.srpPrice) in
  let srpRaw :=
    if gt0 manualSrp then VNum manualSrp
    else if truthy (default "" (srpField mapping))
    then VStr (getBestValue item (default "" (srpField mapping))
                 (default [] (srpFallbackFields mapping)) (Some srp_pattern))
    else VStr "0" in
  {| name := productName;
     costPrice := if gt0 manualCost then manualCost else cleanPrice priceRaw;
     srpPrice := if gt0 manualSrp then manualSrp else cleanPrice srpRaw;
     brand := formatBrandName (Some (brandName mapping));
     rawJson := item |}.

(** [incomingItems]: the staged rows that have a name and a cost. *)
Definition incomingItems (mapping : ColumnMapping)
    (extractedData : list RawExtractionItem) : list StagedItem :=
  List.filter (fun p => truthy (name p) && gt0 (costPrice p))
    (imap (stage mapping) extractedData).

End App.

(** ** Further notions used in the statements *)

Module Notions.
Import JS Types MappingModal Spec ModalState.

(** The manual override of a row for one price, when there is one. *)
Definition entered (price : option number) : list number :=
  match price with
  | Some n => [n]
  | None => []
  end.

(** The priority chain of the SRP: the manual override as entered, then,
    when an SRP field is configured, the normalized primary cell and the
    normalized fallback cells. *)
Definition srp_chain (mapping : ColumnMapping) (row : RawExtractionItem)
    (rowIndex : nat) : list number :=
  (entered (manual_srp mapping rowIndex)
   ++ if truthy (default "" (srpField mapping))
      then List.map (fun key => parsePrice (get row key))
             (configured (default "" (srpField mapping))
                (srpFallbackFields mapping))
      else [])%list.

(** The fallback list of a target, as stored. *)
Definition stored_fallbacks (type : fallback_type) (mapping : ColumnMapping)
    : option (list string) :=
  match type with
  | for_name => nameFallbackFields mapping
  | for_cost => costFallbackFields mapping
  | for_srp => srpFallbackFields mapping
  end.

(** The fallback list of a target, as read ([|| []]). *)
Definition fallbacks (type : fallback_type) (mapping : ColumnMapping)
    : list string :=
  default [] (stored_fallbacks type mapping).

(** A partial that sets the name alone. *)
Definition set_name (s : string) : RetagPartial :=
  {| p_name := Some (Some s); p_costPrice := None; p_srpPrice := None |}.

(** A partial that sets the cost price alone. *)
Definition set_cost (n : number) : RetagPartial :=
  {| p_name := None; p_costPrice := Some (Some n); p_srpPrice := None |}.

(** A partial that sets the SRP price alone. *)
Definition set_srp (n : number) : RetagPartial :=
  {| p_name := None; p_costPrice := None; p_srpPrice := Some (Some n) |}.

(** The name resolved from the row alone, without manual override. *)
Definition automatic_name (mapping : ColumnMapping) (row : RawExtractionItem)
    : string :=
  name_of_candidates row
    (candidates (nameField mapping) (nameFallbackFields mapping)).

(** The cost resolved from the row alone, without manual override. *)
Definition automatic_cost (mapping : ColumnMapping) (row : RawExtractionItem)
    : number :=
  price_of_candidates row
    (candidates (costField mapping) (costFallbackFields mapping)).

(** The three reasons of [getUnresolvedReason]. *)
Definition reason_for (hasName hasCost : bool) : string :=
  if negb hasName && negb hasCost then "Missing Product Name and Cost Price"
  else if negb hasName then "Missing Product Name"
  else "Missing Cost Price".

(** A cell that the quick fallback counts for a target. *)
Definition usable_for (target : quick_target) (cell : option value) : bool :=
  match target with
  | quick_name => truthy (normalizeText cell)
  | quick_cost => gt0 (parsePrice cell)
  end.

(** The fallback list that the quick fallback extends for a target. *)
Definition quick_type (target : quick_target) : fallback_type :=
  match target with
  | quick_name => for_name
  | quick_cost => for_cost
  end.

(** The target of the quick fallback is resolved for a row. *)
Definition resolved_for (target : quick_target) (mapping : ColumnMapping)
    (row : RawExtractionItem) (rowIndex : nat) : bool :=
  match target with
  | quick_name => truthy (resolveName mapping row rowIndex)
  | quick_cost => gt0 (resolveCost mapping row rowIndex)
  end.

(** The unresolved rows that the quick fallback counts. *)
Definition eligible (unresolved : list UnresolvedRow) (column : string)
    (target : quick_target) : list UnresolvedRow :=
  List.filter (fun u => usable_for target (get (u_row u) column)) unresolved.

End Notions.

(** ** Further notions on the groups *)

Module GroupNotions.
Import JS Types GeminiService Spec.

(** The groups of a batch. *)
Definition groups_of (rows : list RawExtractionItem)
    : list (string * list string) :=
  buildGroups (allKeys rows).

(** A header stands for another: it is that header, or it is similar to
    it. *)
Definition stands_for (c k : string) : Prop :=
  c = k \/ similar c k = true.

(** One header matches the cost category and the other the SRP
    category. *)
Definition anti_match (a b : string) : bool :=
  (test cost a && test srp b) || (test srp a && test cost b).

(** The relation between a row and its rewriting: every cell of the
    rewriting is a cell of the row under a header that the new header stands
    for, and every header of the row is stood for by a header of the
    rewriting. *)
Definition rewritten (row out : RawExtractionItem) : Prop :=
  (forall c v, get out c = Some v ->
     exists k, get row k = Some v /\ stands_for c k)
  /\ (forall k, k ∈ keys row -> exists c, c ∈ keys out /\ stands_for c k).

(** What the loops keep beyond [grouped]: a member is stood for by its
    canonical key, and is not similar to the canonical key of any earlier
    group. *)
Definition greedy (groups : list (string * list string)) : Prop :=
  (forall c vs v, (c, vs) ∈ groups -> v ∈ vs -> stands_for c v)
  /\ (forall i j c vs c' vs' v,
        groups !! i = Some (c', vs') -> groups !! j = Some (c, vs) ->
        i < j -> v ∈ vs -> GeminiService.similar c' v = false).

(** The batch of a page headed [Price] followed by a page headed
    [Net Price] and [Retail Price]. *)
Definition neutral_first : list RawExtractionItem :=
  [ [("Item", VStr "Nikon D850"); ("Price", VNum (Fin 24000000))];
    [("Item", VStr "Canon R5"); ("Net Price", VNum (Fin 35000000));
     ("Retail Price", VNum (Fin 39999000))] ].

End GroupNotions.

(** ** Further sample data *)

Module MoreExamples.
Import JS Types.

(** Two pages whose price header differs by case only. *)
Definition case_batch : list RawExtractionItem :=
  [ [("Price", VNum (Fin 1000))]; [("PRICE", VNum (Fin 2000))] ].

(** A row without the configured name column, whose name sits under a
    header that matches the name pattern. *)
Definition unnamed_row : RawExtractionItem :=
  [("Item", VStr "Canon R5"); ("Net", VStr "35.000")].

(** A row whose primary cost cell is a text without a price, with a price
    in a fallback column. *)
Definition unpriced_row : RawExtractionItem :=
  [("Desc", VStr "Sony A7C"); ("Net", VStr "TBA");
   ("Modal", VNum (Fin 2000))].

(** A row whose primary cost cell is a negative number. *)
Definition negative_row : RawExtractionItem :=
  [("Desc", VStr "Sony A7C"); ("Net", VNum (Fin (-5000)))].

End MoreExamples.

(** ** The Price Normalizer *)

Section PriceNormalizer.
Import JS Types MappingModal Spec.

Lemma is_digit_value c : is_digit c = true -> (0 <= digit_value c <= 9)%Z.
Proof.
  unfold is_digit, digit_value. intros H.
  apply andb_true_iff in H as [H1 H2].
  apply N.leb_le in H1, H2. lia.
Qed.

Lemma read_digits_nonneg s : forall acc seen n,
  (0 <= acc)%Z -> read_digits s acc seen = Some n -> (0 <= n)%Z.
Proof.
  induction s as [|c s IH]; intros acc seen n Hacc; simpl.
  - destruct seen; [intros [= <-]; exact Hacc | discriminate].
  - destruct (is_digit c) eqn:Hc.
    + apply IH. pose proof (is_digit_value c Hc). lia.
    + destruct seen; [intros [= <-]; exact Hacc | discriminate].
Qed.

Lemma to_double_nonneg n : (0 <= n)%Z -> nonneg (to_double n) = true.
Proof.
  intros Hn. unfold to_double.
  destruct (n <? 2 ^ 53)%Z eqn:Hsmall; simpl.
  - apply Z.leb_le, Hn.
  - set (e := (Z.log2 n - 52)%Z).
    set (q := Z.shiftr n e).
    match goal with |- context [Z.shiftl ?x e] =>
      match x with
      | q => fail 1
      | _ => set (q' := x)
      end
    end.
    destruct (2 ^ 1024 <=? Z.shiftl q' e)%Z; simpl; [reflexivity|].
    apply Z.leb_le, Z.shiftl_nonneg.
    assert (0 <= q)%Z by (apply Z.shiftr_nonneg, Hn).
    subst q'. destruct (_ || _); lia.
Qed.

Lemma all_digits_keep_digits s : all_digits (keep_digits s) = true.
Proof.
  induction s as [|c s IH]; simpl; [reflexivity|].
  destruct (is_digit c) eqn:Hc; simpl; [rewrite Hc|]; exact IH.
Qed.

(** On a string of digits [parseInt] meets neither white space nor a
    sign. *)
Lemma parseInt_all_digits ds :
  all_digits ds = true ->
  parseInt ds =
    match read_digits ds 0 false with
    | Some n => to_double n
    | None => NaN
    end.
Proof.
  destruct ds as [|c ds]; [reflexivity|].
  simpl all_digits. intros H. apply andb_true_iff in H as [Hc _].
  unfold parseInt.
  assert (Hsp : is_space c = false).
  { unfold is_digit in Hc. unfold is_space.
    apply andb_true_iff in Hc as [H1 H2]. apply N.leb_le in H1, H2.
    apply orb_false_iff. split.
    - apply andb_false_iff. right. apply N.leb_gt. lia.
    - apply N.eqb_neq. lia. }
  simpl trimStart. rewrite Hsp.
  destruct c as [[] [] [] [] [] [] [] []]; try discriminate Hc; reflexivity.
Qed.

Lemma parsePrice_text_nonneg s :
  nonneg (parsePrice (Some (VStr s))) = true.
Proof.
  unfold parsePrice.
  destruct (is_empty _); [reflexivity|].
  rewrite parseInt_all_digits by apply all_digits_keep_digits.
  destruct (read_digits _ 0 false) as [n|] eqn:Hread; [|reflexivity].
  apply read_digits_nonneg in Hread; [|lia].
  pose proof (to_double_nonneg n Hread) as Hd.
  unfold or0. destruct (truthy_number (to_double n)); [exact Hd | reflexivity].
Qed.

(** C3, as stated, fails: the number [-5] is returned unchanged, so the
    output of the Price Normalizer is negative there, although
    [normalize("-5")] is [5]. *)
Lemma parsePrice_negative_number :
  parsePrice (Some (VNum (Fin (-5)))) = Fin (-5)
  /\ nonneg_integer (parsePrice (Some (VNum (Fin (-5))))) = false
  /\ parsePrice (Some (VStr "-5")) = Fin 5.
Proof. repeat split. Qed.

(** C3, amended: a finite numeric input is returned unchanged (whatever
    its sign) and a non-finite one normalizes to 0; for every other input
    (a string, or a missing cell) the output is non-negative: a
    non-negative integer, or [Infinity] when the digit run exceeds the
    range of a double. *)
Theorem parsePrice_contract (val : option value) :
  match val with
  | Some (VNum n) => parsePrice val = if isFinite n then n else Fin 0
  | _ => nonneg (parsePrice val) = true
  end.
Proof.
  destruct val as [[s|n]|].
  - apply parsePrice_text_nonneg.
  - reflexivity.
  - reflexivity.
Qed.

(** The values quoted by the specification. *)
Example parsePrice_examples :
  parsePrice (Some (VStr "Rp 1.500.000")) = Fin 1500000
  /\ parsePrice (Some (VNum (Fin 1500000))) = Fin 1500000
  /\ parsePrice (Some (VStr "")) = Fin 0
  /\ parsePrice (Some (VStr "n/a")) = Fin 0
  /\ parsePrice (Some (VNum NaN)) = Fin 0
  /\ parsePrice (Some (VNum Infinity)) = Fin 0.
Proof. repeat split. Qed.

(** Normalizing again a finite result, fed back as a number, changes
    nothing. *)
Lemma parsePrice_again (val : option value) :
  isFinite (parsePrice val) = true ->
  parsePrice (Some (VNum (parsePrice val))) = parsePrice val.
Proof. intros Hfin. simpl. rewrite Hfin. reflexivity. Qed.

(** A digit run beyond the range of a double overflows. *)
Example parsePrice_overflow :
  parsePrice (Some (VStr (String.concat "" (replicate 309 "9")))) = Infinity.
Proof. vm_compute. reflexivity. Qed.

End PriceNormalizer.

(** ** The Field Resolver *)

Section FieldResolver.
Import JS Types MappingModal Spec Examples.

Lemma name_of_candidates_first row cs :
  name_of_candidates row cs =
  first_usable truthy "" (List.map (fun key => normalizeText (get row key)) cs).
Proof.
  unfold first_usable.
  induction cs as [|key cs IH]; simpl; [reflexivity|].
  destruct (truthy (normalizeText (get row key))); [reflexivity | exact IH].
Qed.

Lemma price_of_candidates_first row cs :
  price_of_candidates row cs =
  first_usable gt0 (Fin 0) (List.map (fun key => parsePrice (get row key)) cs).
Proof.
  unfold first_usable.
  induction cs as [|key cs IH]; simpl; [reflexivity|].
  destruct (gt0 (parsePrice (get row key))); [reflexivity | exact IH].
Qed.

Lemma gt0_or0 n : gt0 (or0 n) = gt0 n.
Proof. destruct n as [| | |[]]; reflexivity. Qed.

Lemma or0_gt0 n : gt0 n = true -> or0 n = n.
Proof. destruct n as [| | |[]]; simpl; (discriminate || reflexivity). Qed.

Lemma resolveName_chain mapping row rowIndex :
  resolveName mapping row rowIndex =
  first_usable truthy "" (name_chain mapping row rowIndex).
Proof.
  unfold resolveName, name_chain, manual_name, candidates, configured.
  rewrite name_of_candidates_first. unfold first_usable. simpl List.filter at 3.
  destruct (truthy (normalizeText _)); reflexivity.
Qed.

Lemma resolveCost_chain mapping row rowIndex :
  resolveCost mapping row rowIndex =
  first_usable gt0 (Fin 0) (cost_chain mapping row rowIndex).
Proof.
  unfold resolveCost, cost_chain, manual_cost, candidates, configured.
  rewrite price_of_candidates_first, gt0_or0. unfold first_usable.
  destruct (manualRetag mapping rowIndex ≫= costPrice) as [n|]; simpl.
  - destruct (gt0 n) eqn:Hn; [|reflexivity]. simpl. apply or0_gt0, Hn.
  - reflexivity.
Qed.

(** The head of each chain: a usable manual override is the result. *)
Lemma resolveName_manual mapping row rowIndex :
  truthy (normalizeText (VStr <$> manual_name mapping rowIndex)) = true ->
  resolveName mapping row rowIndex
  = normalizeText (VStr <$> manual_name mapping rowIndex).
Proof.
  intros H. rewrite resolveName_chain. unfold first_usable, name_chain.
  simpl. rewrite H. reflexivity.
Qed.

Lemma resolveCost_manual mapping row rowIndex n :
  manual_cost mapping rowIndex = Some n -> gt0 n = true ->
  resolveCost mapping row rowIndex = n.
Proof.
  intros Hm Hn. rewrite resolveCost_chain. unfold first_usable, cost_chain.
  rewrite Hm. simpl. rewrite Hn. reflexivity.
Qed.

(** C1, as stated, fails for the name: a manual override that is present and
    non-empty but is a placeholder token does not win; the primary field's
    value is returned instead. *)
Lemma resolveName_manual_placeholder :
  manual_name (primary_mapping (Some {[ 0%nat := retag_name "N/A" ]})) 0
    = Some "N/A"
  /\ truthy "N/A" = true
  /\ resolveName (primary_mapping (Some {[ 0%nat := retag_name "N/A" ]}))
       row0 0 = "Sony A7C"
  /\ ~ manual_name_wins
         (primary_mapping (Some {[ 0%nat := retag_name "N/A" ]})) row0 0.
Proof.
  set (mapping := primary_mapping _).
  assert (Hm : manual_name mapping 0 = Some "N/A") by (vm_compute; reflexivity).
  assert (Hr : resolveName mapping row0 0 = "Sony A7C")
    by (vm_compute; reflexivity).
  repeat split; try assumption.
  intros Hwins. specialize (Hwins "N/A" Hm eq_refl).
  rewrite Hr in Hwins. discriminate Hwins.
Qed.

(** C1, amended: [resolveName] returns the first non-empty entry of the
    chain made of the normalized manual override, the normalized cell of the
    primary field and the normalized cells of the fallback fields in
    declared order (fields with an empty name left out), and the empty
    string when there is none; [resolveCost] returns the first entry greater
    than 0 of the chain made of the manual override as entered, the
    normalized price of the primary cell and those of the fallback cells,
    and 0 when there is none. *)
Theorem resolve_priority_chain (mapping : ColumnMapping)
    (row : RawExtractionItem) (rowIndex : nat) :
  resolveName mapping row rowIndex =
    first_usable truthy "" (name_chain mapping row rowIndex)
  /\ resolveCost mapping row rowIndex =
    first_usable gt0 (Fin 0) (cost_chain mapping row rowIndex).
Proof. split; [apply resolveName_chain | apply resolveCost_chain]. Qed.

(** The priority scenario of the specification: all three sources hold
    different values; the manual override wins, then the primary field,
    then the first usable fallback field. *)
Example resolve_priority_scenario :
  resolveName (fallback_mapping {[ 0%nat := retag_all ]}) full_row 0 = "Manual"
  /\ resolveCost (fallback_mapping {[ 0%nat := retag_all ]}) full_row 0 = Fin 7
  /\ resolveName (fallback_mapping ∅) full_row 0 = "Primary"
  /\ resolveCost (fallback_mapping ∅) full_row 0 = Fin 1000
  /\ resolveName (fallback_mapping ∅) cleared_row 0 = "Fallback"
  /\ resolveCost (fallback_mapping ∅) cleared_row 0 = Fin 2000.
Proof. vm_compute. repeat split. Qed.

(** C8: with no [srpField] configured (absent or empty), [resolveSrp] is the
    manual SRP override of the row when that is greater than 0, and 0
    otherwise, whatever the row's cells and the SRP fallback fields are. *)
Theorem resolveSrp_no_srpField (mapping : ColumnMapping)
    (row : RawExtractionItem) (rowIndex : nat) :
  srpField mapping = None \/ srpField mapping = Some "" ->
  resolveSrp mapping row rowIndex =
    match manual_srp mapping rowIndex with
    | Some n => if gt0 n then n else Fin 0
    | None => Fin 0
    end.
Proof.
  intros Hsrp. unfold resolveSrp, manual_srp. rewrite gt0_or0.
  assert (Hfalsy : truthy (default "" (srpField mapping)) = false)
    by (destruct Hsrp as [-> | ->]; reflexivity).
  rewrite Hfalsy. simpl.
  destruct (manualRetag mapping rowIndex ≫= srpPrice) as [n|]; simpl;
    [|reflexivity].
  destruct (gt0 n) eqn:Hn; [apply or0_gt0, Hn | reflexivity].
Qed.

(** The theorem at a row whose SRP fallback cell is filled: without an
    override the SRP is 0, with one it is the override. *)
Lemma resolveSrp_no_srpField_witness :
  (srpField (fallback_mapping ∅) = None
   \/ srpField (fallback_mapping ∅) = Some "")
  /\ resolveSrp (fallback_mapping ∅) full_row 0 =
       match manual_srp (fallback_mapping ∅) 0 with
       | Some n => if gt0 n then n else Fin 0
       | None => Fin 0
       end
  /\ resolveSrp (fallback_mapping {[ 0%nat := retag_all ]}) full_row 0 =
       match manual_srp (fallback_mapping {[ 0%nat := retag_all ]}) 0 with
       | Some n => if gt0 n then n else Fin 0
       | None => Fin 0
       end.
Proof.
  split; [left; reflexivity|].
  split; apply resolveSrp_no_srpField; left; reflexivity.
Defined.

(** The two values of the witness, evaluated. *)
Example resolveSrp_no_srpField_values :
  resolveSrp (fallback_mapping ∅) full_row 0 = Fin 0
  /\ resolveSrp (fallback_mapping {[ 0%nat := retag_all ]}) full_row 0
     = Fin 30000.
Proof. vm_compute. split; reflexivity. Qed.

End FieldResolver.

(** ** The Readiness Analyzer *)

Section ReadinessAnalyzer.
Import JS Types MappingModal Spec Examples.
Local Open Scope list_scope.

Variable mapping : ColumnMapping.

Lemma analyseRow_step ready0 unresolved0 rows0 r i :
  analyseRow mapping (ready0, unresolved0, rows0) r i =
  if isResolved (analysed mapping r i)
  then (ready0 + 1, unresolved0, rows0 ++ [analysed mapping r i])
  else (ready0, unresolved0 ++ [as_unresolved (analysed mapping r i)],
        rows0 ++ [analysed mapping r i]).
Proof.
  unfold analyseRow, analysed, as_unresolved. simpl.
  destruct (truthy _ && gt0 _); reflexivity.
Qed.

(** The loop of [importAnalysis], started at index [i] with any values of
    its three locals: the entries it appends to [rows] carry the indices
    [i, i+1, ...]; [ready] grows by the number of resolved entries and
    [unresolved] receives the others, in order. *)
Lemma forEach_analyseRow data : forall i ready0 unresolved0 rows0,
  exists new,
    forEach (analyseRow mapping) data i (ready0, unresolved0, rows0)
    = (ready0 + length (List.filter isResolved new),
       unresolved0 ++ List.map as_unresolved (List.filter unready new),
       rows0 ++ new)
    /\ List.map index new = seq i (length data).
Proof.
  induction data as [|r data IH]; intros i ready0 unresolved0 rows0.
  - exists []. simpl. rewrite !app_nil_r, Nat.add_0_r. auto.
  - cbn [forEach]. rewrite analyseRow_step.
    assert (Hi : index (analysed mapping r i) = i) by reflexivity.
    revert Hi. generalize (analysed mapping r i). intros e Hi. unfold unready.
    destruct (isResolved e) eqn:He.
    + destruct (IH (S i) (ready0 + 1) unresolved0 (rows0 ++ [e]))
        as (new & Heq & Hidx).
      exists (e :: new). rewrite Heq. simpl. rewrite He. simpl.
      rewrite <- app_assoc. simpl.
      split; [f_equal; f_equal; lia | rewrite Hi, Hidx; reflexivity].
    + destruct (IH (S i) ready0 (unresolved0 ++ [as_unresolved e])
                  (rows0 ++ [e])) as (new & Heq & Hidx).
      exists (e :: new). rewrite Heq. simpl. rewrite He. simpl.
      rewrite <- !app_assoc. simpl.
      split; [reflexivity | rewrite Hi, Hidx; reflexivity].
Qed.

(** C9: the aggregates satisfy [ready + length unresolved = total], where
    [total] is the number of input rows; [rows] holds one entry per input
    row, in order, and each entry is counted in [ready] when it is resolved
    and listed in [unresolved] when it is not. *)
Theorem importAnalysis_counts (data : list RawExtractionItem) :
  ready (importAnalysis mapping data)
    + length (unresolved (importAnalysis mapping data))
  = total (importAnalysis mapping data)
  /\ total (importAnalysis mapping data) = length data
  /\ List.map index (rows (importAnalysis mapping data))
     = seq 0 (length data)
  /\ ready (importAnalysis mapping data)
     = length (List.filter isResolved (rows (importAnalysis mapping data)))
  /\ List.map u_index (unresolved (importAnalysis mapping data))
     = List.map index
         (List.filter unready (rows (importAnalysis mapping data))).
Proof.
  unfold importAnalysis.
  destruct (forEach_analyseRow data 0 0 [] []) as (new & Heq & Hidx).
  rewrite Heq. simpl.
  assert (Hsplit : length (List.filter isResolved new)
                   + length (List.filter unready new) = length new).
  { clear. induction new as [|e new IH]; simpl; [reflexivity|].
    unfold unready at 1. destruct (isResolved e); simpl; lia. }
  assert (Hlen : length new = length data).
  { rewrite <- (length_map index new), Hidx. apply length_seq. }
  rewrite !length_map.
  repeat split; try assumption; try lia.
  rewrite map_map. reflexivity.
Qed.

End ReadinessAnalyzer.

Section Scenario.
Import JS Types MappingModal Spec Examples.

(** C2: the end-to-end scenario.  Without overrides row 0 resolves to
    "Sony A7C" at 24845 and is resolved; row 1 resolves to the empty name
    at 91199 and is unresolved for "Missing Product Name"; the aggregates
    are total 2, ready 1 and row 1 as the only unresolved row.  With the
    manual override of row 1's name, row 1 is resolved. *)
Theorem end_to_end_scenario :
  List.map
       (fun r => (index r, row r, currentName r, currentCost r, isResolved r))
       (rows (importAnalysis (primary_mapping None) batch))
     = [ (0%nat, row0, "Sony A7C", Fin 24845, true);
         (1%nat, row1, "", Fin 91199, false) ]
  /\ List.map reason
       (List.filter unready (rows (importAnalysis (primary_mapping None) batch)))
     = ["Missing Product Name"]
  /\ total (importAnalysis (primary_mapping None) batch) = 2%nat
  /\ ready (importAnalysis (primary_mapping None) batch) = 1%nat
  /\ List.map (fun u => (u_index u, u_row u, u_currentName u, u_currentCost u,
                         u_reason u))
       (unresolved (importAnalysis (primary_mapping None) batch))
     = [ (1%nat, row1, "", Fin 91199, "Missing Product Name") ]
  /\ List.map
       (fun r => (index r, currentName r, currentCost r, isResolved r))
       (rows (importAnalysis
                (primary_mapping
                   (Some {[ 1%nat := retag_name "Unknown Item" ]})) batch))
     = [ (0%nat, "Sony A7C", Fin 24845, true);
         (1%nat, "Unknown Item", Fin 91199, true) ]
  /\ unresolved (importAnalysis
                   (primary_mapping
                      (Some {[ 1%nat := retag_name "Unknown Item" ]})) batch)
     = [].
Proof. vm_compute. repeat split. Qed.

(** A row with neither a name nor a cost is unresolved for both. *)
Example reason_both_missing :
  getUnresolvedReason "" (Fin 0) = "Missing Product Name and Cost Price".
Proof. reflexivity. Qed.

End Scenario.

(** ** The Header Similarity Scorer *)

Section SimilarityScorer.
Import JS Types GeminiService.
Local Open Scope list_scope.

(** Two lists overlap when some element of the first is in the second. *)
Lemma overlap_positive (A B : list category) :
  (0 <? length (List.filter (fun p => bool_decide (p ∈ B)) A))%nat = true
  <-> exists p, p ∈ A /\ p ∈ B.
Proof.
  rewrite Nat.ltb_lt. split.
  - intros Hlen.
    destruct (List.filter _ A) as [|p l] eqn:Hf; [simpl in Hlen; lia|].
    assert (Hin : In p (List.filter (fun p => bool_decide (p ∈ B)) A))
      by (rewrite Hf; left; reflexivity).
    apply filter_In in Hin as [HA HB].
    exists p. split; [apply list_elem_of_In, HA | exact (bool_decide_eq_true_1 _ HB)].
  - intros (p & HA & HB).
    assert (Hin : In p (List.filter (fun p => bool_decide (p ∈ B)) A)).
    { apply filter_In. split; [apply list_elem_of_In, HA|].
      exact (bool_decide_eq_true_2 _ HB). }
    destruct (List.filter _ A); [destruct Hin | simpl; lia].
Qed.

Lemma overlap_sym (A B : list category) :
  (0 <? length (List.filter (fun p => bool_decide (p ∈ B)) A))%nat
  = (0 <? length (List.filter (fun p => bool_decide (p ∈ A)) B))%nat.
Proof.
  apply Bool.eq_iff_eq_true. rewrite !overlap_positive.
  split; intros (p & H1 & H2); exists p; split; assumption.
Qed.

Lemma count_matches_sym a b n : count_matches a b n = count_matches b a n.
Proof.
  unfold count_matches. f_equal. apply filter_ext. intros i.
  unfold same_char. apply bool_decide_ext. split; intros H; symmetry; exact H.
Qed.

Lemma similarityScore_swap (a b : string) :
  similarityScore a b = similarityScore b a.
Proof.
  unfold similarityScore.
  rewrite (String.eqb_sym (toLowerCase b) (toLowerCase a)).
  destruct (String.eqb (toLowerCase a) (toLowerCase b)); [reflexivity|].
  replace ((test cost b && test srp a) || (test srp b && test cost a))
    with ((test cost a && test srp b) || (test srp a && test cost b))
    by (destruct (test cost a), (test srp b), (test srp a), (test cost b);
        reflexivity).
  destruct ((test cost a && test srp b) || (test srp a && test cost b));
    [reflexivity|].
  rewrite (overlap_sym (matched b) (matched a)).
  destruct (0 <? _)%nat; [reflexivity|].
  rewrite (count_matches_sym (toLowerCase b) (toLowerCase a)).
  rewrite (Nat.min_comm (String.length (toLowerCase b))).
  rewrite (Nat.max_comm (String.length (toLowerCase b))).
  reflexivity.
Qed.

(** C10: the score does not depend on the order of its two arguments. *)
Theorem similarityScore_comm (a b : string) :
  similarityScore a b = similarityScore b a.
Proof. apply similarityScore_swap. Qed.

(** C4: two headers that differ beyond case, one matching the [cost]
    category and the other the [srp] category, score 0.2, whatever other
    categories they share. *)
Theorem similarityScore_anti_match (a b : string) :
  toLowerCase a <> toLowerCase b ->
  (test cost a = true /\ test srp b = true)
  \/ (test srp a = true /\ test cost b = true) ->
  similarityScore a b = 0.2%Q.
Proof.
  intros Hne Hanti. unfold similarityScore.
  destruct (String.eqb_spec (toLowerCase a) (toLowerCase b)) as [Heq|_];
    [contradiction|].
  destruct Hanti as [[-> ->] | [-> ->]]; simpl; [reflexivity|].
  rewrite orb_true_r. reflexivity.
Qed.

Lemma similarityScore_anti_match_witness :
  toLowerCase "Cost Price" <> toLowerCase "SRP Price"
  /\ test cost "Cost Price" = true
  /\ test srp "SRP Price" = true
  /\ test price "Cost Price" = true
  /\ test price "SRP Price" = true
  /\ similarityScore "Cost Price" "SRP Price" = 0.2%Q.
Proof.
  assert (Hne : toLowerCase "Cost Price" <> toLowerCase "SRP Price")
    by (simpl; discriminate).
  split; [exact Hne|].
  do 4 (split; [reflexivity|]).
  apply (similarityScore_anti_match "Cost Price" "SRP Price" Hne).
  left. split; reflexivity.
Defined.

(** The scores quoted by the specification. *)
Example similarityScore_examples :
  similar "Cost Price" "Dealer Price" = true
  /\ similarityScore "Cost Price" "Dealer Price" = 0.9%Q
  /\ similarityScore "Product Name" "product name" = 1.0%Q
  /\ similar "Cost Price" "SRP Price" = false.
Proof. vm_compute. repeat split. Qed.

(** A header scores 1 against itself. *)
Lemma similarityScore_refl (a : string) : similarityScore a a = 1.0%Q.
Proof. unfold similarityScore. rewrite String.eqb_refl. reflexivity. Qed.

End SimilarityScorer.

(** ** Objects and key lists *)

Section Objects.
Import JS.
Local Open Scope list_scope.

Context {A : Type}.
Implicit Types (o : object A) (k : string) (v : A).

Lemma get_None_keys o k : get o k = None <-> k ∉ keys o.
Proof.
  unfold keys. induction o as [|[k' v'] o IH]; simpl.
  - split; [intros _; apply not_elem_of_nil | reflexivity].
  - rewrite not_elem_of_cons.
    destruct (String.eqb_spec k' k) as [->|Hne].
    + split; [discriminate | intros [Hk _]; contradiction].
    + rewrite IH. split; [intros H; split; [congruence | exact H] | intros [_ H]; exact H].
Qed.

Lemma keys_get_Some o k : k ∈ keys o -> exists v, get o k = Some v.
Proof.
  intros Hin. destruct (get o k) as [v|] eqn:Hget; [exists v; reflexivity|].
  apply get_None_keys in Hget. contradiction.
Qed.

(** Case analysis on two keys, as [String.eqb] and [decide] see them. *)
Ltac case_keys k k' :=
  destruct (String.eqb_spec k k') as [->|?];
  rewrite ?decide_True by reflexivity;
  rewrite ?decide_False by congruence.

Lemma get_replace_key o k v k' :
  get o k <> None ->
  get (replace_key k v o) k' = if decide (k = k') then Some v else get o k'.
Proof.
  induction o as [|[k0 v0] o IH]; simpl; [intros H; contradiction|].
  destruct (String.eqb_spec k0 k) as [->|Hne]; simpl.
  - intros _. case_keys k k'; reflexivity.
  - intros Hget. rewrite (IH Hget). case_keys k0 k'; reflexivity.
Qed.

Lemma get_insert_key ik o k v k' :
  get o k = None ->
  get (insert_key ik k v o) k' = if decide (k = k') then Some v else get o k'.
Proof.
  induction o as [|[k0 v0] o IH]; simpl.
  - intros _. case_keys k k'; reflexivity.
  - destruct (String.eqb_spec k0 k) as [->|Hne]; [discriminate|].
    intros Hget.
    match goal with |- context [if ?here then _ else _] =>
      destruct here
    end; simpl.
    + case_keys k k'; reflexivity.
    + rewrite (IH Hget). case_keys k0 k'; reflexivity.
Qed.

(** Reading a property after an assignment. *)
Lemma get_obj_set o k v k' :
  get (obj_set o k v) k' = if decide (k = k') then Some v else get o k'.
Proof.
  unfold obj_set, hasOwnProperty.
  destruct (get o k) as [v0|] eqn:Hget.
  - apply get_replace_key. congruence.
  - apply get_insert_key, Hget.
Qed.

(** A [Map] receives a new key at its end. *)
Lemma map_set_new (m : list (string * A)) k v :
  k ∉ keys m -> map_set m k v = m ++ [(k, v)].
Proof.
  intros Hk. apply get_None_keys in Hk.
  unfold map_set, hasOwnProperty. rewrite Hk. reflexivity.
Qed.

End Objects.

(** ** Array-index keys and the order of an object's properties *)

Section ArrayIndex.
Import JS Spec.
Local Open Scope Z_scope.

Lemma pow10_succ (n : nat) : 10 ^ Z.of_nat (S n) = 10 * 10 ^ Z.of_nat n.
Proof. rewrite Nat2Z.inj_succ, Z.pow_succ_r by lia. reflexivity. Qed.

Lemma digits_value_bound s :
  all_digits s = true -> 0 <= digits_value s < 10 ^ Z.of_nat (String.length s).
Proof.
  induction s as [|c s IH]; simpl all_digits; intros H.
  - simpl. lia.
  - apply andb_true_iff in H as [Hc Hs]. specialize (IH Hs).
    pose proof (is_digit_value c Hc).
    cbn [digits_value String.length]. rewrite pow10_succ. nia.
Qed.

Lemma read_digits_value s : forall acc,
  all_digits s = true ->
  read_digits s acc true
  = Some (acc * 10 ^ Z.of_nat (String.length s) + digits_value s).
Proof.
  induction s as [|c s IH]; intros acc; simpl all_digits; intros H.
  - simpl. f_equal. lia.
  - apply andb_true_iff in H as [Hc Hs].
    cbn [read_digits digits_value String.length]. rewrite Hc, (IH _ Hs).
    rewrite pow10_succ. f_equal. lia.
Qed.

Lemma digit_value_inj c c' :
  digit_value c = digit_value c' -> c = c'.
Proof.
  unfold digit_value. intros H.
  assert (HN : N_of_ascii c = N_of_ascii c') by lia.
  rewrite <- (ascii_N_embedding c), <- (ascii_N_embedding c'), HN.
  reflexivity.
Qed.

Lemma digits_value_inj s : forall s',
  all_digits s = true -> all_digits s' = true ->
  String.length s = String.length s' ->
  digits_value s = digits_value s' -> s = s'.
Proof.
  induction s as [|c s IH]; intros [|c' s']; simpl all_digits;
    intros H H' Hlen Hval; try discriminate Hlen; [reflexivity|].
  apply andb_true_iff in H as [Hc Hs]. apply andb_true_iff in H' as [Hc' Hs'].
  injection Hlen as Hlen. cbn [digits_value] in Hval. rewrite <- Hlen in Hval.
  pose proof (digits_value_bound s Hs). pose proof (digits_value_bound s' Hs').
  rewrite <- Hlen in *.
  pose proof (is_digit_value c Hc). pose proof (is_digit_value c' Hc').
  assert (digit_value c = digit_value c') by nia.
  f_equal; [apply digit_value_inj; assumption|].
  apply IH; try assumption. nia.
Qed.

(** What [array_index] accepts. *)
Lemma array_index_Some k n :
  array_index k = Some n ->
  exists c rest,
    k = String c rest /\ all_digits k = true
    /\ (c = "0"%char -> rest = "") /\ n = digits_value k.
Proof.
  unfold array_index. destruct k as [|c rest]; [discriminate|].
  destruct (all_digits (String c rest)) eqn:Hd; [|discriminate].
  destruct (negb (Ascii.eqb c "0") || is_empty rest) eqn:Hz; [|discriminate].
  simpl andb. cbv iota.
  pose proof Hd as Hd'. simpl all_digits in Hd'.
  apply andb_true_iff in Hd' as [Hc Hrest].
  cbn [read_digits]. rewrite Hc, (read_digits_value rest _ Hrest).
  destruct (_ <? _); [|discriminate]. intros [= <-].
  exists c, rest. split; [reflexivity|]. split; [reflexivity|]. split.
  - intros ->. simpl in Hz. destruct rest; [reflexivity | discriminate].
  - cbn [digits_value]. lia.
Qed.

Lemma leading_digit c rest :
  all_digits (String c rest) = true -> c <> "0"%char ->
  10 ^ Z.of_nat (String.length rest) <= digits_value (String c rest).
Proof.
  simpl all_digits. intros H Hc. apply andb_true_iff in H as [Hd Hrest].
  pose proof (digits_value_bound rest Hrest).
  pose proof (is_digit_value c Hd).
  assert (digit_value c <> 0).
  { intros Hzero. apply Hc. apply digit_value_inj. rewrite Hzero. reflexivity. }
  cbn [digits_value]. nia.
Qed.

(** Distinct array-index keys have distinct indices. *)
Lemma array_index_inj k k' n :
  array_index k = Some n -> array_index k' = Some n -> k = k'.
Proof.
  intros Hk Hk'.
  apply array_index_Some in Hk as (c & rest & -> & Hd & Hz & Hn).
  apply array_index_Some in Hk' as (c' & rest' & -> & Hd' & Hz' & Hn').
  pose proof (digits_value_bound _ Hd) as Hb.
  pose proof (digits_value_bound _ Hd') as Hb'.
  cbn [String.length] in Hb, Hb'. rewrite pow10_succ in Hb, Hb'.
  destruct (decide (c = "0"%char)) as [Hc|Hc];
    destruct (decide (c' = "0"%char)) as [Hc'|Hc'].
  - rewrite (Hz Hc), (Hz' Hc'), Hc, Hc'. reflexivity.
  - exfalso. pose proof (leading_digit c' rest' Hd' Hc').
    rewrite (Hz Hc), Hc in Hn. change (digits_value "0") with 0 in Hn.
    assert (0 < 10 ^ Z.of_nat (String.length rest'))
      by (apply Z.pow_pos_nonneg; lia).
    lia.
  - exfalso. pose proof (leading_digit c rest Hd Hc).
    rewrite (Hz' Hc'), Hc' in Hn'. change (digits_value "0") with 0 in Hn'.
    assert (0 < 10 ^ Z.of_nat (String.length rest))
      by (apply Z.pow_pos_nonneg; lia).
    lia.
  - pose proof (leading_digit c rest Hd Hc).
    pose proof (leading_digit c' rest' Hd' Hc').
    apply digits_value_inj; try assumption; [|congruence].
    cbn [String.length]. f_equal.
    destruct (Nat.lt_trichotomy (String.length rest) (String.length rest'))
      as [Hlt|[Heq|Hgt]]; [exfalso | exact Heq | exfalso].
    + assert (10 * 10 ^ Z.of_nat (String.length rest)
              <= 10 ^ Z.of_nat (String.length rest')).
      { rewrite <- pow10_succ. apply Z.pow_le_mono_r; lia. }
      lia.
    + assert (10 * 10 ^ Z.of_nat (String.length rest')
              <= 10 ^ Z.of_nat (String.length rest)).
      { rewrite <- pow10_succ. apply Z.pow_le_mono_r; lia. }
      lia.
Qed.

End ArrayIndex.

Section Build.
Import JS Spec.
Local Open Scope list_scope.

Context {A : Type}.
Implicit Types (o I N : object A) (b : string * A).

Lemma insert_key_last k v o :
  insert_key None k v o = o ++ [(k, v)].
Proof.
  induction o as [|[k' v'] o IH]; simpl; [reflexivity|].
  rewrite IH. reflexivity.
Qed.

Lemma index_lt_trans b1 b2 b3 :
  index_lt b1 b2 -> index_lt b2 b3 -> index_lt b1 b3.
Proof.
  unfold index_lt.
  destruct (array_index b1.1), (array_index b2.1), (array_index b3.1);
    try tauto. lia.
Qed.

Lemma index_lt_irrefl b : ~ index_lt b b.
Proof. unfold index_lt. destruct (array_index b.1); [lia | tauto]. Qed.

(** An array-index key enters a sorted object at its place. *)
Lemma insert_key_sorted k v n I : forall N,
  array_index k = Some n ->
  StronglySorted index_lt I ->
  Forall (fun b => is_index b.1 = true) I ->
  Forall (fun b => is_index b.1 = false) N ->
  (forall b, b ∈ I -> array_index b.1 <> Some n) ->
  exists I1 I2,
    I = I1 ++ I2
    /\ insert_key (Some n) k v (I ++ N) = I1 ++ (k, v) :: I2 ++ N
    /\ StronglySorted index_lt (I1 ++ (k, v) :: I2).
Proof.
  intros N Hk. induction I as [|[k' v'] I IH]; intros Hsorted Hidx Hnon Hfresh.
  - exists [], []. split; [reflexivity|]. split.
    + destruct N as [|[k' v'] N]; simpl; [reflexivity|].
      apply Forall_cons in Hnon as [Hk' _]. unfold is_index in Hk'. simpl in Hk'.
      destruct (array_index k'); [discriminate | reflexivity].
    + repeat constructor.
  - apply StronglySorted_inv in Hsorted as [Hsorted Hall].
    apply Forall_cons in Hidx as [Hk' Hidx].
    unfold is_index in Hk'. simpl in Hk'.
    destruct (array_index k') as [n'|] eqn:Hn'; [|discriminate].
    assert (Hne : n' <> n).
    { intros ->. apply (Hfresh (k', v')); [left | exact Hn']. }
    simpl. rewrite Hn'.
    destruct (Z.ltb_spec n n') as [Hlt|Hge].
    + exists [], ((k', v') :: I). split; [reflexivity|]. split; [reflexivity|].
      simpl. constructor; [constructor; assumption|].
      assert (Hfirst : index_lt (k, v) (k', v')).
      { unfold index_lt. simpl. rewrite Hk, Hn'. exact Hlt. }
      constructor; [exact Hfirst|].
      eapply Forall_impl; [exact Hall|].
      intros b Hb. eapply index_lt_trans; eassumption.
    + destruct IH as (I1 & I2 & -> & Hins & Hs); [assumption..| |].
      { intros b Hb. apply Hfresh. right. exact Hb. }
      exists ((k', v') :: I1), I2. split; [reflexivity|].
      split; [simpl; rewrite Hins; reflexivity|].
      simpl. constructor; [exact Hs|].
      apply Forall_app in Hall as [H1 H2].
      apply Forall_app. split; [exact H1|]. constructor; [|exact H2].
      unfold index_lt. simpl. rewrite Hk, Hn'. lia.
Qed.

Lemma keys_app o1 o2 : keys (o1 ++ o2) = keys o1 ++ keys o2.
Proof. unfold keys. apply fmap_app. Qed.

Lemma build_snoc (bindings : list (string * A)) b :
  build (bindings ++ [b]) = obj_set (build bindings) b.1 b.2.
Proof. unfold build. rewrite fold_left_app. reflexivity. Qed.

(** The shape of a built object: the array-index properties in ascending
    order, then the others in the order of their assignment. *)
Lemma build_shape (bindings : list (string * A)) :
  NoDup bindings.*1 ->
  exists I,
    build bindings
    = I ++ List.filter (fun b => negb (is_index b.1)) bindings
    /\ StronglySorted index_lt I
    /\ (forall b, b ∈ I <-> b ∈ bindings /\ is_index b.1 = true).
Proof.
  induction bindings as [|[k v] bindings IH] using rev_ind; intros Hnd.
  - exists []. split; [reflexivity|]. split; [constructor|].
    intros b. split; [intros H; inversion H | intros [H _]; inversion H].
  - rewrite fmap_app in Hnd. apply NoDup_app in Hnd as (Hnd & Hdisj & _).
    destruct (IH Hnd) as (I & Hbuild & Hsorted & HI).
    rewrite build_snoc, List.filter_app.
    cbn [List.filter fst snd].
    assert (Hfresh : k ∉ keys (build bindings)).
    { rewrite Hbuild, keys_app. intros Hin.
      apply elem_of_app in Hin as [Hin|Hin];
        apply list_elem_of_fmap in Hin as ([k0 v0] & Hk0 & Hb); simpl in Hk0;
        subst k0.
      - apply HI in Hb as [Hb _].
        apply (Hdisj k); [|left].
        apply list_elem_of_fmap. exists (k, v0). split; [reflexivity | exact Hb].
      - apply list_elem_of_In, filter_In in Hb as [Hb _].
        apply (Hdisj k); [|left].
        apply list_elem_of_fmap. exists (k, v0).
        split; [reflexivity | apply list_elem_of_In, Hb]. }
    unfold obj_set, hasOwnProperty.
    rewrite (proj2 (get_None_keys _ _) Hfresh). rewrite Hbuild.
    destruct (array_index k) as [n|] eqn:Hk.
    + assert (Hi : is_index k = true)
        by (unfold is_index; rewrite Hk; reflexivity).
      rewrite Hi. cbn [negb].
      destruct (insert_key_sorted k v n I
                  (List.filter (fun b => negb (is_index b.1)) bindings) Hk Hsorted)
        as (I1 & I2 & HI12 & Hins & Hs).
      * apply Forall_forall. intros b Hb. apply HI in Hb as [_ Hb]. exact Hb.
      * apply Forall_forall. intros b Hb.
        apply list_elem_of_In, filter_In in Hb as [_ Hb].
        apply negb_true_iff, Hb.
      * intros [k0 v0] Hb Hk0. simpl in Hk0.
        assert (k0 = k) by (eapply array_index_inj; eassumption). subst k0.
        apply HI in Hb as [Hb _]. apply (Hdisj k); [|left].
        apply list_elem_of_fmap. exists (k, v0). split; [reflexivity | exact Hb].
      * exists (I1 ++ (k, v) :: I2). rewrite Hins, app_nil_r, <- app_assoc.
        split; [reflexivity|]. split; [exact Hs|].
        subst I. intros b. split.
        -- intros Hb. apply elem_of_app in Hb as [H1|Hb];
             [|apply elem_of_cons in Hb as [->|H2]].
           ++ destruct (proj1 (HI b)) as [Hb Hi'];
                [apply elem_of_app; left; exact H1|].
              split; [apply elem_of_app; left; exact Hb | exact Hi'].
           ++ split; [apply elem_of_app; right; left | exact Hi].
           ++ destruct (proj1 (HI b)) as [Hb Hi'];
                [apply elem_of_app; right; exact H2|].
              split; [apply elem_of_app; left; exact Hb | exact Hi'].
        -- intros [Hb Hi']. apply elem_of_app in Hb as [Hb|Hb].
           ++ pose proof (proj2 (HI b) (conj Hb Hi')) as Hb'. clear Hb.
              apply elem_of_app in Hb' as [Hb|Hb];
                apply elem_of_app; [left | right; right]; exact Hb.
           ++ apply list_elem_of_singleton in Hb as ->.
              apply elem_of_app. right. left.
    + assert (Hi : is_index k = false)
        by (unfold is_index; rewrite Hk; reflexivity).
      rewrite Hi. cbn [negb].
      rewrite insert_key_last, <- app_assoc.
      exists I. split; [reflexivity|]. split; [exact Hsorted|].
      intros b. rewrite HI, elem_of_app, list_elem_of_singleton. split.
      * intros [Hb Hi']. tauto.
      * intros [[Hb| ->] Hi']; [tauto|].
        simpl in Hi'. congruence.
Qed.

Lemma index_sorted_NoDup I : StronglySorted index_lt I -> NoDup I.
Proof.
  induction 1 as [|b I _ IH Hall]; constructor; [|exact IH].
  intros Hin. rewrite Forall_forall in Hall.
  exact (index_lt_irrefl b (Hall b Hin)).
Qed.

(** Two assignment sequences with the same bindings, whose other than
    array-index bindings come in the same order, build the same object. *)
Lemma build_unique (bs1 bs2 : list (string * A)) :
  NoDup bs1.*1 -> NoDup bs2.*1 ->
  (forall b, b ∈ bs1 <-> b ∈ bs2) ->
  List.filter (fun b => negb (is_index b.1)) bs1
  = List.filter (fun b => negb (is_index b.1)) bs2 ->
  build bs1 = build bs2.
Proof.
  intros Hnd1 Hnd2 Hsame Hrest.
  destruct (build_shape bs1 Hnd1) as (I1 & -> & Hs1 & HI1).
  destruct (build_shape bs2 Hnd2) as (I2 & -> & Hs2 & HI2).
  rewrite Hrest. f_equal.
  apply (StronglySorted_unique_strong index_lt); [|assumption..|].
  - intros b1 b2 _ _ H12 H21. exfalso.
    exact (index_lt_irrefl b1 (index_lt_trans _ _ _ H12 H21)).
  - apply NoDup_Permutation; [apply index_sorted_NoDup; assumption..|].
    intros b. rewrite HI1, HI2, Hsame. reflexivity.
Qed.

End Build.

Section KeyLists.
Import JS.
Local Open Scope list_scope.

Lemma elem_of_uniq_from l : forall seen k,
  k ∈ uniq_from seen l <-> k ∈ l /\ k ∉ seen.
Proof.
  induction l as [|x l IH]; intros seen k; simpl.
  - split; [intros H; inversion H | intros [H _]; inversion H].
  - destruct (decide (x ∈ seen)) as [Hx|Hx].
    + rewrite IH, elem_of_cons. split; [tauto|].
      intros [[->|Hl] Hs]; [contradiction | tauto].
    + rewrite elem_of_cons, IH, elem_of_cons, not_elem_of_union,
        not_elem_of_singleton.
      split.
      * intros [->|[Hl [_ Hs]]]; tauto.
      * intros [[->|Hl] Hs]; [tauto|].
        destruct (decide (k = x)) as [->|Hne]; tauto.
Qed.

Lemma NoDup_uniq_from l : forall seen, NoDup (uniq_from seen l).
Proof.
  induction l as [|x l IH]; intros seen; simpl; [constructor|].
  destruct (decide (x ∈ seen)); [apply IH|].
  constructor; [|apply IH].
  rewrite elem_of_uniq_from, not_elem_of_union, not_elem_of_singleton. tauto.
Qed.

Lemma elem_of_uniq l k : k ∈ uniq l <-> k ∈ l.
Proof.
  unfold uniq. rewrite elem_of_uniq_from. split; [tauto|].
  intros H. split; [exact H | apply not_elem_of_empty].
Qed.

Lemma NoDup_uniq l : NoDup (uniq l).
Proof. apply NoDup_uniq_from. Qed.

End KeyLists.

(** ** First-seen order *)

Section FirstSeen.
Import JS.
Local Open Scope list_scope.

Implicit Types (l : list string) (seen : gset string).

Lemma uniq_from_app l1 : forall seen l2,
  uniq_from seen (l1 ++ l2)
  = uniq_from seen l1 ++ uniq_from (list_to_set l1 ∪ seen) l2.
Proof.
  induction l1 as [|x l1 IH]; intros seen l2; simpl.
  - rewrite (left_id_L ∅ (∪)). reflexivity.
  - destruct (decide (x ∈ seen)) as [Hx|Hx].
    + rewrite IH. f_equal. f_equal. apply set_eq. intros k.
      rewrite !elem_of_union, elem_of_singleton. split; [tauto|].
      intros [[->|H]|H]; tauto.
    + simpl. rewrite IH. f_equal. f_equal. f_equal. apply set_eq. intros k.
      rewrite !elem_of_union, elem_of_singleton. tauto.
Qed.

(** Filtering commutes with the removal of duplicates. *)
Lemma filter_uniq_from (f : string -> bool) l : forall seen seen',
  (forall x, f x = true -> x ∈ seen <-> x ∈ seen') ->
  List.filter f (uniq_from seen l) = uniq_from seen' (List.filter f l).
Proof.
  induction l as [|x l IH]; intros seen seen' Hagree; simpl; [reflexivity|].
  destruct (f x) eqn:Hfx.
  - simpl. destruct (decide (x ∈ seen)) as [Hx|Hx].
    + rewrite decide_True by (apply Hagree; assumption). apply IH, Hagree.
    + rewrite decide_False by (rewrite <- Hagree; assumption).
      simpl. rewrite Hfx. f_equal. apply IH. intros y Hy.
      rewrite !elem_of_union, (Hagree y Hy). reflexivity.
  - destruct (decide (x ∈ seen)) as [Hx|Hx]; [apply IH, Hagree|].
    simpl. rewrite Hfx. apply IH. intros y Hy.
    rewrite elem_of_union, elem_of_singleton, <- (Hagree y Hy).
    split; [|tauto]. intros [->|H]; [congruence | exact H].
Qed.

Lemma filter_uniq (f : string -> bool) l :
  List.filter f (uniq l) = uniq (List.filter f l).
Proof. apply filter_uniq_from. reflexivity. Qed.

(** On a duplicate-free list, the removal of duplicates only drops the keys
    seen before. *)
Lemma uniq_from_NoDup l : forall seen,
  NoDup l ->
  uniq_from seen l = List.filter (fun k => bool_decide (k ∉ seen)) l.
Proof.
  induction l as [|x l IH]; intros seen Hnd; simpl; [reflexivity|].
  apply NoDup_cons in Hnd as [Hx Hnd].
  destruct (decide (x ∈ seen)) as [Hs|Hs].
  - rewrite bool_decide_eq_false_2 by tauto. apply IH, Hnd.
  - rewrite bool_decide_eq_true_2 by exact Hs. f_equal.
    rewrite (IH _ Hnd). apply filter_ext_in. intros k Hk.
    apply bool_decide_ext. rewrite not_elem_of_union, not_elem_of_singleton.
    split; [tauto|]. intros Hks. split; [|exact Hks].
    intros ->. apply Hx, list_elem_of_In, Hk.
Qed.

Lemma filter_all {B} (f : B -> bool) (l : list B) :
  (forall x, x ∈ l -> f x = true) -> List.filter f l = l.
Proof.
  induction l as [|x l IH]; intros H; simpl; [reflexivity|].
  rewrite (H x) by left. f_equal. apply IH. intros y Hy. apply H. right. exact Hy.
Qed.

Lemma filter_none {B} (f : B -> bool) (l : list B) :
  (forall x, x ∈ l -> f x = false) -> List.filter f l = [].
Proof.
  induction l as [|x l IH]; intros H; simpl; [reflexivity|].
  rewrite (H x) by left. apply IH. intros y Hy. apply H. right. exact Hy.
Qed.

Lemma elem_of_filter {B} (f : B -> bool) (l : list B) x :
  x ∈ List.filter f l <-> x ∈ l /\ f x = true.
Proof. rewrite !list_elem_of_In. apply filter_In. Qed.

Lemma filter_concat {B} (f : B -> bool) (ls : list (list B)) :
  List.filter f (List.concat ls) = List.concat (List.map (List.filter f) ls).
Proof.
  induction ls as [|l ls IH]; simpl; [reflexivity|].
  rewrite List.filter_app, IH. reflexivity.
Qed.

Section Rows.
Context {R : Type}.
Variable input : R -> list string.
Variable emitted : R -> string -> bool.
Variable q : string -> bool.

(** The first-seen order of the emitted keys is that of the input keys:
    when each row emits, of the selected keys, those it holds, and none
    that was not seen up to that row, the emitted keys come out in the
    order in which the input keys came in. *)
Lemma first_seen_emitted (selected : list string) : forall rows before,
  NoDup before ->
  selected
  = List.filter q
      (before ++ uniq_from (list_to_set before)
                   (List.concat (List.map input rows))) ->
  (forall r c, r ∈ rows -> q c = true -> c ∈ input r -> emitted r c = true) ->
  (forall rs1 r rs2 c,
     rows = rs1 ++ r :: rs2 -> q c = true -> emitted r c = true ->
     c ∈ before \/ c ∈ List.concat (List.map input rs1) \/ c ∈ input r) ->
  uniq_from (list_to_set (List.filter q before))
    (List.concat (List.map (fun r => List.filter (emitted r) selected) rows))
  = List.filter q
      (uniq_from (list_to_set before) (List.concat (List.map input rows))).
Proof.
  induction rows as [|r rows IH]; intros before Hnd Hsel Hholds Hseen;
    [reflexivity|].
  cbn [List.map List.concat] in *.
  rewrite uniq_from_app in Hsel |- *.
  set (A := uniq_from (list_to_set before) (input r)) in *.
  set (B := uniq_from (list_to_set (input r) ∪ list_to_set before)
              (List.concat (List.map input rows))) in *.
  assert (HA : forall c, c ∈ A <-> c ∈ input r /\ (c ∉ before)).
  { intros c. unfold A. rewrite elem_of_uniq_from, elem_of_list_to_set.
    reflexivity. }
  assert (HB : forall c, c ∈ B -> (c ∉ input r) /\ (c ∉ before)).
  { intros c. unfold B. rewrite elem_of_uniq_from, not_elem_of_union,
      !elem_of_list_to_set. tauto. }
  assert (HndA : NoDup (before ++ A)).
  { apply NoDup_app. split; [exact Hnd|]. split; [|apply NoDup_uniq_from].
    intros c Hc Hc'. apply HA in Hc'. tauto. }
  assert (HndAB : NoDup (before ++ A ++ B)).
  { apply NoDup_app. split; [exact Hnd|]. split.
    - intros c Hc Hc'. apply elem_of_app in Hc' as [Hc'|Hc'].
      + apply HA in Hc'. tauto.
      + apply HB in Hc'. tauto.
    - apply NoDup_app. split; [apply NoDup_uniq_from|].
      split; [|apply NoDup_uniq_from].
      intros c Hc Hc'. apply HA in Hc. apply HB in Hc'. tauto. }
  assert (Hsel3 : selected
            = List.filter q before ++ List.filter q A ++ List.filter q B).
  { rewrite Hsel, !List.filter_app. reflexivity. }
  assert (HndS : NoDup selected).
  { rewrite Hsel. apply NoDup_ListNoDup, List.NoDup_filter, NoDup_ListNoDup.
    exact HndAB. }
  assert (HemB : forall c, c ∈ B -> q c = true -> emitted r c = false).
  { intros c Hc Hqc. destruct (emitted r c) eqn:Hem; [|reflexivity].
    apply HB in Hc as [Hc1 Hc2].
    destruct (Hseen [] r rows c eq_refl Hqc Hem) as [H|[H|H]];
      [contradiction | inversion H | contradiction]. }
  assert (HemA : forall c, c ∈ A -> q c = true -> emitted r c = true).
  { intros c Hc Hqc. apply HA in Hc as [Hc _].
    apply (Hholds r c); [left | exact Hqc | exact Hc]. }
  rewrite uniq_from_app, List.filter_app.
  assert (Hfirst : uniq_from (list_to_set (List.filter q before))
                     (List.filter (emitted r) selected)
                   = List.filter q A).
  { rewrite uniq_from_NoDup
      by (apply NoDup_ListNoDup, List.NoDup_filter, NoDup_ListNoDup, HndS).
    rewrite Hsel3, !List.filter_app.
    rewrite (filter_none _ (List.filter (emitted r) (List.filter q before))).
    2:{ intros c Hc. apply elem_of_filter in Hc as [Hc _].
        apply bool_decide_eq_false_2. intros Hout.
        apply Hout, elem_of_list_to_set, Hc. }
    rewrite (filter_none (emitted r) (List.filter q B)).
    2:{ intros c Hc. apply elem_of_filter in Hc as [Hc Hqc].
        apply HemB; assumption. }
    rewrite (filter_all (emitted r) (List.filter q A)).
    2:{ intros c Hc. apply elem_of_filter in Hc as [Hc Hqc].
        apply HemA; assumption. }
    simpl. rewrite app_nil_r. apply filter_all.
    intros c Hc. apply elem_of_filter in Hc as [Hc _].
    apply bool_decide_eq_true_2.
    rewrite elem_of_list_to_set, elem_of_filter.
    apply HA in Hc. tauto. }
  rewrite Hfirst. f_equal.
  assert (Hset1 : (list_to_set (List.filter (emitted r) selected)
                   ∪ list_to_set (List.filter q before) : gset string)
                  = list_to_set (List.filter q (before ++ A))).
  { apply set_eq. intros c.
    rewrite elem_of_union, !elem_of_list_to_set, !elem_of_filter,
      elem_of_app, Hsel3, !elem_of_app, !elem_of_filter.
    split.
    - intros [[[H|[H|[H1 H2]]] Hem]|H]; try tauto.
      rewrite (HemB c H1 H2) in Hem. discriminate Hem.
    - intros [[H|H] Hqc]; [tauto|].
      left. split; [tauto | apply HemA; assumption]. }
  assert (Hset2 : (list_to_set (input r) ∪ list_to_set before : gset string)
                  = list_to_set (before ++ A)).
  { apply set_eq. intros c.
    rewrite elem_of_union, !elem_of_list_to_set, elem_of_app, HA.
    destruct (decide (c ∈ before)); tauto. }
  rewrite Hset1. unfold B. rewrite Hset2.
  apply (IH (before ++ A) HndA).
  - rewrite Hsel. unfold B. rewrite Hset2, <- app_assoc. reflexivity.
  - intros r0 c Hr0. apply Hholds. right. exact Hr0.
  - intros rs1 r0 rs2 c Hrows Hqc Hem.
    destruct (Hseen (r :: rs1) r0 rs2 c) as [H|[H|H]];
      [rewrite Hrows; reflexivity | exact Hqc | exact Hem | | |].
    + left. apply elem_of_app. left. exact H.
    + cbn [List.map List.concat] in H. apply elem_of_app in H as [H|H].
      * left. apply elem_of_app.
        destruct (decide (c ∈ before)); [left; assumption|].
        right. apply HA. tauto.
      * right. left. exact H.
    + right. right. exact H.
Qed.

End Rows.
End FirstSeen.

(** ** The Column Harmonizer: rewriting a row *)

Section NormalizeRow.
Import JS Types GeminiService Spec.
Local Open Scope list_scope.

Variable row : RawExtractionItem.

Lemma get_copy_group normalized g k :
  get (copy_group row normalized g) k =
  match first_variant row (snd g) with
  | Some v => if decide (fst g = k) then Some v else get normalized k
  | None => get normalized k
  end.
Proof.
  unfold copy_group. destruct (first_variant row (snd g)); [|reflexivity].
  apply get_obj_set.
Qed.

(** A key that is no canonical key is left as it was. *)
Lemma get_fold_copy_other groups : forall normalized k,
  k ∉ canonical_keys groups ->
  get (fold_left (copy_group row) groups normalized) k = get normalized k.
Proof.
  induction groups as [|g groups IH]; intros normalized k Hk; simpl;
    [reflexivity|].
  unfold canonical_keys in Hk. simpl in Hk. apply not_elem_of_cons in Hk as [Hg Hk].
  rewrite IH by exact Hk. rewrite get_copy_group.
  destruct (first_variant row (snd g)); [|reflexivity].
  rewrite decide_False by congruence. reflexivity.
Qed.

(** A canonical key receives the cell of the first variant the row owns. *)
Lemma get_fold_copy_canonical groups : forall normalized c vs,
  NoDup (canonical_keys groups) ->
  (c, vs) ∈ groups ->
  get (fold_left (copy_group row) groups normalized) c =
  match first_variant row vs with
  | Some v => Some v
  | None => get normalized c
  end.
Proof.
  induction groups as [|g groups IH]; intros normalized c vs Hnd Hin;
    [inversion Hin|].
  unfold canonical_keys in Hnd. simpl in Hnd.
  apply NoDup_cons in Hnd as [Hg Hnd].
  simpl. apply elem_of_cons in Hin as [<-|Hin].
  - rewrite get_fold_copy_other by exact Hg.
    rewrite get_copy_group. simpl.
    destruct (first_variant row vs); [|reflexivity].
    rewrite decide_True by reflexivity. reflexivity.
  - rewrite (IH _ c vs Hnd Hin). rewrite get_copy_group.
    assert (Hne : fst g <> c).
    { intros <-. apply Hg. change (fst g) with (fst (fst g, vs)).
      apply list_elem_of_fmap_2, Hin. }
    destruct (first_variant row vs); [reflexivity|].
    destruct (first_variant row (snd g)); [|reflexivity].
    rewrite decide_False by exact Hne. reflexivity.
Qed.

Lemma keys_normalizeRow groups k :
  k ∈ keys (normalizeRow groups row) -> k ∈ canonical_keys groups.
Proof.
  intros Hk. destruct (decide (k ∈ canonical_keys groups)) as [Hin|Hout];
    [exact Hin|].
  apply keys_get_Some in Hk as [v Hv]. unfold normalizeRow in Hv.
  rewrite get_fold_copy_other in Hv by exact Hout. discriminate Hv.
Qed.

Lemma first_variant_singleton k : first_variant row [k] = get row k.
Proof. simpl. destruct (get row k); reflexivity. Qed.

End NormalizeRow.

(** ** The Column Harmonizer: grouping the headers *)

Section Grouping.
Import JS Types GeminiService Spec.
Local Open Scope list_scope.

Lemma similar_comm a b : similar a b = similar b a.
Proof. unfold similar. rewrite similarityScore_swap. reflexivity. Qed.

(** The scan of the candidates for the group of [key]: the keys it adds are
    distinct keys of the scanned list, unassigned before and similar to
    [key]; every scanned key left unassigned is not similar to [key]. *)
Lemma scan_spec key l : forall group assigned,
  exists added,
    fold_left (scan key) l (group, assigned)
    = (group ++ added, list_to_set added ∪ assigned)
    /\ NoDup added
    /\ (forall o, o ∈ added ->
          o ∈ l /\ (o ∉ assigned) /\ similar key o = true)
    /\ (forall o, o ∈ l -> o ∉ (list_to_set added ∪ assigned : gset string) ->
          similar key o = false).
Proof.
  induction l as [|x l IH]; intros group assigned.
  - exists []. simpl. rewrite app_nil_r, (left_id_L ∅ (∪)).
    repeat split; [constructor | inversion H | inversion H | inversion H |].
    intros o Ho. inversion Ho.
  - cbn [fold_left]. unfold scan at 2.
    destruct (decide (x ∈ assigned)) as [Hx|Hx];
      [|destruct (similar key x) eqn:Hsim].
    + destruct (IH group assigned) as (added & Heq & Hnd & Hadd & Hrest).
      exists added. split; [exact Heq|]. split; [exact Hnd|]. split.
      * intros o Ho. destruct (Hadd o Ho) as (H1 & H2 & H3).
        repeat split; [right; exact H1 | exact H2 | exact H3].
      * intros o Ho Hout. apply elem_of_cons in Ho as [->|Ho].
        -- exfalso. apply Hout, elem_of_union. right. exact Hx.
        -- apply Hrest; assumption.
    + destruct (IH (group ++ [x]) ({[x]} ∪ assigned))
        as (added & Heq & Hnd & Hadd & Hrest).
      exists (x :: added). split; [|split; [|split]].
      * rewrite Heq, <- app_assoc. simpl. f_equal.
        apply set_eq. intros k.
        rewrite !elem_of_union, elem_of_singleton. tauto.
      * constructor; [|exact Hnd]. intros Hin.
        destruct (Hadd x Hin) as (_ & Hout & _).
        apply Hout, elem_of_union. left. apply elem_of_singleton. reflexivity.
      * intros o Ho. apply elem_of_cons in Ho as [->|Ho].
        -- repeat split; [left | exact Hx | exact Hsim].
        -- destruct (Hadd o Ho) as (H1 & H2 & H3).
           repeat split; [right; exact H1 | | exact H3].
           intros Ha. apply H2, elem_of_union. right. exact Ha.
      * intros o Ho Hout. apply elem_of_cons in Ho as [->|Ho].
        -- exfalso. apply Hout. simpl.
           apply elem_of_union. left. apply elem_of_union. left.
           apply elem_of_singleton. reflexivity.
        -- apply Hrest; [exact Ho|]. intros Hin. apply Hout. simpl.
           revert Hin. rewrite !elem_of_union, elem_of_singleton. tauto.
    + destruct (IH group assigned) as (added & Heq & Hnd & Hadd & Hrest).
      exists added. split; [exact Heq|]. split; [exact Hnd|]. split.
      * intros o Ho. destruct (Hadd o Ho) as (H1 & H2 & H3).
        repeat split; [right; exact H1 | exact H2 | exact H3].
      * intros o Ho Hout. apply elem_of_cons in Ho as [->|Ho].
        -- exact Hsim.
        -- apply Hrest; assumption.
Qed.

Lemma members_snoc groups c vs :
  members (groups ++ [(c, vs)]) = members groups ++ vs.
Proof.
  unfold members. rewrite map_app, concat_app. simpl.
  rewrite app_nil_r. reflexivity.
Qed.

Lemma canonical_keys_snoc groups c vs :
  canonical_keys (groups ++ [(c, vs)]) = canonical_keys groups ++ [c].
Proof. unfold canonical_keys. rewrite map_app. reflexivity. Qed.

Lemma canonical_is_member groups c vs :
  (forall c vs, (c, vs) ∈ groups -> exists rest, vs = c :: rest) ->
  (c, vs) ∈ groups -> c ∈ members groups.
Proof.
  intros Hhead Hin. unfold members.
  apply list_elem_of_In, in_concat. exists vs. split.
  - apply in_map_iff. exists (c, vs). split; [reflexivity|].
    apply list_elem_of_In, Hin.
  - destruct (Hhead c vs Hin) as [rest ->]. left. reflexivity.
Qed.

Lemma grouped_start all : grouped all [] ([], ∅).
Proof.
  split; simpl; try (intros; match goal with H : _ ∈ [] |- _ => inversion H end).
  - intros k. split; intros H; [apply not_elem_of_empty in H; contradiction | inversion H].
  - constructor.
  - intros k H. inversion H.
  - reflexivity.
Qed.

(** Visiting one more key keeps the invariant. *)
Lemma grouped_step all done key rest st :
  NoDup all ->
  all = done ++ key :: rest ->
  grouped all done st ->
  grouped all (done ++ [key]) (open_group all st key).
Proof.
  intros Hnd Hall [Hasg Hmem Hhead Hdone Hkeys Hapart Hdis Hfirst Hvis Hord].
  destruct st as [groups assigned]. simpl in *.
  assert (Hkey_all : key ∈ all).
  { rewrite Hall. apply elem_of_app. right. left. }
  assert (Hkey_new : key ∉ done).
  { rewrite Hall in Hnd. apply NoDup_app in Hnd as (_ & Hdisj & _).
    intros Hk. apply (Hdisj key Hk). left. }
  unfold open_group.
  destruct (decide (key ∈ assigned)) as [Hin|Hout].
  { split; simpl; try assumption.
    - intros k Hk. apply elem_of_app in Hk as [Hk|Hk]; [apply Hdone, Hk|].
      apply list_elem_of_singleton in Hk as ->. exact Hin.
    - intros c Hc. apply elem_of_app. left. apply Hvis, Hc.
    - rewrite List.filter_app. simpl.
      rewrite bool_decide_eq_false_2
        by (intros Hc; apply Hkey_new, Hvis, Hc).
      rewrite app_nil_r. exact Hord. }
  destruct (scan_spec key all [key] ({[key]} ∪ assigned))
    as (added & Heq & Hnda & Hadd & Hrest).
  rewrite Heq.
  assert (Hnew : key ∉ keys groups).
  { intros Hk. apply list_elem_of_fmap in Hk as ([c vs] & -> & Hg). simpl in *.
    apply Hout, Hasg. eapply canonical_is_member; eassumption. }
  rewrite (map_set_new groups key _ Hnew).
  assert (Hadded_out : forall o, o ∈ added -> o <> key /\ o ∉ assigned).
  { intros o Ho. destruct (Hadd o Ho) as (_ & Ho' & _). split.
    - intros ->. apply Ho', elem_of_union. left.
      apply elem_of_singleton. reflexivity.
    - intros Ha. apply Ho', elem_of_union. right. exact Ha. }
  assert (Hin_new : forall k,
    k ∈ (list_to_set added ∪ ({[key]} ∪ assigned) : gset string)
    <-> k ∈ members groups ++ key :: added).
  { intros k. rewrite !elem_of_union, elem_of_singleton, elem_of_list_to_set.
    rewrite elem_of_app, elem_of_cons, Hasg. tauto. }
  split; simpl.
  - intros k. rewrite members_snoc. apply Hin_new.
  - rewrite members_snoc. apply NoDup_app. split; [exact Hmem|]. split.
    + intros k Hk Hk'. apply Hasg in Hk.
      apply elem_of_cons in Hk' as [->|Hk']; [contradiction|].
      destruct (Hadded_out k Hk') as [_ Hk'']. contradiction.
    + apply NoDup_cons. split; [|exact Hnda].
      intros Hk'. destruct (Hadded_out key Hk') as [Hne _]. contradiction.
  - intros c vs Hg. apply elem_of_app in Hg as [Hg|Hg]; [eapply Hhead, Hg|].
    apply list_elem_of_singleton in Hg. injection Hg as -> ->.
    exists added. reflexivity.
  - intros k Hk. apply Hin_new. apply elem_of_app in Hk as [Hk|Hk].
    + apply elem_of_app. left. apply Hasg, Hdone, Hk.
    + apply list_elem_of_singleton in Hk as ->.
      apply elem_of_app. right. left.
  - intros k. rewrite members_snoc. intros Hk.
    apply elem_of_app in Hk as [Hk|Hk]; [apply Hkeys, Hk|].
    apply elem_of_cons in Hk as [->|Hk]; [exact Hkey_all|].
    destruct (Hadd k Hk) as (Hk' & _). exact Hk'.
  - intros c vs o Hg Ho Hout'.
    apply elem_of_app in Hg as [Hg|Hg].
    + apply (Hapart c vs o Hg Ho). intros Ha. apply Hout'.
      apply elem_of_union. right. apply elem_of_union. right. exact Ha.
    + apply list_elem_of_singleton in Hg. injection Hg as -> ->.
      apply Hrest; assumption.
  - intros c vs c' vs' Hg Hg' Hne.
    apply elem_of_app in Hg as [Hg|Hg]; apply elem_of_app in Hg' as [Hg'|Hg'].
    + eapply Hdis; eassumption.
    + apply list_elem_of_singleton in Hg'. injection Hg' as -> ->.
      apply (Hapart c vs key Hg Hkey_all Hout).
    + apply list_elem_of_singleton in Hg. injection Hg as -> ->.
      rewrite similar_comm. apply (Hapart c' vs' key Hg' Hkey_all Hout).
    + apply list_elem_of_singleton in Hg, Hg'.
      injection Hg as -> _. injection Hg' as -> _. contradiction.
  - intros c vs Hg. apply elem_of_app in Hg as [Hg|Hg]; [apply Hfirst, Hg|].
    apply list_elem_of_singleton in Hg. injection Hg as -> ->.
    exists done, rest. split; [exact Hall|].
    intros v Hv Hv'. apply Hdone in Hv'.
    apply elem_of_cons in Hv as [->|Hv]; [contradiction|].
    destruct (Hadded_out v Hv) as [_ Hv'']. contradiction.
  - intros c. rewrite canonical_keys_snoc. intros Hc.
    apply elem_of_app in Hc as [Hc|Hc]; apply elem_of_app;
      [left; apply Hvis, Hc | right; exact Hc].
  - rewrite canonical_keys_snoc, List.filter_app. simpl.
    rewrite bool_decide_eq_true_2 by (apply elem_of_app; right; left).
    f_equal. rewrite Hord at 1. apply filter_ext_in. intros k Hk.
    apply bool_decide_ext. rewrite elem_of_app, list_elem_of_singleton.
    split; [tauto|]. intros [Hc| ->]; [exact Hc|].
    exfalso. apply Hkey_new, list_elem_of_In, Hk.
Qed.

Lemma grouped_fold all : forall rest done st,
  NoDup all ->
  all = done ++ rest ->
  grouped all done st ->
  grouped all all (fold_left (open_group all) rest st).
Proof.
  induction rest as [|key rest IH]; intros done st Hnd Hall Hst.
  - rewrite app_nil_r in Hall. subst done. exact Hst.
  - simpl. apply (IH (done ++ [key])); [exact Hnd | |].
    + rewrite <- app_assoc. exact Hall.
    + eapply grouped_step; eassumption.
Qed.

(** The groups of a duplicate-free key list, with the final [assigned]
    set. *)
Lemma grouped_buildGroups all :
  NoDup all ->
  grouped all all (fold_left (open_group all) all ([], ∅)).
Proof.
  intros Hnd. apply (grouped_fold all all [] _ Hnd eq_refl), grouped_start.
Qed.

End Grouping.

(** ** The Column Harmonizer *)

Section Harmonizer.
Import JS Types GeminiService Spec Examples.
Local Open Scope list_scope.

Lemma elem_of_allKeys rows k :
  k ∈ allKeys rows <-> exists r, r ∈ rows /\ k ∈ keys r.
Proof.
  unfold allKeys. rewrite elem_of_uniq, list_elem_of_In, in_concat. split.
  - intros (ks & Hks & Hk). apply in_map_iff in Hks as (r & <- & Hr).
    exists r. split; apply list_elem_of_In; assumption.
  - intros (r & Hr & Hk). exists (keys r). split.
    + apply in_map, list_elem_of_In, Hr.
    + apply list_elem_of_In, Hk.
Qed.

Lemma NoDup_allKeys rows : NoDup (allKeys rows).
Proof. apply NoDup_uniq. Qed.

Lemma grouped_allKeys rows :
  grouped (allKeys rows) (allKeys rows)
    (fold_left (open_group (allKeys rows)) (allKeys rows) ([], ∅)).
Proof. apply grouped_buildGroups, NoDup_allKeys. Qed.

Lemma NoDup_canonical_keys groups :
  (forall c vs, (c, vs) ∈ groups -> exists rest, vs = c :: rest) ->
  NoDup (members groups) -> NoDup (canonical_keys groups).
Proof.
  induction groups as [|[c vs] groups IH]; intros Hhead Hnd; [constructor|].
  unfold members in Hnd. simpl in Hnd. apply NoDup_app in Hnd as (_ & Hdisj & Hnd).
  unfold canonical_keys. simpl. constructor.
  - intros Hc. apply list_elem_of_fmap in Hc as ([c' vs'] & Hc & Hg).
    simpl in Hc. subst c'.
    destruct (Hhead c vs) as [rest ->]; [left|].
    apply (Hdisj c); [left|].
    apply (canonical_is_member groups c vs'); [|exact Hg].
    intros c0 vs0 H0. apply Hhead. right. exact H0.
  - apply IH; [|exact Hnd]. intros c0 vs0 H0. apply Hhead. right. exact H0.
Qed.

Lemma group_count_absent k groups :
  k ∉ members groups -> group_count k groups = 0%nat.
Proof.
  unfold group_count, members.
  induction groups as [|g groups IH]; intros Hk; simpl; [reflexivity|].
  simpl in Hk. rewrite elem_of_app in Hk.
  rewrite bool_decide_eq_false_2 by tauto. apply IH. tauto.
Qed.

(** In a partition a key of the groups lies in exactly one of them. *)
Lemma group_count_member k groups :
  NoDup (members groups) -> k ∈ members groups ->
  group_count k groups = 1%nat.
Proof.
  induction groups as [|g groups IH]; intros Hnd Hk; [inversion Hk|].
  unfold members in Hnd, Hk. simpl in Hnd, Hk.
  apply NoDup_app in Hnd as (_ & Hdisj & Hnd).
  unfold group_count. simpl.
  destruct (decide (k ∈ snd g)) as [Hg|Hg].
  - rewrite bool_decide_eq_true_2 by exact Hg. simpl. f_equal.
    apply group_count_absent, Hdisj, Hg.
  - rewrite bool_decide_eq_false_2 by exact Hg.
    apply IH; [exact Hnd|]. apply elem_of_app in Hk as [Hk|Hk];
      [contradiction | exact Hk].
Qed.

(** C6: the groups partition the observed headers.  Every header key of a
    row of the batch lies in exactly one group, no key occurs twice in the
    groups, the groups hold observed keys only, and the canonical key of a
    group is its first variant and is met, in first-seen order, before every
    other key of its group. *)
Theorem harmonize_groups_partition (rows : list RawExtractionItem) :
  (forall k r, r ∈ rows -> k ∈ keys r ->
     group_count k (buildGroups (allKeys rows)) = 1%nat)
  /\ NoDup (members (buildGroups (allKeys rows)))
  /\ (forall k, k ∈ members (buildGroups (allKeys rows)) ->
        exists r, r ∈ rows /\ k ∈ keys r)
  /\ (forall c vs, (c, vs) ∈ buildGroups (allKeys rows) ->
        exists rest before after,
          vs = c :: rest
          /\ allKeys rows = before ++ c :: after
          /\ forall v, v ∈ vs -> v ∉ before).
Proof.
  destruct (grouped_allKeys rows)
    as [Hasg Hmem Hhead Hdone Hkeys _ _ Hfirst _ _].
  unfold buildGroups. split; [|split; [exact Hmem|split]].
  - intros k r Hr Hk. apply group_count_member; [exact Hmem|].
    apply Hasg, Hdone, elem_of_allKeys. exists r. split; assumption.
  - intros k Hk. apply elem_of_allKeys, Hkeys, Hk.
  - intros c vs Hg. destruct (Hhead c vs Hg) as [rest Hvs].
    destruct (Hfirst c vs Hg) as (before & after & Hall & Hbefore).
    exists rest, before, after. repeat split; assumption.
Qed.

(** The groups of the sample batch. *)
Example buildGroups_mixed_batch :
  allKeys mixed_batch
  = ["Product Name"; "Cost Price"; "SRP Price"; "Desc"; "Net"; "Item";
     "Dealer"; "Retail"]
  /\ buildGroups (allKeys mixed_batch)
     = [("Product Name", ["Product Name"; "Desc"; "Item"]);
        ("Cost Price", ["Cost Price"; "Net"; "Dealer"]);
        ("SRP Price", ["SRP Price"; "Retail"])].
Proof. vm_compute. split; reflexivity. Qed.

Lemma harmonize_groups_partition_witness :
  group_count "Net" (buildGroups (allKeys mixed_batch)) = 1%nat
  /\ exists rest before after,
       ["Cost Price"; "Net"; "Dealer"] = "Cost Price" :: rest
       /\ allKeys mixed_batch = before ++ "Cost Price" :: after
       /\ forall v, v ∈ ["Cost Price"; "Net"; "Dealer"] -> v ∉ before.
Proof.
  split.
  - apply (proj1 (harmonize_groups_partition mixed_batch) "Net"
             [("Desc", VStr "Sony A7C"); ("Net", VStr "24.845")]).
    + right. left.
    + right. left.
  - apply (proj2 (proj2 (proj2 (harmonize_groups_partition mixed_batch)))).
    rewrite (proj2 buildGroups_mixed_batch). right. left.
Defined.

Lemma allKeys_nil_rows rows :
  allKeys rows = [] -> Forall (fun r => r = empty_row) rows.
Proof.
  intros Hnil. apply Forall_forall. intros r Hr.
  destruct r as [|[k v] r]; [reflexivity|]. exfalso.
  assert (Hk : k ∈ allKeys rows).
  { apply elem_of_allKeys. exists ((k, v) :: r). split; [exact Hr | left]. }
  rewrite Hnil in Hk. inversion Hk.
Qed.

Lemma first_variant_empty_row variants :
  first_variant empty_row variants = None.
Proof. induction variants as [|v vs IH]; [reflexivity | exact IH]. Qed.

Lemma fold_copy_empty_row groups : forall normalized,
  fold_left (copy_group empty_row) groups normalized = normalized.
Proof.
  induction groups as [|g groups IH]; intros normalized; simpl; [reflexivity|].
  unfold copy_group at 2. rewrite first_variant_empty_row. apply IH.
Qed.

Lemma normalizeRow_empty_row groups : normalizeRow groups empty_row = empty_row.
Proof. apply fold_copy_empty_row. Qed.

(** Both early returns agree with the general path: the result is always
    the image of the rows under [normalizeRow]. *)
Lemma harmonize_map rows :
  harmonizeColumnNames rows
  = List.map (normalizeRow (buildGroups (allKeys rows))) rows.
Proof.
  unfold harmonizeColumnNames. destruct rows as [|r rows]; [reflexivity|].
  destruct (allKeys (r :: rows)) as [|k ks] eqn:Hkeys; [|reflexivity].
  apply allKeys_nil_rows in Hkeys.
  induction Hkeys as [|r0 rows0 -> _ IH]; [reflexivity|].
  simpl. f_equal. exact IH.
Qed.

(** The keys of an output row are canonical keys. *)
Lemma harmonize_keys rows out k :
  out ∈ harmonizeColumnNames rows -> k ∈ keys out ->
  k ∈ canonical_keys (buildGroups (allKeys rows)).
Proof.
  rewrite harmonize_map. intros Hout Hk.
  apply list_elem_of_In, in_map_iff in Hout as (r & <- & _).
  eapply keys_normalizeRow, Hk.
Qed.

(** C7: the output has the length and the order of the input (its row [i]
    is the rewriting of the input's row [i]); the keys of every output row
    are canonical keys of the batch; a row without headers stays as it
    is. *)
Theorem harmonize_shape (rows : list RawExtractionItem) :
  length (harmonizeColumnNames rows) = length rows
  /\ (forall i,
        harmonizeColumnNames rows !! i
        = normalizeRow (buildGroups (allKeys rows)) <$> rows !! i)
  /\ (forall out k,
        out ∈ harmonizeColumnNames rows -> k ∈ keys out ->
        k ∈ canonical_keys (buildGroups (allKeys rows)))
  /\ (forall i, rows !! i = Some empty_row ->
        harmonizeColumnNames rows !! i = Some empty_row).
Proof.
  rewrite harmonize_map.
  assert (Hlookup : forall i,
    List.map (normalizeRow (buildGroups (allKeys rows))) rows !! i
    = normalizeRow (buildGroups (allKeys rows)) <$> rows !! i).
  { generalize (normalizeRow (buildGroups (allKeys rows))). intros f.
    induction rows as [|r rows IH]; intros [|i]; simpl; auto. }
  split; [apply length_map|]. split; [exact Hlookup|]. split.
  - intros out k Hout Hk.
    apply list_elem_of_In, in_map_iff in Hout as (r & <- & _).
    eapply keys_normalizeRow, Hk.
  - intros i Hi. rewrite Hlookup, Hi. simpl.
    rewrite normalizeRow_empty_row. reflexivity.
Qed.

(** The rewriting of the sample batch. *)
Example harmonize_mixed_batch :
  harmonizeColumnNames mixed_batch
  = [ [("Product Name", VStr "Nikon D850");
       ("Cost Price", VNum (Fin 24000000));
       ("SRP Price", VNum (Fin 27000000))];
      [("Product Name", VStr "Sony A7C"); ("Cost Price", VStr "24.845")];
      [];
      [("Product Name", VStr "body only"); ("Cost Price", VStr "35.000");
       ("SRP Price", VStr "39.999")] ].
Proof. vm_compute. reflexivity. Qed.

Lemma harmonize_shape_witness :
  length (harmonizeColumnNames mixed_batch) = length mixed_batch
  /\ harmonizeColumnNames mixed_batch !! 2%nat = Some empty_row
  /\ (forall k,
        k ∈ keys [("Product Name", VStr "Sony A7C");
                  ("Cost Price", VStr "24.845")] ->
        k ∈ canonical_keys (buildGroups (allKeys mixed_batch))).
Proof.
  split; [apply (proj1 (harmonize_shape mixed_batch))|]. split.
  - apply (proj2 (proj2 (proj2 (harmonize_shape mixed_batch))) 2%nat).
    reflexivity.
  - intros k.
    apply (proj1 (proj2 (proj2 (harmonize_shape mixed_batch)))).
    rewrite harmonize_mixed_batch. right. left.
Defined.

(** The singleton groups of a key list. *)
Lemma keys_singletons (l : list string) :
  keys (List.map (fun k => (k, [k])) l) = l.
Proof.
  unfold keys. induction l as [|k l IH]; simpl; [reflexivity|].
  f_equal. exact IH.
Qed.

(** A scan adds nothing when every key is assigned or not similar. *)
Lemma scan_nothing key l : forall group (assigned : gset string),
  (forall o, o ∈ l -> o ∈ assigned \/ similar key o = false) ->
  fold_left (scan key) l (group, assigned) = (group, assigned).
Proof.
  induction l as [|x l IH]; intros group assigned Hl; [reflexivity|].
  cbn [fold_left]. unfold scan at 2.
  destruct (decide (x ∈ assigned)) as [Hx|Hx].
  - apply IH. intros o Ho. apply Hl. right. exact Ho.
  - destruct (Hl x) as [Hx'|Hx']; [left | contradiction |].
    rewrite Hx'. apply IH. intros o Ho. apply Hl. right. exact Ho.
Qed.

Lemma buildGroups_fold_canonical all : forall rest done (assigned : gset string),
  NoDup all ->
  canonical_naming all ->
  all = done ++ rest ->
  (forall k, k ∈ assigned <-> k ∈ done) ->
  fst (fold_left (open_group all) rest
         (List.map (fun k => (k, [k])) done, assigned))
  = List.map (fun k => (k, [k])) all.
Proof.
  induction rest as [|key rest IH]; intros done assigned Hnd Hcan Hall Hasg.
  - rewrite app_nil_r in Hall. subst done. reflexivity.
  - cbn [fold_left]. unfold open_group at 2.
    assert (Hfresh : key ∉ done).
    { rewrite Hall in Hnd. apply NoDup_app in Hnd as (_ & Hdisj & _).
      intros Hk. apply (Hdisj key Hk). left. }
    assert (Hkey : key ∈ all).
    { rewrite Hall. apply elem_of_app. right. left. }
    rewrite decide_False by (rewrite Hasg; exact Hfresh).
    rewrite scan_nothing.
    + rewrite map_set_new by (rewrite keys_singletons; exact Hfresh).
      replace (List.map (fun k => (k, [k])) done ++ [(key, [key])])
        with (List.map (fun k : string => (k, [k])) (done ++ [key]))
        by (rewrite map_app; reflexivity).
      apply IH; [exact Hnd | exact Hcan | |].
      * rewrite <- app_assoc. exact Hall.
      * intros k. rewrite elem_of_union, elem_of_singleton, elem_of_app,
          list_elem_of_singleton, Hasg. tauto.
    + intros o Ho. destruct (decide (o = key)) as [->|Hne].
      * left. apply elem_of_union. left. apply elem_of_singleton. reflexivity.
      * right. apply Hcan; [exact Hkey | exact Ho | congruence].
Qed.

(** Under canonical naming every header is a group of its own. *)
Lemma buildGroups_canonical all :
  NoDup all -> canonical_naming all ->
  buildGroups all = List.map (fun k => (k, [k])) all.
Proof.
  intros Hnd Hcan. unfold buildGroups.
  apply (buildGroups_fold_canonical all all [] ∅ Hnd Hcan eq_refl).
  intros k. split; intros Hk; [apply not_elem_of_empty in Hk; contradiction|].
  inversion Hk.
Qed.

Lemma Forall2_map_left {A B} (R : B -> A -> Prop) (f : A -> B) (l : list A) :
  (forall x, x ∈ l -> R (f x) x) -> Forall2 R (List.map f l) l.
Proof.
  induction l as [|x l IH]; intros H; simpl; constructor.
  - apply H. left.
  - apply IH. intros y Hy. apply H. right. exact Hy.
Qed.

(** The Harmonizer is a no-op, cell for cell, on a batch whose header
    naming is canonical. *)
Lemma harmonize_canonical_noop rows :
  canonical_naming (allKeys rows) ->
  Forall2 same_cells (harmonizeColumnNames rows) rows.
Proof.
  intros Hcan. rewrite harmonize_map.
  rewrite (buildGroups_canonical _ (NoDup_allKeys rows) Hcan).
  apply Forall2_map_left. intros r Hr k. unfold normalizeRow.
  destruct (decide (k ∈ allKeys rows)) as [Hk|Hk].
  - rewrite (get_fold_copy_canonical r _ [] k [k]).
    + rewrite first_variant_singleton. destruct (get r k); reflexivity.
    + change (NoDup (keys (List.map (fun k => (k, [k])) (allKeys rows)))).
      rewrite keys_singletons. apply NoDup_allKeys.
    + apply list_elem_of_In, in_map_iff. exists k. split; [reflexivity|].
      apply list_elem_of_In, Hk.
  - rewrite get_fold_copy_other
      by (change (k ∉ keys (List.map (fun k => (k, [k])) (allKeys rows)));
          rewrite keys_singletons; exact Hk).
    symmetry. apply get_None_keys. intros Hin. apply Hk, elem_of_allKeys.
    exists r. split; assumption.
Qed.

(** The header naming of an output of the Harmonizer is canonical. *)
Lemma harmonize_canonical_naming rows :
  canonical_naming (allKeys (harmonizeColumnNames rows)).
Proof.
  destruct (grouped_allKeys rows) as [_ _ _ _ _ _ Hdis _ _ _].
  assert (Hcanon : forall k, k ∈ allKeys (harmonizeColumnNames rows) ->
            exists vs, (k, vs) ∈ buildGroups (allKeys rows)).
  { intros k Hk. apply elem_of_allKeys in Hk as (out & Hout & Hk).
    apply (harmonize_keys rows out k Hout) in Hk.
    apply list_elem_of_fmap in Hk as ([c vs] & -> & Hg). exists vs. exact Hg. }
  intros a b Ha Hb Hne.
  destruct (Hcanon a Ha) as [vs Hvs]. destruct (Hcanon b Hb) as [vs' Hvs'].
  exact (Hdis a vs b vs' Hvs Hvs' Hne).
Qed.

Lemma cells_lookup r k : cells r !! k = get r k.
Proof.
  unfold cells. induction r as [|[k' v] r IH]; simpl.
  - apply lookup_empty.
  - rewrite lookup_insert. destruct (String.eqb_spec k' k) as [->|Hne].
    + rewrite decide_True by reflexivity. reflexivity.
    + rewrite decide_False by exact Hne. exact IH.
Qed.

Lemma same_cells_contents rows1 rows2 :
  Forall2 same_cells rows1 rows2 ->
  List.map cells rows1 = List.map cells rows2.
Proof.
  induction 1 as [|r1 r2 rows1 rows2 Hsame _ IH]; simpl; [reflexivity|].
  f_equal; [|exact IH].
  apply map_eq. intros k. rewrite !cells_lookup. apply Hsame.
Qed.

(** On a batch whose header naming is canonical the Harmonizer is a no-op
    on the contents of the rows (their key order may change). *)
Lemma harmonize_canonical_contents (rows : list RawExtractionItem) :
  canonical_naming (allKeys rows) ->
  List.map cells (harmonizeColumnNames rows) = List.map cells rows.
Proof. intros Hcan. apply same_cells_contents, harmonize_canonical_noop, Hcan. Qed.

(** On the sample batch the second pass returns the very rows of the
    first. *)
Example harmonize_twice_mixed_batch :
  harmonizeColumnNames (harmonizeColumnNames mixed_batch)
  = harmonizeColumnNames mixed_batch.
Proof. vm_compute. reflexivity. Qed.

End Harmonizer.

(** ** The Column Harmonizer applied twice *)

Section Bindings.
Import JS Types GeminiService Spec.
Local Open Scope list_scope.

Variable r : RawExtractionItem.

Lemma elem_of_bindings_at ks k v :
  (k, v) ∈ bindings_at r ks <-> k ∈ ks /\ get r k = Some v.
Proof.
  unfold bindings_at. rewrite list_elem_of_omap. split.
  - intros (k' & Hk' & Hget). destruct (get r k') as [v'|] eqn:Hv; [|discriminate].
    simpl in Hget. injection Hget as <- <-. split; assumption.
  - intros [Hk Hget]. exists k. split; [exact Hk|]. rewrite Hget. reflexivity.
Qed.

Lemma keys_bindings_at ks :
  (bindings_at r ks).*1 = List.filter (hasOwnProperty r) ks.
Proof.
  unfold bindings_at, hasOwnProperty.
  induction ks as [|k ks IH]; simpl; [reflexivity|].
  destruct (get r k); simpl; [f_equal|]; exact IH.
Qed.

Lemma NoDup_bindings_at ks : NoDup ks -> NoDup (bindings_at r ks).*1.
Proof.
  intros Hnd. rewrite keys_bindings_at.
  apply NoDup_ListNoDup, List.NoDup_filter, NoDup_ListNoDup, Hnd.
Qed.

Lemma filter_bindings_at (f : string -> bool) ks :
  List.filter (fun b => f b.1) (bindings_at r ks)
  = bindings_at r (List.filter f ks).
Proof.
  unfold bindings_at. induction ks as [|k ks IH]; [reflexivity|].
  cbn [List.filter omap list_omap].
  destruct (get r k) as [v|] eqn:Hk; destruct (f k) eqn:Hf;
    cbn [fmap option_fmap option_map List.filter omap list_omap fst];
    rewrite ?Hk, ?Hf; cbn [fmap option_fmap option_map]; rewrite IH;
    reflexivity.
Qed.

End Bindings.

Section Idempotence.
Import JS Types GeminiService Spec.
Local Open Scope list_scope.

Lemma fold_copy_bindings row groups : forall normalized,
  fold_left (copy_group row) groups normalized
  = fold_left (fun o b => obj_set o b.1 b.2)
      (omap (fun g => (fun v => (g.1, v)) <$> first_variant row g.2) groups)
      normalized.
Proof.
  induction groups as [|g groups IH]; intros normalized; [reflexivity|].
  cbn [fold_left omap list_omap]. rewrite IH. unfold copy_group.
  destruct (first_variant row g.2); reflexivity.
Qed.

Lemma omap_ext_in {B C} (f g : B -> option C) (l : list B) :
  (forall x, x ∈ l -> f x = g x) -> omap f l = omap g l.
Proof.
  induction l as [|x l IH]; intros H; [reflexivity|].
  cbn [omap list_omap]. rewrite (H x) by left.
  rewrite IH by (intros y Hy; apply H; right; exact Hy). reflexivity.
Qed.

Lemma omap_map {B C D} (f : C -> option D) (h : B -> C) (l : list B) :
  omap f (List.map h l) = omap (fun x => f (h x)) l.
Proof.
  induction l as [|x l IH]; [reflexivity|].
  cbn [List.map omap list_omap]. rewrite IH. reflexivity.
Qed.

Lemma get_normalizeRow groups row c vs :
  NoDup (canonical_keys groups) -> (c, vs) ∈ groups ->
  get (normalizeRow groups row) c = first_variant row vs.
Proof.
  intros Hnd Hin. unfold normalizeRow.
  rewrite (get_fold_copy_canonical row groups [] c vs Hnd Hin).
  destruct (first_variant row vs); reflexivity.
Qed.

(** A rewritten row is the object built from its own bindings at the
    canonical keys. *)
Lemma normalizeRow_build groups row :
  NoDup (canonical_keys groups) ->
  normalizeRow groups row
  = build (bindings_at (normalizeRow groups row) (canonical_keys groups)).
Proof.
  intros Hnd. unfold normalizeRow at 1. rewrite fold_copy_bindings.
  unfold build. f_equal. unfold bindings_at, canonical_keys.
  rewrite omap_map. apply omap_ext_in. intros [c vs] Hg. simpl.
  rewrite (get_normalizeRow groups row c vs Hnd Hg). reflexivity.
Qed.

(** With singleton groups a row is rebuilt from its bindings at the
    grouped keys. *)
Lemma normalizeRow_singletons ks row :
  normalizeRow (List.map (fun k => (k, [k])) ks) row
  = build (bindings_at row ks).
Proof.
  unfold normalizeRow. rewrite fold_copy_bindings. unfold build. f_equal.
  unfold bindings_at. rewrite omap_map. apply omap_ext_in. intros k _. simpl.
  destruct (get row k); reflexivity.
Qed.

Lemma first_variant_Some row vs v :
  first_variant row vs = Some v -> exists w, w ∈ vs /\ w ∈ keys row.
Proof.
  induction vs as [|w vs IH]; simpl; [discriminate|].
  destruct (get row w) as [v'|] eqn:Hw.
  - intros _. exists w. split; [left|].
    destruct (decide (w ∈ keys row)) as [H|H]; [exact H|].
    apply get_None_keys in H. congruence.
  - intros H. destruct (IH H) as (w' & H1 & H2). exists w'.
    split; [right; exact H1 | exact H2].
Qed.

(** In a duplicate-free list, what comes before the place of a key of the
    second part includes the whole first part. *)
Lemma before_second_part (l1 : list string) : forall l2 bef c aft,
  NoDup (l1 ++ l2) -> l1 ++ l2 = bef ++ c :: aft -> c ∈ l2 ->
  forall x, x ∈ l1 -> x ∈ bef.
Proof.
  induction l1 as [|y l1 IH]; intros l2 bef c aft Hnd Heq Hc x Hx;
    [inversion Hx|].
  simpl in Hnd. apply NoDup_cons in Hnd as [Hy Hnd].
  destruct bef as [|z bef]; simpl in Heq; injection Heq as Hz Heq.
  - exfalso. subst y. apply Hy, elem_of_app. right. exact Hc.
  - subst z. apply elem_of_cons in Hx as [->|Hx]; [left|].
    right. eapply IH; eassumption.
Qed.

Lemma filter_filter_andb {B} (f g : B -> bool) (l : list B) :
  List.filter f (List.filter g l) = List.filter (fun x => g x && f x) l.
Proof.
  induction l as [|x l IH]; simpl; [reflexivity|].
  destruct (g x); simpl; [destruct (f x)|]; rewrite IH; reflexivity.
Qed.

Variable rows : list RawExtractionItem.

Let groups := buildGroups (allKeys rows).

Lemma NoDup_canonical_groups : NoDup (canonical_keys groups).
Proof.
  destruct (grouped_allKeys rows) as [_ Hmem Hhead _ _ _ _ _ _ _].
  apply NoDup_canonical_keys; assumption.
Qed.

Lemma canonical_keys_order :
  canonical_keys groups
  = List.filter (fun k => bool_decide (k ∈ canonical_keys groups))
      (allKeys rows).
Proof.
  destruct (grouped_allKeys rows) as [_ _ _ _ _ _ _ _ _ Hord]. exact Hord.
Qed.

(** The keys of a rewritten row that are no array indices are the
    canonical keys it holds, in the order of the groups. *)
Lemma other_keys_normalizeRow row :
  List.filter (fun k => negb (is_index k)) (keys (normalizeRow groups row))
  = List.filter (hasOwnProperty (normalizeRow groups row))
      (List.filter (fun k => negb (is_index k)) (canonical_keys groups)).
Proof.
  pose proof (normalizeRow_build groups row NoDup_canonical_groups) as Hb.
  set (r' := normalizeRow groups row) in *.
  destruct (build_shape (bindings_at r' (canonical_keys groups)))
    as (I & HI & _ & HIel).
  { apply NoDup_bindings_at, NoDup_canonical_groups. }
  rewrite HI in Hb.
  rewrite (filter_bindings_at r' (fun k => negb (is_index k))) in Hb.
  assert (Hkeys : keys r'
            = keys I ++ List.filter (hasOwnProperty r')
                (List.filter (fun k => negb (is_index k))
                   (canonical_keys groups))).
  { rewrite Hb at 1. rewrite keys_app. f_equal. apply keys_bindings_at. }
  rewrite Hkeys, List.filter_app.
  rewrite (filter_none _ (keys I)).
  - simpl. apply filter_all. intros k Hk.
    apply elem_of_filter in Hk as [Hk _].
    apply elem_of_filter in Hk as [_ Hk]. exact Hk.
  - intros k Hk. apply list_elem_of_fmap in Hk as ([k0 v0] & -> & Hb0).
    apply HIel in Hb0 as [_ Hi]. simpl in *. rewrite Hi. reflexivity.
Qed.

(** The Harmonizer's output lists its keys that are no array indices in the
    order of the groups. *)
Lemma other_keys_first_seen :
  List.filter (fun k => negb (is_index k))
    (allKeys (harmonizeColumnNames rows))
  = List.filter (fun k => negb (is_index k)) (canonical_keys groups).
Proof.
  rewrite harmonize_map. fold groups. unfold allKeys at 1.
  rewrite filter_uniq, filter_concat, !map_map.
  rewrite (map_ext _ _ other_keys_normalizeRow).
  set (q := fun k => bool_decide (k ∈ canonical_keys groups)
                     && negb (is_index k)).
  assert (Hsel : List.filter (fun k => negb (is_index k)) (canonical_keys groups)
                 = List.filter q (allKeys rows)).
  { rewrite canonical_keys_order at 1. apply filter_filter_andb. }
  etransitivity; [|symmetry; exact Hsel].
  apply (first_seen_emitted keys
           (fun r => hasOwnProperty (normalizeRow groups r)) q
           (List.filter (fun k => negb (is_index k)) (canonical_keys groups))
           rows []).
  - constructor.
  - exact Hsel.
  - intros r c _ Hq Hc. unfold q in Hq. apply andb_true_iff in Hq as [Hcan _].
    apply bool_decide_eq_true_1 in Hcan.
    apply list_elem_of_fmap in Hcan as ([c' vs] & -> & Hg). simpl in *.
    destruct (grouped_allKeys rows) as [_ _ Hhead _ _ _ _ _ _ _].
    destruct (Hhead c' vs Hg) as [rest ->].
    unfold hasOwnProperty.
    rewrite (get_normalizeRow groups r c' _ NoDup_canonical_groups Hg).
    apply keys_get_Some in Hc as [v Hv]. simpl. rewrite Hv. reflexivity.
  - intros rs1 r rs2 c Hrows Hq Hem. right.
    unfold q in Hq. apply andb_true_iff in Hq as [Hcan _].
    apply bool_decide_eq_true_1 in Hcan.
    apply list_elem_of_fmap in Hcan as ([c' vs] & -> & Hg). simpl in *.
    unfold hasOwnProperty in Hem.
    rewrite (get_normalizeRow groups r c' _ NoDup_canonical_groups Hg) in Hem.
    destruct (first_variant r vs) as [v|] eqn:Hv; [|discriminate].
    apply first_variant_Some in Hv as (w & Hw & Hwr).
    destruct (grouped_allKeys rows) as [_ _ _ _ _ _ _ Hfirst _ _].
    destruct (Hfirst c' vs Hg) as (bef & aft & Hall & Hbef).
    specialize (Hbef w Hw).
    unfold allKeys, uniq in Hall. rewrite Hrows in Hall.
    rewrite map_app in Hall. cbn [List.map] in Hall.
    rewrite concat_app in Hall. cbn [List.concat] in Hall.
    rewrite app_assoc, uniq_from_app in Hall.
    set (pre := uniq_from ∅ (List.concat (List.map keys rs1) ++ keys r)) in *.
    assert (Hwpre : w ∈ pre).
    { unfold pre. rewrite elem_of_uniq_from, elem_of_app.
      split; [right; exact Hwr | apply not_elem_of_empty]. }
    assert (Hcpre : c' ∈ pre).
    { destruct (decide (c' ∈ pre)) as [H|H]; [exact H|]. exfalso.
      apply Hbef.
      assert (Hc_all : c' ∈ pre ++ uniq_from
                (list_to_set (List.concat (List.map keys rs1) ++ keys r) ∪ ∅)
                (List.concat (List.map keys rs2))).
      { rewrite Hall. apply elem_of_app. right. left. }
      apply elem_of_app in Hc_all as [Hc_all|Hc_all]; [contradiction|].
      eapply before_second_part; [| exact Hall | exact Hc_all | exact Hwpre].
      rewrite Hall. rewrite <- Hall.
      apply NoDup_app. split; [apply NoDup_uniq_from|].
      split; [|apply NoDup_uniq_from].
      intros x Hx Hx'. apply elem_of_uniq_from in Hx as [Hx _].
      apply elem_of_uniq_from in Hx' as [_ Hx'].
      apply Hx', elem_of_union. left. apply elem_of_list_to_set, Hx. }
    unfold pre in Hcpre. apply elem_of_uniq_from in Hcpre as [Hcpre _].
    apply elem_of_app in Hcpre. exact Hcpre.
Qed.

(** A row of the output is rebuilt as it is from the keys of the output. *)
Lemma normalizeRow_output row :
  row ∈ rows ->
  normalizeRow
    (List.map (fun k => (k, [k])) (allKeys (harmonizeColumnNames rows)))
    (normalizeRow groups row)
  = normalizeRow groups row.
Proof.
  intros Hrow. rewrite normalizeRow_singletons.
  etransitivity;
    [|symmetry; apply (normalizeRow_build groups row NoDup_canonical_groups)].
  set (r' := normalizeRow groups row).
  assert (Hout : r' ∈ harmonizeColumnNames rows).
  { rewrite harmonize_map. apply list_elem_of_In, in_map, list_elem_of_In, Hrow. }
  apply build_unique.
  - apply NoDup_bindings_at, NoDup_allKeys.
  - apply NoDup_bindings_at, NoDup_canonical_groups.
  - intros [k v]. rewrite !elem_of_bindings_at. split; intros [Hk Hv].
    + split; [|exact Hv]. apply (keys_normalizeRow row groups).
      destruct (decide (k ∈ keys r')) as [H|H]; [exact H|].
      apply get_None_keys in H. congruence.
    + split; [|exact Hv]. apply elem_of_allKeys. exists r'.
      split; [exact Hout|].
      destruct (decide (k ∈ keys r')) as [H|H]; [exact H|].
      apply get_None_keys in H. congruence.
  - rewrite !(filter_bindings_at r' (fun k => negb (is_index k))).
    rewrite other_keys_first_seen. reflexivity.
Qed.

(** C5: applying the Harmonizer to its own output gives back that output,
    row by row: the same keys, in the same order, with the same values. *)
Theorem harmonize_idempotent :
  harmonizeColumnNames (harmonizeColumnNames rows)
  = harmonizeColumnNames rows.
Proof.
  rewrite (harmonize_map (harmonizeColumnNames rows)).
  rewrite (buildGroups_canonical _ (NoDup_allKeys _)
             (harmonize_canonical_naming rows)).
  etransitivity; [|apply map_id].
  apply map_ext_in. intros r' Hr'. rewrite harmonize_map in Hr'.
  apply in_map_iff in Hr' as (row & <- & Hrow).
  apply normalizeRow_output, list_elem_of_In, Hrow.
Qed.

End Idempotence.

(** ** More on the Field Resolver *)

Section ResolverMore.
Import JS Types MappingModal Spec Examples ModalState Notions.
Local Open Scope list_scope.

Lemma first_usable_cases {A} (usable : A -> bool) (dflt : A) (chain : list A) :
  usable (first_usable usable dflt chain) = true
  \/ first_usable usable dflt chain = dflt.
Proof.
  unfold first_usable. induction chain as [|x chain IH]; simpl; [right; reflexivity|].
  destruct (usable x) eqn:Hx; [left; exact Hx | exact IH].
Qed.

Lemma resolveSrp_first mapping row rowIndex :
  resolveSrp mapping row rowIndex
  = first_usable gt0 (Fin 0) (srp_chain mapping row rowIndex).
Proof.
  unfold resolveSrp, srp_chain, manual_srp, candidates, configured, entered.
  rewrite price_of_candidates_first, gt0_or0. unfold first_usable.
  destruct (manualRetag mapping rowIndex ≫= srpPrice) as [n|]; simpl.
  - destruct (gt0 n) eqn:Hn; simpl; [apply or0_gt0, Hn|].
    destruct (truthy (default "" (srpField mapping))); reflexivity.
  - destruct (truthy (default "" (srpField mapping))); reflexivity.
Qed.

(** X1: [resolveSrp] returns the first entry greater than 0 of the chain
    made of the manual SRP override as entered and, when an SRP field is
    configured, the normalized price of the primary cell and those of the
    fallback cells in declared order; 0 when there is none. *)
Theorem resolveSrp_priority_chain (mapping : ColumnMapping)
    (row : RawExtractionItem) (rowIndex : nat) :
  resolveSrp mapping row rowIndex
  = first_usable gt0 (Fin 0) (srp_chain mapping row rowIndex).
Proof. apply resolveSrp_first. Qed.

Lemma resolveCost_sign mapping row rowIndex :
  gt0 (resolveCost mapping row rowIndex) = true
  \/ resolveCost mapping row rowIndex = Fin 0.
Proof. rewrite resolveCost_chain. apply first_usable_cases. Qed.

Lemma resolveSrp_sign mapping row rowIndex :
  gt0 (resolveSrp mapping row rowIndex) = true
  \/ resolveSrp mapping row rowIndex = Fin 0.
Proof. rewrite resolveSrp_first. apply first_usable_cases. Qed.

(** X2: a resolved cost or SRP is never negative and never [NaN]: it is
    greater than 0, or it is 0 -- although [parsePrice] itself returns a
    negative numeric cell unchanged. *)
Theorem resolved_prices_never_negative (mapping : ColumnMapping)
    (row : RawExtractionItem) (rowIndex : nat) :
  (gt0 (resolveCost mapping row rowIndex) = true
   \/ resolveCost mapping row rowIndex = Fin 0)
  /\ (gt0 (resolveSrp mapping row rowIndex) = true
      \/ resolveSrp mapping row rowIndex = Fin 0).
Proof. split; [apply resolveCost_sign | apply resolveSrp_sign]. Qed.

(** *** [normalizeText] is idempotent *)

Lemma trimEnd_idem s : trimEnd (trimEnd s) = trimEnd s.
Proof.
  induction s as [|c s IH]; [reflexivity|].
  cbn [trimEnd]. destruct (is_space c && is_empty (trimEnd s)) eqn:H;
    [reflexivity|].
  cbn [trimEnd]. rewrite IH, H. reflexivity.
Qed.

Lemma trimStart_trimEnd s :
  trimStart (trimEnd (trimStart s)) = trimEnd (trimStart s).
Proof.
  induction s as [|c s IH]; [reflexivity|].
  cbn [trimStart]. destruct (is_space c) eqn:Hc; [exact IH|].
  cbn [trimEnd]. rewrite Hc. cbn [andb trimStart]. rewrite Hc. reflexivity.
Qed.

Lemma trim_idem s : trim (trim s) = trim s.
Proof. unfold trim. rewrite trimStart_trimEnd. apply trimEnd_idem. Qed.

Lemma normalizeText_text s :
  normalizeText (Some (VStr s))
  = if is_empty (trim s) then ""
    else if test_whole placeholders (trim s) then "" else trim s.
Proof. reflexivity. Qed.

Lemma normalizeText_idem (val : option value) :
  normalizeText (Some (VStr (normalizeText val))) = normalizeText val.
Proof.
  destruct val as [v|]; [|reflexivity].
  rewrite normalizeText_text. unfold normalizeText. cbv zeta.
  destruct (is_empty (trim (to_string v))) eqn:He; [reflexivity|].
  destruct (test_whole placeholders (trim (to_string v))) eqn:Hp; [reflexivity|].
  rewrite trim_idem, He, Hp. reflexivity.
Qed.

Lemma name_of_candidates_normal row cs :
  normalizeText (Some (VStr (name_of_candidates row cs)))
  = name_of_candidates row cs.
Proof.
  induction cs as [|key cs IH]; simpl; [reflexivity|].
  destruct (truthy (normalizeText (get row key))); [|exact IH].
  apply normalizeText_idem.
Qed.

(** X3: normalizing a normalized text changes nothing, and every resolved
    name is normalized: it has no blank at either end and is no placeholder
    token. *)
Theorem resolved_name_normalized (mapping : ColumnMapping)
    (row : RawExtractionItem) (rowIndex : nat) (val : option value) :
  normalizeText (Some (VStr (normalizeText val))) = normalizeText val
  /\ normalizeText (Some (VStr (resolveName mapping row rowIndex)))
     = resolveName mapping row rowIndex.
Proof.
  split; [apply normalizeText_idem|].
  unfold resolveName.
  destruct (truthy (normalizeText _)); [apply normalizeText_idem|].
  apply name_of_candidates_normal.
Qed.

End ResolverMore.

(** ** More on the Readiness Analyzer *)

Section AnalysisMore.
Import JS Types MappingModal Spec Examples ModalState Notions.
Local Open Scope list_scope.

Variable mapping : ColumnMapping.

(** The loop of [importAnalysis] in closed form: each entry is computed
    from its own row and index. *)
Lemma forEach_analyseRow_closed data : forall i ready0 unresolved0 rows0,
  forEach (analyseRow mapping) data i (ready0, unresolved0, rows0)
  = (ready0 + length (List.filter isResolved
                        (imap (fun j r => analysed mapping r (i + j)) data)),
     unresolved0 ++ List.map as_unresolved
                      (List.filter unready
                         (imap (fun j r => analysed mapping r (i + j)) data)),
     rows0 ++ imap (fun j r => analysed mapping r (i + j)) data).
Proof.
  induction data as [|r data IH]; intros i ready0 unresolved0 rows0.
  - simpl. rewrite !app_nil_r, Nat.add_0_r. reflexivity.
  - cbn [forEach]. rewrite analyseRow_step, imap_cons, Nat.add_0_r.
    rewrite (imap_ext _ (fun j r => analysed mapping r (S i + j)) data)
      by (intros j x _; simpl; f_equal; lia).
    destruct (isResolved (analysed mapping r i)) eqn:He; rewrite IH;
      generalize (imap (fun j r => analysed mapping r (S i + j)) data) as new;
      intros new; cbn [List.filter]; unfold unready; rewrite He;
      cbn [negb List.map length]; rewrite <- ?app_assoc.
    + f_equal. f_equal. lia.
    + reflexivity.
Qed.

Lemma importAnalysis_closed data :
  importAnalysis mapping data
  = {| total := length data;
       ready := length (List.filter isResolved
                          (imap (fun i r => analysed mapping r i) data));
       unresolved := List.map as_unresolved
                       (List.filter unready
                          (imap (fun i r => analysed mapping r i) data));
       rows := imap (fun i r => analysed mapping r i) data |}.
Proof.
  unfold importAnalysis. rewrite forEach_analyseRow_closed. reflexivity.
Qed.

Lemma le0_resolveCost row rowIndex :
  le0 (resolveCost mapping row rowIndex)
  = negb (gt0 (resolveCost mapping row rowIndex)).
Proof.
  destruct (resolveCost_sign mapping row rowIndex) as [H|H]; [|rewrite H; reflexivity].
  destruct (resolveCost mapping row rowIndex) as [| | |z];
    try discriminate; try reflexivity.
  simpl in *. destruct z; simpl in *; discriminate || reflexivity.
Qed.

Lemma reason_of_analysed row rowIndex :
  reason (analysed mapping row rowIndex)
  = reason_for (hasName (analysed mapping row rowIndex))
      (hasCost (analysed mapping row rowIndex)).
Proof.
  unfold analysed, reason_for, getUnresolvedReason. simpl.
  rewrite le0_resolveCost. reflexivity.
Qed.

(** X4: every entry of [rows] is computed from its own row and index alone
    (the row at position [i] of the data, its resolved name and cost, the
    two flags, the reason, the populated columns), and [unresolved] repeats,
    in order, the entries of [rows] that are not resolved. *)
Theorem importAnalysis_entries (data : list RawExtractionItem) :
  rows (importAnalysis mapping data)
  = imap (fun i r => analysed mapping r i) data
  /\ unresolved (importAnalysis mapping data)
     = List.map as_unresolved
         (List.filter unready (rows (importAnalysis mapping data))).
Proof. rewrite importAnalysis_closed. split; reflexivity. Qed.

(** X5: an unresolved entry lacks a name or a cost, and its reason names
    exactly what is missing: both, the name alone, or the cost alone (the
    test [cost <= 0] of the reason agrees with the flag [cost > 0] because a
    resolved cost is never [NaN]). *)
Theorem unresolved_reason_exact (data : list RawExtractionItem) :
  Forall (fun u =>
            u_hasName u = truthy (u_currentName u)
            /\ u_hasCost u = gt0 (u_currentCost u)
            /\ u_hasName u && u_hasCost u = false
            /\ u_reason u = reason_for (u_hasName u) (u_hasCost u)
            /\ data !! u_index u = Some (u_row u))
    (unresolved (importAnalysis mapping data)).
Proof.
  rewrite importAnalysis_closed. cbn [unresolved].
  apply Forall_forall. intros u Hu.
  apply list_elem_of_fmap in Hu as (e & -> & He).
  apply elem_of_filter in He as [He Hun].
  apply elem_of_lookup_imap in He as (i & r & -> & Hi).
  unfold unready in Hun. apply negb_true_iff in Hun.
  cbn [as_unresolved u_hasName u_hasCost u_currentName u_currentCost
       u_reason u_index u_row].
  rewrite reason_of_analysed.
  repeat split; try reflexivity; [exact Hun | exact Hi].
Qed.

End AnalysisMore.

(** ** The fallback check boxes *)

Section Toggles.
Import JS Types MappingModal Spec Examples ModalState Notions.
Local Open Scope list_scope.

Lemma uniq_NoDup_id (l : list string) : NoDup l -> uniq l = l.
Proof.
  intros H. unfold uniq. rewrite uniq_from_NoDup by exact H.
  apply filter_all. intros x _. apply bool_decide_eq_true_2, not_elem_of_empty.
Qed.

Lemma uniq_idem (l : list string) : uniq (uniq l) = uniq l.
Proof. apply uniq_NoDup_id, NoDup_uniq. Qed.

Lemma elem_of_toggled_on current field k :
  k ∈ toggled current field true <-> k ∈ default [] current \/ k = field.
Proof.
  unfold toggled. rewrite elem_of_uniq, elem_of_app, list_elem_of_singleton.
  reflexivity.
Qed.

Lemma elem_of_toggled_off current field k :
  k ∈ toggled current field false <-> k ∈ default [] current /\ k <> field.
Proof.
  unfold toggled. rewrite elem_of_uniq, elem_of_filter, negb_true_iff.
  rewrite String.eqb_neq. reflexivity.
Qed.

Lemma NoDup_toggled current field checked :
  NoDup (toggled current field checked).
Proof. apply NoDup_uniq. Qed.

Lemma fallbacks_toggle mapping type field checked :
  fallbacks type (toggleFallbackField mapping type field checked)
  = toggled (stored_fallbacks type mapping) field checked.
Proof. destruct type; reflexivity. Qed.

Lemma stored_fallbacks_toggle_other mapping type other field checked :
  other <> type ->
  stored_fallbacks other (toggleFallbackField mapping type field checked)
  = stored_fallbacks other mapping.
Proof. destruct type, other; intros H; try reflexivity; contradiction. Qed.

(** X6: checking a fallback box puts the field in the list of its target
    and keeps the fields that were there; unchecking it removes every
    occurrence of the field and keeps the other fields. Either way the list
    is left without duplicates and nothing else of the mapping is
    touched. *)
Theorem toggle_membership (mapping : ColumnMapping) (type : fallback_type)
    (field : string) (checked : bool) :
  let mapping' := toggleFallbackField mapping type field checked in
  (forall k, k ∈ fallbacks type mapping'
             <-> if checked then k ∈ fallbacks type mapping \/ k = field
                 else k ∈ fallbacks type mapping /\ k <> field)
  /\ NoDup (fallbacks type mapping')
  /\ (forall other, other <> type ->
        stored_fallbacks other mapping' = stored_fallbacks other mapping)
  /\ nameField mapping' = nameField mapping
  /\ costField mapping' = costField mapping
  /\ srpField mapping' = srpField mapping
  /\ brandName mapping' = brandName mapping
  /\ manualRetagByRow mapping' = manualRetagByRow mapping.
Proof.
  intros mapping'. subst mapping'. rewrite fallbacks_toggle.
  split.
  { intros k. destruct checked;
      [apply elem_of_toggled_on | apply elem_of_toggled_off]. }
  split; [apply NoDup_toggled|].
  split; [intros other; apply stored_fallbacks_toggle_other|].
  destruct type; repeat split.
Qed.

Lemma filter_neq_app_self (l : list string) field :
  List.filter (fun k => negb (String.eqb k field)) (l ++ [field])
  = List.filter (fun k => negb (String.eqb k field)) l.
Proof.
  rewrite List.filter_app. simpl. rewrite String.eqb_refl. simpl.
  apply app_nil_r.
Qed.

Lemma toggled_on_off current field :
  toggled (Some (toggled current field true)) field false
  = toggled current field false.
Proof.
  unfold toggled. cbv zeta. cbn [from_option id].
  rewrite filter_uniq, uniq_idem, filter_neq_app_self. reflexivity.
Qed.

Lemma toggled_off_off current field :
  toggled (Some (toggled current field false)) field false
  = toggled current field false.
Proof.
  unfold toggled. cbv zeta. cbn [from_option id].
  rewrite filter_uniq, uniq_idem, filter_filter_andb.
  f_equal. apply filter_ext. intros k. destruct (String.eqb k field); reflexivity.
Qed.

Lemma uniq_app_present (l : list string) field :
  field ∈ l -> uniq (l ++ [field]) = uniq l.
Proof.
  intros H. unfold uniq. rewrite uniq_from_app. simpl.
  rewrite decide_True; [apply app_nil_r|].
  rewrite elem_of_union, elem_of_list_to_set. left. exact H.
Qed.

Lemma uniq_app_absent (l : list string) field :
  field ∉ l -> uniq (l ++ [field]) = uniq l ++ [field].
Proof.
  intros H. unfold uniq. rewrite uniq_from_app. simpl.
  rewrite decide_False; [reflexivity|].
  rewrite elem_of_union, elem_of_list_to_set.
  intros [H'|H']; [exact (H H') | exact (not_elem_of_empty _ H')].
Qed.

Lemma toggled_on_on current field :
  toggled (Some (toggled current field true)) field true
  = toggled current field true.
Proof.
  unfold toggled. cbv zeta. cbn [from_option id].
  rewrite uniq_app_present; [apply uniq_idem|].
  rewrite elem_of_uniq, elem_of_app, list_elem_of_singleton. right. reflexivity.
Qed.

Lemma toggle_toggle mapping type field c1 c2 :
  toggleFallbackField (toggleFallbackField mapping type field c1) type field c2
  = match type with
    | for_name =>
        {| nameField := nameField mapping; costField := costField mapping;
           srpField := srpField mapping; brandName := brandName mapping;
           nameFallbackFields :=
             Some (toggled (Some (toggled (nameFallbackFields mapping) field c1))
                     field c2);
           costFallbackFields := costFallbackFields mapping;
           srpFallbackFields := srpFallbackFields mapping;
           manualRetagByRow := manualRetagByRow mapping |}
    | for_cost =>
        {| nameField := nameField mapping; costField := costField mapping;
           srpField := srpField mapping; brandName := brandName mapping;
           nameFallbackFields := nameFallbackFields mapping;
           costFallbackFields :=
             Some (toggled (Some (toggled (costFallbackFields mapping) field c1))
                     field c2);
           srpFallbackFields := srpFallbackFields mapping;
           manualRetagByRow := manualRetagByRow mapping |}
    | for_srp =>
        {| nameField := nameField mapping; costField := costField mapping;
           srpField := srpField mapping; brandName := brandName mapping;
           nameFallbackFields := nameFallbackFields mapping;
           costFallbackFields := costFallbackFields mapping;
           srpFallbackFields :=
             Some (toggled (Some (toggled (srpFallbackFields mapping) field c1))
                     field c2);
           manualRetagByRow := manualRetagByRow mapping |}
    end.
Proof. destruct type; reflexivity. Qed.

(** X7: the same toggle twice is the toggle once, and checking a box then
    unchecking it gives the mapping that unchecking alone gives. *)
Theorem toggle_twice (mapping : ColumnMapping) (type : fallback_type)
    (field : string) (checked : bool) :
  toggleFallbackField (toggleFallbackField mapping type field checked)
    type field checked
  = toggleFallbackField mapping type field checked
  /\ toggleFallbackField (toggleFallbackField mapping type field true)
       type field false
     = toggleFallbackField mapping type field false.
Proof.
  rewrite !toggle_toggle. split.
  - destruct checked, type; unfold toggleFallbackField;
      rewrite ?toggled_on_on, ?toggled_off_off; reflexivity.
  - destruct type; unfold toggleFallbackField;
      rewrite toggled_on_off; reflexivity.
Qed.

(** X8: on a list without duplicates (as every toggle leaves it), checking
    a field that is listed changes nothing, checking one that is not appends
    it at the end, and unchecking keeps the other fields in their order. *)
Theorem toggle_keeps_order (mapping : ColumnMapping) (type : fallback_type)
    (field : string) :
  NoDup (fallbacks type mapping) ->
  fallbacks type (toggleFallbackField mapping type field true)
  = (if bool_decide (field ∈ fallbacks type mapping)
     then fallbacks type mapping
     else fallbacks type mapping ++ [field])
  /\ fallbacks type (toggleFallbackField mapping type field false)
     = List.filter (fun k => negb (String.eqb k field))
         (fallbacks type mapping).
Proof.
  intros Hnd. rewrite !fallbacks_toggle. unfold toggled, fallbacks in *.
  split.
  - destruct (bool_decide_reflect (field ∈ default [] (stored_fallbacks type mapping)))
      as [H|H].
    + rewrite uniq_app_present by exact H. apply uniq_NoDup_id, Hnd.
    + rewrite uniq_app_absent by exact H. rewrite uniq_NoDup_id by exact Hnd.
      reflexivity.
  - rewrite <- filter_uniq, uniq_NoDup_id by exact Hnd. reflexivity.
Qed.

Lemma toggle_keeps_order_witness :
  NoDup (fallbacks for_name (fallback_mapping ∅))
  /\ (fallbacks for_name
        (toggleFallbackField (fallback_mapping ∅) for_name "Item" true)
      = (if bool_decide ("Item" ∈ fallbacks for_name (fallback_mapping ∅))
         then fallbacks for_name (fallback_mapping ∅)
         else fallbacks for_name (fallback_mapping ∅) ++ ["Item"])
      /\ fallbacks for_name
           (toggleFallbackField (fallback_mapping ∅) for_name "Item" false)
         = List.filter (fun k => negb (String.eqb k "Item"))
             (fallbacks for_name (fallback_mapping ∅))).
Proof.
  assert (Hnd : NoDup (fallbacks for_name (fallback_mapping ∅))).
  { apply NoDup_cons. split; [|apply NoDup_singleton].
    rewrite list_elem_of_singleton. discriminate. }
  exact (conj Hnd
           (toggle_keeps_order (fallback_mapping ∅) for_name "Item" Hnd)).
Defined.


End Toggles.

(** ** Adding a fallback field never undoes a resolution *)

Section AddFallback.
Import JS Types MappingModal Spec Examples ModalState Notions.
Local Open Scope list_scope.

Lemma first_usable_app {A} (usable : A -> bool) (dflt : A) (l1 l2 : list A) :
  first_usable usable dflt (l1 ++ l2)
  = first_usable usable (first_usable usable dflt l2) l1.
Proof.
  unfold first_usable. rewrite List.filter_app.
  destruct (List.filter usable l1); reflexivity.
Qed.

Lemma first_usable_default {A} (usable : A -> bool) (dflt other : A)
    (l : list A) :
  usable dflt = false ->
  first_usable usable other l
  = if usable (first_usable usable dflt l) then first_usable usable dflt l
    else other.
Proof.
  intros Hd. unfold first_usable.
  destruct (List.filter usable l) as [|x l'] eqn:Hl; simpl.
  - rewrite Hd. reflexivity.
  - assert (Hx : x ∈ List.filter usable l) by (rewrite Hl; left).
    apply elem_of_filter in Hx as [_ ->]. reflexivity.
Qed.

Lemma first_usable_uniq_from {A} (usable : A -> bool) (dflt : A)
    (g : string -> A) (l : list string) : forall seen : gset string,
  (forall k, k ∈ seen -> usable (g k) = false) ->
  first_usable usable dflt (List.map g (uniq_from seen l))
  = first_usable usable dflt (List.map g l).
Proof.
  unfold first_usable.
  induction l as [|x l IH]; intros seen Hseen; simpl; [reflexivity|].
  destruct (decide (x ∈ seen)) as [Hx|Hx].
  - rewrite (Hseen x Hx). apply IH, Hseen.
  - simpl. destruct (usable (g x)) eqn:Hu; [reflexivity|].
    apply IH. intros k Hk.
    apply elem_of_union in Hk as [Hk|Hk]; [|apply Hseen, Hk].
    apply elem_of_singleton in Hk. subst k. exact Hu.
Qed.

Lemma candidates_split primary fallbacks :
  candidates primary fallbacks
  = List.filter truthy [primary] ++ List.filter truthy (default [] fallbacks).
Proof. unfold candidates. simpl. destruct (truthy primary); reflexivity. Qed.

(** The candidates of a target after a field is checked: the cell of the
    new field is consulted last. *)
Lemma first_usable_added {A} (usable : A -> bool) (dflt : A)
    (g : string -> A) primary current field :
  first_usable usable dflt
    (List.map g (candidates primary (Some (toggled current field true))))
  = first_usable usable
      (first_usable usable dflt (List.map g (candidates field None)))
      (List.map g (candidates primary current)).
Proof.
  rewrite (candidates_split primary current), (candidates_split primary (Some _)).
  unfold toggled. cbv zeta. cbn [from_option id].
  rewrite filter_uniq, List.filter_app, !List.map_app, !first_usable_app.
  unfold uniq. rewrite first_usable_uniq_from
    by (intros k Hk; destruct (not_elem_of_empty _ Hk)).
  rewrite List.map_app, first_usable_app. reflexivity.
Qed.

Lemma name_of_candidates_added row primary current field :
  name_of_candidates row (candidates primary (Some (toggled current field true)))
  = if truthy (name_of_candidates row (candidates primary current))
    then name_of_candidates row (candidates primary current)
    else name_of_candidates row (candidates field None).
Proof.
  rewrite !name_of_candidates_first, first_usable_added.
  apply first_usable_default. reflexivity.
Qed.

Lemma price_of_candidates_added row primary current field :
  price_of_candidates row (candidates primary (Some (toggled current field true)))
  = if gt0 (price_of_candidates row (candidates primary current))
    then price_of_candidates row (candidates primary current)
    else price_of_candidates row (candidates field None).
Proof.
  rewrite !price_of_candidates_first, first_usable_added.
  apply first_usable_default. reflexivity.
Qed.

Lemma manualRetag_toggle mapping type field checked rowIndex :
  manualRetag (toggleFallbackField mapping type field checked) rowIndex
  = manualRetag mapping rowIndex.
Proof. destruct type; reflexivity. Qed.

Lemma resolveName_added mapping field row rowIndex :
  resolveName (toggleFallbackField mapping for_name field true) row rowIndex
  = if truthy (resolveName mapping row rowIndex)
    then resolveName mapping row rowIndex
    else name_of_candidates row (candidates field None).
Proof.
  unfold resolveName. rewrite manualRetag_toggle.
  cbn [toggleFallbackField nameField nameFallbackFields].
  destruct (truthy (normalizeText _)) eqn:Hm; [rewrite Hm; reflexivity|].
  rewrite name_of_candidates_added.
  destruct (truthy (name_of_candidates _ _)) eqn:Hn; rewrite ?Hn; reflexivity.
Qed.

Lemma resolveCost_added mapping field row rowIndex :
  resolveCost (toggleFallbackField mapping for_cost field true) row rowIndex
  = if gt0 (resolveCost mapping row rowIndex)
    then resolveCost mapping row rowIndex
    else price_of_candidates row (candidates field None).
Proof.
  unfold resolveCost. rewrite manualRetag_toggle.
  cbn [toggleFallbackField costField costFallbackFields].
  destruct (gt0 (or0 _)) eqn:Hm; [rewrite Hm; reflexivity|].
  rewrite price_of_candidates_added.
  destruct (gt0 (price_of_candidates _ _)) eqn:Hn; rewrite ?Hn; reflexivity.
Qed.

Lemma resolveSrp_added mapping field row rowIndex :
  resolveSrp (toggleFallbackField mapping for_srp field true) row rowIndex
  = if gt0 (resolveSrp mapping row rowIndex)
    then resolveSrp mapping row rowIndex
    else if truthy (default "" (srpField mapping))
         then price_of_candidates row (candidates field None)
         else Fin 0.
Proof.
  unfold resolveSrp. rewrite manualRetag_toggle.
  cbn [toggleFallbackField srpField srpFallbackFields].
  destruct (gt0 (or0 _)) eqn:Hm; [rewrite Hm; reflexivity|].
  destruct (truthy (default "" (srpField mapping))); simpl; [|reflexivity].
  rewrite price_of_candidates_added.
  destruct (gt0 (price_of_candidates _ _)) eqn:Hn; rewrite ?Hn; reflexivity.
Qed.

(** X9: checking a name fallback never changes a name that was resolved:
    the resolved name stays when it is not empty, and is otherwise what the
    new field alone gives; the resolved cost and SRP are unchanged. *)
Theorem add_name_fallback (mapping : ColumnMapping) (field : string)
    (row : RawExtractionItem) (rowIndex : nat) :
  let mapping' := toggleFallbackField mapping for_name field true in
  resolveName mapping' row rowIndex
  = (if truthy (resolveName mapping row rowIndex)
     then resolveName mapping row rowIndex
     else name_of_candidates row (candidates field None))
  /\ resolveCost mapping' row rowIndex = resolveCost mapping row rowIndex
  /\ resolveSrp mapping' row rowIndex = resolveSrp mapping row rowIndex.
Proof.
  intros mapping'. subst mapping'.
  split; [apply resolveName_added | split; reflexivity].
Qed.

(** X10: checking a cost fallback never changes a cost that was resolved
    (greater than 0); otherwise the cost is what the new field alone gives.
    The same holds for an SRP fallback, which counts only when an SRP field
    is configured. Neither changes the resolved name. *)
Theorem add_price_fallback (mapping : ColumnMapping) (field : string)
    (row : RawExtractionItem) (rowIndex : nat) :
  resolveCost (toggleFallbackField mapping for_cost field true) row rowIndex
  = (if gt0 (resolveCost mapping row rowIndex)
     then resolveCost mapping row rowIndex
     else price_of_candidates row (candidates field None))
  /\ resolveSrp (toggleFallbackField mapping for_srp field true) row rowIndex
     = (if gt0 (resolveSrp mapping row rowIndex)
        then resolveSrp mapping row rowIndex
        else if truthy (default "" (srpField mapping))
             then price_of_candidates row (candidates field None)
             else Fin 0)
  /\ resolveName (toggleFallbackField mapping for_cost field true) row rowIndex
     = resolveName mapping row rowIndex
  /\ resolveName (toggleFallbackField mapping for_srp field true) row rowIndex
     = resolveName mapping row rowIndex.
Proof.
  split; [apply resolveCost_added|].
  split; [apply resolveSrp_added|].
  split; reflexivity.
Qed.

Lemma analysed_added mapping type field row rowIndex :
  isResolved (analysed mapping row rowIndex) = true ->
  analysed (toggleFallbackField mapping type field true) row rowIndex
  = analysed mapping row rowIndex.
Proof.
  unfold analysed. cbn [isResolved]. intros H.
  apply andb_true_iff in H as [Hn Hc].
  assert (Hname : resolveName (toggleFallbackField mapping type field true)
                    row rowIndex = resolveName mapping row rowIndex).
  { destruct type; [|reflexivity|reflexivity].
    rewrite resolveName_added, Hn. reflexivity. }
  assert (Hcost : resolveCost (toggleFallbackField mapping type field true)
                    row rowIndex = resolveCost mapping row rowIndex).
  { destruct type; [reflexivity| |reflexivity].
    rewrite resolveCost_added, Hc. reflexivity. }
  rewrite Hname, Hcost. reflexivity.
Qed.

Lemma Forall2_imap_same {A B} (R : B -> B -> Prop) (f g : nat -> A -> B)
    (l : list A) :
  (forall i x, R (f i x) (g i x)) -> Forall2 R (imap f l) (imap g l).
Proof.
  revert f g. induction l as [|x l IH]; intros f g H; simpl; constructor.
  - apply H.
  - apply IH. intros i y. apply H.
Qed.

Lemma resolved_count_le (l l' : list AnalysisRow) :
  Forall2 (fun e e' => isResolved e = true -> e' = e) l l' ->
  length (List.filter isResolved l) <= length (List.filter isResolved l').
Proof.
  induction 1 as [|e e' l l' He _ IH]; simpl; [lia|].
  destruct (isResolved e) eqn:Hr.
  - rewrite (He eq_refl), Hr. simpl. lia.
  - destruct (isResolved e'); simpl; lia.
Qed.

Lemma rows_added mapping type field data :
  Forall2 (fun e e' => isResolved e = true -> e' = e)
    (imap (fun i r => analysed mapping r i) data)
    (imap (fun i r =>
             analysed (toggleFallbackField mapping type field true) r i) data).
Proof. apply Forall2_imap_same. intros i r. apply analysed_added. Qed.

Lemma ready_added mapping type field data :
  ready (importAnalysis mapping data)
  <= ready (importAnalysis (toggleFallbackField mapping type field true) data).
Proof.
  rewrite !importAnalysis_closed. cbn [ready].
  apply resolved_count_le, rows_added.
Qed.

(** X11: checking a fallback box, for any target, leaves every resolved
    entry of the analysis as it was, so the number of ready rows never
    decreases. *)
Theorem check_keeps_ready (mapping : ColumnMapping) (type : fallback_type)
    (field : string) (data : list RawExtractionItem) :
  let mapping' := toggleFallbackField mapping type field true in
  Forall2 (fun e e' => isResolved e = true -> e' = e)
    (rows (importAnalysis mapping data)) (rows (importAnalysis mapping' data))
  /\ ready (importAnalysis mapping data) <= ready (importAnalysis mapping' data).
Proof.
  intros mapping'. subst mapping'. split; [|apply ready_added].
  rewrite !importAnalysis_closed. cbn [rows]. apply rows_added.
Qed.

End AddFallback.

(** ** Manual retags *)

Section Retags.
Import JS Types MappingModal Spec Examples ModalState Notions.
Local Open Scope list_scope.

Lemma manualRetag_update_same mapping rowIndex partial :
  manualRetag (updateManualRetag mapping rowIndex partial) rowIndex
  = Some (merge (default no_retag (manualRetag mapping rowIndex)) partial).
Proof.
  unfold manualRetag, updateManualRetag. simpl.
  rewrite lookup_insert_eq. reflexivity.
Qed.

Lemma manualRetag_update_other mapping rowIndex partial j :
  j <> rowIndex ->
  manualRetag (updateManualRetag mapping rowIndex partial) j
  = manualRetag mapping j.
Proof.
  intros Hj. unfold manualRetag, updateManualRetag. simpl.
  rewrite lookup_insert_ne by congruence.
  destruct (manualRetagByRow mapping); [reflexivity | apply lookup_empty].
Qed.

Lemma resolve_update_other mapping rowIndex partial j row :
  j <> rowIndex ->
  resolveName (updateManualRetag mapping rowIndex partial) row j
  = resolveName mapping row j
  /\ resolveCost (updateManualRetag mapping rowIndex partial) row j
     = resolveCost mapping row j
  /\ resolveSrp (updateManualRetag mapping rowIndex partial) row j
     = resolveSrp mapping row j.
Proof.
  intros Hj. unfold resolveName, resolveCost, resolveSrp.
  rewrite (manualRetag_update_other mapping rowIndex partial j Hj).
  repeat split.
Qed.

Lemma default_no_retag_name mapping rowIndex :
  Types.name (default no_retag (manualRetag mapping rowIndex))
  = manualRetag mapping rowIndex ≫= Types.name.
Proof. destruct (manualRetag mapping rowIndex); reflexivity. Qed.

Lemma default_no_retag_cost mapping rowIndex :
  costPrice (default no_retag (manualRetag mapping rowIndex))
  = manualRetag mapping rowIndex ≫= costPrice.
Proof. destruct (manualRetag mapping rowIndex); reflexivity. Qed.

Lemma default_no_retag_srp mapping rowIndex :
  srpPrice (default no_retag (manualRetag mapping rowIndex))
  = manualRetag mapping rowIndex ≫= srpPrice.
Proof. destruct (manualRetag mapping rowIndex); reflexivity. Qed.

(** X12: after a manual name is entered for a row, the row's name is the
    normalized entry when that is not empty, and otherwise the name resolved
    from the row's cells (so clearing the entry, or entering a placeholder,
    gives the automatic name back); the row's cost and SRP, and every other
    row, resolve as before. *)
Theorem manual_name_override (mapping : ColumnMapping) (rowIndex : nat)
    (s : string) (row : RawExtractionItem) :
  let mapping' := updateManualRetag mapping rowIndex (set_name s) in
  resolveName mapping' row rowIndex
  = (if truthy (normalizeText (Some (VStr s)))
     then normalizeText (Some (VStr s))
     else automatic_name mapping row)
  /\ resolveCost mapping' row rowIndex = resolveCost mapping row rowIndex
  /\ resolveSrp mapping' row rowIndex = resolveSrp mapping row rowIndex
  /\ (forall j row', j <> rowIndex ->
        resolveName mapping' row' j = resolveName mapping row' j
        /\ resolveCost mapping' row' j = resolveCost mapping row' j
        /\ resolveSrp mapping' row' j = resolveSrp mapping row' j).
Proof.
  intros mapping'. subst mapping'.
  split; [|split; [|split]].
  - unfold resolveName. rewrite manualRetag_update_same. reflexivity.
  - unfold resolveCost. rewrite manualRetag_update_same. simpl.
    rewrite default_no_retag_cost. reflexivity.
  - unfold resolveSrp. rewrite manualRetag_update_same. simpl.
    rewrite default_no_retag_srp. reflexivity.
  - intros j row' Hj. apply resolve_update_other, Hj.
Qed.

(** X13: after a manual cost is entered for a row, the row's cost is the
    entry when it is greater than 0, and otherwise the cost resolved from
    the row's cells; likewise for a manual SRP. The row's other targets
    resolve as before. *)
Theorem manual_price_override (mapping : ColumnMapping) (rowIndex : nat)
    (n : number) (row : RawExtractionItem) :
  resolveCost (updateManualRetag mapping rowIndex (set_cost n)) row rowIndex
  = (if gt0 n then n else automatic_cost mapping row)
  /\ resolveName (updateManualRetag mapping rowIndex (set_cost n)) row rowIndex
     = resolveName mapping row rowIndex
  /\ resolveSrp (updateManualRetag mapping rowIndex (set_cost n)) row rowIndex
     = resolveSrp mapping row rowIndex
  /\ resolveSrp (updateManualRetag mapping rowIndex (set_srp n)) row rowIndex
     = (if gt0 n then n
        else if truthy (default "" (srpField mapping))
             then price_of_candidates row
                    (candidates (default "" (srpField mapping))
                       (srpFallbackFields mapping))
             else Fin 0)
  /\ resolveName (updateManualRetag mapping rowIndex (set_srp n)) row rowIndex
     = resolveName mapping row rowIndex
  /\ resolveCost (updateManualRetag mapping rowIndex (set_srp n)) row rowIndex
     = resolveCost mapping row rowIndex.
Proof.
  unfold resolveCost, resolveName, resolveSrp.
  rewrite !manualRetag_update_same. simpl.
  rewrite default_no_retag_name, default_no_retag_cost, default_no_retag_srp.
  rewrite !gt0_or0.
  repeat split;
    destruct (gt0 n) eqn:Hn; try reflexivity; try (apply or0_gt0, Hn);
    destruct (truthy (default "" (srpField mapping))); reflexivity.
Qed.

End Retags.

(** ** Submitting, the quick fallback and the first guess *)

Section Submit.
Import JS Types MappingModal Spec Examples ModalState Notions.
Local Open Scope list_scope.

(** X14: [handleSubmit] confirms the mapping exactly when the name field,
    the cost field and the trimmed brand name are not empty, and alerts
    otherwise; the mapping it confirms resolves every row as the modal's
    mapping does, and is staged by the import step in the same way. *)
Theorem handleSubmit_gate (mapping : ColumnMapping) :
  match handleSubmit mapping with
  | inr mapping' =>
      truthy (nameField mapping) = true
      /\ truthy (costField mapping) = true
      /\ truthy (trim (brandName mapping)) = true
      /\ (forall row rowIndex,
            resolveName mapping' row rowIndex = resolveName mapping row rowIndex
            /\ resolveCost mapping' row rowIndex
               = resolveCost mapping row rowIndex
            /\ resolveSrp mapping' row rowIndex
               = resolveSrp mapping row rowIndex)
      /\ (forall index item,
            App.stage mapping' index item = App.stage mapping index item)
  | inl _ =>
      truthy (nameField mapping) && truthy (costField mapping)
      && truthy (trim (brandName mapping)) = false
  end.
Proof.
  unfold handleSubmit.
  destruct (truthy (nameField mapping)) eqn:Hn; [|reflexivity].
  destruct (truthy (costField mapping)) eqn:Hc; [|reflexivity].
  destruct (truthy (trim (brandName mapping))) eqn:Hb; [|reflexivity].
  cbn [negb orb andb].
  split; [reflexivity|]. split; [reflexivity|]. split; [reflexivity|].
  split.
  - intros row rowIndex.
    unfold resolveName, resolveCost, resolveSrp, manualRetag, candidates.
    cbn [nameField costField srpField nameFallbackFields costFallbackFields
         srpFallbackFields manualRetagByRow].
    destruct (manualRetagByRow mapping) as [table|],
      (nameFallbackFields mapping), (costFallbackFields mapping);
      repeat split; reflexivity.
  - intros index item. unfold App.stage, manualRetag.
    cbn [nameField costField srpField nameFallbackFields costFallbackFields
         srpFallbackFields manualRetagByRow brandName].
    destruct (manualRetagByRow mapping) as [table|],
      (nameFallbackFields mapping), (costFallbackFields mapping);
      reflexivity.
Qed.

Lemma fold_count {A} (f : A -> bool) (l : list A) : forall count,
  fold_left (fun count x => count + (if f x then 1 else 0)) l count
  = count + length (List.filter f l).
Proof.
  induction l as [|x l IH]; intros count; simpl; [lia|].
  rewrite IH. destruct (f x); simpl; lia.
Qed.

Lemma quick_count_closed unresolved column target :
  getQuickFallbackEligibleCount unresolved column target
  = if truthy column then length (eligible unresolved column target) else 0.
Proof.
  unfold getQuickFallbackEligibleCount, eligible.
  destruct (truthy column); [|reflexivity]. cbn [negb].
  destruct target; cbn [usable_for].
  - exact (fold_count
             (fun u => truthy (normalizeText (get (u_row u) column)))
             unresolved 0).
  - exact (fold_count (fun u => gt0 (parsePrice (get (u_row u) column)))
             unresolved 0).
Qed.

(** X15: the quick fallback counts the unresolved rows whose cell in the
    selected column is usable for the target (a non-empty normalized text
    for a name, a normalized price greater than 0 for a cost); it counts
    nothing when no column is selected, and never more than the unresolved
    rows. *)
Theorem quick_fallback_count (unresolved : list UnresolvedRow)
    (column : string) (target : quick_target) :
  getQuickFallbackEligibleCount unresolved column target
  = (if truthy column then length (eligible unresolved column target) else 0)
  /\ getQuickFallbackEligibleCount unresolved column target
     <= length unresolved.
Proof.
  rewrite quick_count_closed. split; [reflexivity|].
  destruct (truthy column); [|lia].
  unfold eligible. apply List.filter_length_le.
Qed.

Lemma candidates_alone field :
  truthy field = true -> candidates field None = [field].
Proof. intros H. unfold candidates. simpl. rewrite H. reflexivity. Qed.

Lemma resolved_for_added mapping target column row rowIndex :
  truthy column = true ->
  usable_for target (get row column) = true ->
  resolved_for target
    (toggleFallbackField mapping (quick_type target) column true) row rowIndex
  = true.
Proof.
  intros Hcol Hcell. destruct target; cbn [resolved_for quick_type usable_for] in *.
  - rewrite resolveName_added.
    destruct (truthy (resolveName mapping row rowIndex)) eqn:Hold; [exact Hold|].
    rewrite candidates_alone by exact Hcol. simpl. rewrite Hcell. exact Hcell.
  - rewrite resolveCost_added.
    destruct (gt0 (resolveCost mapping row rowIndex)) eqn:Hold; [exact Hold|].
    rewrite candidates_alone by exact Hcol. simpl. rewrite Hcell. exact Hcell.
Qed.

(** X16: the quick fallback is applied exactly when a column is selected
    and some unresolved row has a usable cell in it; it then checks the
    column as a fallback of the target, after which every such row has the
    target resolved, and no row that was ready is lost. Otherwise it
    alerts and the mapping stays. *)
Theorem applyQuickFallback_effect (mapping : ColumnMapping)
    (data : list RawExtractionItem) (column : string)
    (target : quick_target) :
  match applyQuickFallback mapping data column target with
  | inr mapping' =>
      mapping' = toggleFallbackField mapping (quick_type target) column true
      /\ truthy column = true
      /\ eligible (unresolved (importAnalysis mapping data)) column target
         <> []
      /\ Forall (fun u =>
                   resolved_for target mapping' (u_row u) (u_index u) = true)
           (eligible (unresolved (importAnalysis mapping data)) column target)
      /\ ready (importAnalysis mapping data)
         <= ready (importAnalysis mapping' data)
  | inl _ =>
      truthy column = false
      \/ eligible (unresolved (importAnalysis mapping data)) column target
         = []
  end.
Proof.
  unfold applyQuickFallback. rewrite quick_count_closed.
  destruct (truthy column) eqn:Hcol; cbn [negb]; [|left; reflexivity].
  destruct (eligible _ column target) as [|u0 us] eqn:Hel; cbn [length Nat.eqb].
  - right. reflexivity.
  - assert (Hall : Forall (fun u =>
               resolved_for target
                 (toggleFallbackField mapping (quick_type target) column true)
                 (u_row u) (u_index u) = true) (u0 :: us)).
    { rewrite <- Hel. apply Forall_forall. intros u Hu.
      apply elem_of_filter in Hu as [_ Hu].
      apply resolved_for_added; assumption. }
    destruct target; cbn [quick_type] in *;
      (split; [reflexivity|]); (split; [reflexivity|]);
      (split; [discriminate|]); (split; [exact Hall | apply ready_added]).
Qed.

Lemma found_first (p : string -> bool) (l : list string) :
  p "" = false ->
  (found p l = None /\ Forall (fun k => p k = false) l)
  \/ (exists k before after,
        found p l = Some k /\ l = before ++ k :: after /\ p k = true
        /\ Forall (fun x => p x = false) before).
Proof.
  intros Hempty. unfold found. induction l as [|x l IH]; simpl.
  - left. split; [reflexivity | constructor].
  - destruct (p x) eqn:Hx.
    + right. exists x, [], l.
      assert (Ht : truthy x = true).
      { destruct x; [rewrite Hempty in Hx; discriminate | reflexivity]. }
      rewrite Ht. repeat split; [exact Hx | constructor].
    + destruct IH as [[Hf Hall]|(k & before & after & Hf & Hl & Hk & Hall)].
      * left. split; [exact Hf | constructor; assumption].
      * right. exists k, (x :: before), after.
        split; [exact Hf|]. split; [rewrite Hl; reflexivity|].
        split; [exact Hk | constructor; assumption].
Qed.

(** X17: the first guess sets the name field to the first header of the
    data, in first-seen order, that matches the name pattern, and keeps the
    field when no header matches; likewise for the cost field and the SRP
    field with their patterns. It never touches the brand, the fallback
    lists or the manual retags, and changes nothing when there is no
    data. *)
Theorem guessMapping_first_match (prev : ColumnMapping)
    (data : list RawExtractionItem) :
  let headers := uniq (List.concat (List.map keys data)) in
  let mapping := guessMapping prev data in
  ((nameField mapping = nameField prev
    /\ Forall (fun k => name_guess k = false) headers)
   \/ exists before after,
        headers = before ++ nameField mapping :: after
        /\ name_guess (nameField mapping) = true
        /\ Forall (fun k => name_guess k = false) before)
  /\ ((costField mapping = costField prev
       /\ Forall (fun k => cost_guess k = false) headers)
      \/ exists before after,
           headers = before ++ costField mapping :: after
           /\ cost_guess (costField mapping) = true
           /\ Forall (fun k => cost_guess k = false) before)
  /\ ((srpField mapping = srpField prev
       /\ Forall (fun k => srp_guess k = false) headers)
      \/ exists k before after,
           srpField mapping = Some k
           /\ headers = before ++ k :: after
           /\ srp_guess k = true
           /\ Forall (fun x => srp_guess x = false) before)
  /\ brandName mapping = brandName prev
  /\ nameFallbackFields mapping = nameFallbackFields prev
  /\ costFallbackFields mapping = costFallbackFields prev
  /\ srpFallbackFields mapping = srpFallbackFields prev
  /\ manualRetagByRow mapping = manualRetagByRow prev
  /\ guessMapping prev [] = prev.
Proof.
  intros headers mapping. subst mapping. destruct data as [|r data].
  - subst headers. simpl.
    repeat split; try (left; split; [reflexivity | constructor]).
  - unfold guessMapping. fold headers.
    cbn [nameField costField srpField brandName nameFallbackFields
         costFallbackFields srpFallbackFields manualRetagByRow].
    split; [|split; [|split; [|repeat split]]].
    + destruct (found_first name_guess headers eq_refl)
        as [[-> Hall]|(k & before & after & -> & Hl & Hk & Hall)].
      * left. split; [reflexivity | exact Hall].
      * right. exists before, after. repeat split; assumption.
    + destruct (found_first cost_guess headers eq_refl)
        as [[-> Hall]|(k & before & after & -> & Hl & Hk & Hall)].
      * left. split; [reflexivity | exact Hall].
      * right. exists before, after. repeat split; assumption.
    + destruct (found_first srp_guess headers eq_refl)
        as [[-> Hall]|(k & before & after & -> & Hl & Hk & Hall)].
      * left. split; [reflexivity | exact Hall].
      * right. exists k, before, after. repeat split; assumption.
Qed.

End Submit.

(** ** More on the Header Similarity Scorer *)

Section ScorerMore.
Import JS Types GeminiService Spec Examples.
Local Open Scope list_scope.

Lemma count_matches_le a b n : count_matches a b n <= n.
Proof.
  unfold count_matches. etransitivity; [apply List.filter_length_le|].
  rewrite length_seq. lia.
Qed.

Lemma filter_full {B} (f : B -> bool) (l : list B) :
  length (List.filter f l) = length l -> forall x, x ∈ l -> f x = true.
Proof.
  induction l as [|y l IH]; simpl; intros H x Hx; [inversion Hx|].
  destruct (f y) eqn:Hy; simpl in H.
  - apply elem_of_cons in Hx as [->|Hx]; [exact Hy|].
    apply IH; [lia | exact Hx].
  - pose proof (List.filter_length_le f l). lia.
Qed.

Lemma string_ext_upto (a : string) : forall b,
  String.length a = String.length b ->
  (forall i, i < String.length a -> String.get i a = String.get i b) ->
  a = b.
Proof.
  induction a as [|c a IH]; intros [|d b] Hlen Hget; simpl in Hlen;
    try discriminate; [reflexivity|].
  assert (Hc : Some c = Some d) by (apply (Hget 0); simpl; lia).
  injection Hc as ->. f_equal. apply IH; [lia|].
  intros i Hi. apply (Hget (S i)). simpl. lia.
Qed.

Lemma count_matches_full a b :
  count_matches a b (Nat.min (String.length a) (String.length b))
  = Nat.max (String.length a) (String.length b) ->
  a = b.
Proof.
  intros H.
  pose proof (count_matches_le a b
                (Nat.min (String.length a) (String.length b))) as Hle.
  assert (Hlen : String.length a = String.length b) by lia.
  apply string_ext_upto; [exact Hlen|]. intros i Hi.
  unfold count_matches in H.
  assert (Hfull : same_char a b i = true).
  { apply (filter_full (same_char a b)
             (seq 0 (Nat.min (String.length a) (String.length b)))).
    - rewrite length_seq. lia.
    - apply list_elem_of_In, in_seq. lia. }
  exact (bool_decide_eq_true_1 _ Hfull).
Qed.

Lemma pos_of_nat_Z (n : nat) : n <> 0 -> Z.pos (Pos.of_nat n) = Z.of_nat n.
Proof.
  intros Hn. rewrite <- positive_nat_Z, Nat2Pos.id by exact Hn. reflexivity.
Qed.

Lemma score_range a b :
  (0 <= similarityScore a b)%Q /\ (similarityScore a b <= 1)%Q.
Proof.
  unfold similarityScore.
  destruct (String.eqb _ _); [split; discriminate|].
  destruct (_ || _); [split; discriminate|].
  destruct (0 <? _)%nat; [split; discriminate|].
  set (m := count_matches _ _ _). set (M := Nat.max _ _).
  pose proof (count_matches_le (toLowerCase a) (toLowerCase b)
                (Nat.min (String.length (toLowerCase a))
                   (String.length (toLowerCase b)))) as Hle.
  fold m in Hle.
  unfold Qle. simpl. split; [lia|].
  destruct (Nat.eq_dec M 0) as [H0|H0].
  - rewrite H0. simpl. subst M. lia.
  - rewrite pos_of_nat_Z by exact H0. subst M. lia.
Qed.

Lemma score_one a b :
  (similarityScore a b == 1)%Q <-> toLowerCase a = toLowerCase b.
Proof.
  unfold similarityScore.
  destruct (String.eqb_spec (toLowerCase a) (toLowerCase b)) as [Heq|Hne];
    [split; [intros _; exact Heq | intros _; reflexivity]|].
  split; [|contradiction]. intros H. exfalso.
  destruct (_ || _); [discriminate H|].
  destruct (0 <? _)%nat; [discriminate H|].
  apply Hne, count_matches_full.
  unfold Qeq in H. simpl in H.
  destruct (Nat.eq_dec (Nat.max (String.length (toLowerCase a))
                          (String.length (toLowerCase b))) 0) as [H0|H0].
  - pose proof (count_matches_le (toLowerCase a) (toLowerCase b)
                  (Nat.min (String.length (toLowerCase a))
                     (String.length (toLowerCase b)))). lia.
  - rewrite pos_of_nat_Z in H by exact H0. lia.
Qed.

Lemma lower_char_idem c : lower_char (lower_char c) = lower_char c.
Proof. destruct c as [[] [] [] [] [] [] [] []]; reflexivity. Qed.

Lemma toLowerCase_idem s : toLowerCase (toLowerCase s) = toLowerCase s.
Proof.
  induction s as [|c s IH]; simpl; [reflexivity|].
  rewrite lower_char_idem, IH. reflexivity.
Qed.

(** The score reads its arguments through their lower-case forms only. *)
Lemma score_lower a a' b b' :
  toLowerCase a = toLowerCase a' -> toLowerCase b = toLowerCase b' ->
  similarityScore a b = similarityScore a' b'.
Proof.
  intros Ha Hb. unfold similarityScore, matched, test, test_any.
  rewrite Ha, Hb. reflexivity.
Qed.

(** X18: the score lies between 0 and 1; it is 1 exactly when the two
    headers are equal up to the case of their letters; and it does not see
    the case of the letters: it is the score of the lower-case forms of the
    two headers. *)
Theorem similarityScore_unit_interval (a b : string) :
  (0 <= similarityScore a b)%Q
  /\ (similarityScore a b <= 1)%Q
  /\ ((similarityScore a b == 1)%Q <-> toLowerCase a = toLowerCase b)
  /\ similarityScore a b = similarityScore (toLowerCase a) (toLowerCase b).
Proof.
  split; [apply score_range|]. split; [apply score_range|].
  split; [apply score_one|].
  apply score_lower; symmetry; apply toLowerCase_idem.
Qed.

Lemma similar_lower a b b' :
  toLowerCase b = toLowerCase b' -> similar a b = similar a b'.
Proof.
  intros Hb. unfold similar. rewrite (score_lower a a b b' eq_refl Hb).
  reflexivity.
Qed.

Lemma similar_same_lower a b :
  toLowerCase a = toLowerCase b -> similar a b = true.
Proof.
  intros H. unfold similar, similarityScore.
  rewrite H, String.eqb_refl. reflexivity.
Qed.

Lemma similar_no_anti_match a b :
  similar a b = true -> toLowerCase a <> toLowerCase b ->
  (test cost a && test srp b) || (test srp a && test cost b) = false.
Proof.
  unfold similar, similarityScore. intros Hsim Hne.
  destruct (String.eqb_spec (toLowerCase a) (toLowerCase b)) as [Heq|_];
    [contradiction|].
  destruct (_ || _); [discriminate Hsim | reflexivity].
Qed.

End ScorerMore.

(** ** The grouping is greedy *)

Section Greedy.
Import JS Types GeminiService Spec Examples GroupNotions.
Local Open Scope list_scope.

Lemma greedy_start : greedy [].
Proof.
  split.
  - intros c vs v H. inversion H.
  - intros i j c vs c' vs' v H. rewrite lookup_nil in H. discriminate.
Qed.

Lemma greedy_step all done key rest st :
  NoDup all ->
  all = done ++ key :: rest ->
  grouped all done st ->
  greedy (fst st) ->
  greedy (fst (open_group all st key)).
Proof.
  intros Hnd Hall [Hasg _ Hhead _ _ Hapart _ _ _ _] [Hsim Hearly].
  destruct st as [groups assigned]. simpl in *.
  assert (Hkey_all : key ∈ all).
  { rewrite Hall. apply elem_of_app. right. left. }
  unfold open_group.
  destruct (decide (key ∈ assigned)) as [Hin|Hout]; [split; assumption|].
  destruct (scan_spec key all [key] ({[key]} ∪ assigned))
    as (added & Heq & _ & Hadd & _).
  rewrite Heq.
  assert (Hnew : key ∉ keys groups).
  { intros Hk. apply list_elem_of_fmap in Hk as ([c vs] & -> & Hg). simpl in *.
    apply Hout, Hasg. eapply canonical_is_member; eassumption. }
  rewrite (map_set_new groups key _ Hnew). cbn [fst].
  assert (Hfresh : forall v, v ∈ [key] ++ added -> v ∈ all /\ v ∉ assigned).
  { intros v Hv. apply elem_of_cons in Hv as [->|Hv].
    - split; assumption.
    - destruct (Hadd v Hv) as (H1 & H2 & _). split; [exact H1|].
      intros Ha. apply H2, elem_of_union. right. exact Ha. }
  split.
  - intros c vs v Hg Hv. apply elem_of_app in Hg as [Hg|Hg];
      [exact (Hsim c vs v Hg Hv)|].
    apply list_elem_of_singleton in Hg. injection Hg as -> ->.
    apply elem_of_cons in Hv as [->|Hv].
    + left. reflexivity.
    + right. apply (Hadd v Hv).
  - intros i j c vs c' vs' v Hi Hj Hlt Hv.
    destruct (decide (j < length groups)) as [Hjl|Hjl].
    + rewrite lookup_app_l in Hi by lia. rewrite lookup_app_l in Hj by lia.
      exact (Hearly i j c vs c' vs' v Hi Hj Hlt Hv).
    + assert (Hjn : j = length groups).
      { apply lookup_lt_Some in Hj. rewrite length_app in Hj. simpl in Hj. lia. }
      subst j. rewrite lookup_app_l in Hi by lia.
      rewrite lookup_app_r, Nat.sub_diag in Hj by lia.
      injection Hj as <- <-.
      destruct (Hfresh v Hv) as [Hva Hvn].
      apply (Hapart c' vs' v); [|exact Hva | exact Hvn].
      eapply list_elem_of_lookup_2, Hi.
Qed.

Lemma greedy_fold all : forall rest done st,
  NoDup all ->
  all = done ++ rest ->
  grouped all done st ->
  greedy (fst st) ->
  greedy (fst (fold_left (open_group all) rest st)).
Proof.
  induction rest as [|key rest IH]; intros done st Hnd Hall Hst Hgr;
    [exact Hgr|].
  simpl. apply (IH (done ++ [key])); [exact Hnd | | |].
  - rewrite <- app_assoc. exact Hall.
  - eapply grouped_step; eassumption.
  - eapply greedy_step; eassumption.
Qed.

Lemma greedy_groups rows : greedy (groups_of rows).
Proof.
  unfold groups_of, buildGroups.
  apply (greedy_fold (allKeys rows) (allKeys rows) [] _ (NoDup_allKeys rows)
           eq_refl); [apply grouped_start | apply greedy_start].
Qed.

(** X19: the grouping is greedy and not transitive. Every member of a
    group is its canonical key or is similar to it; and a member of a group
    is not similar to the canonical key of any earlier group, so that a
    header joins the first canonical key, in first-seen order, that it is
    similar to. *)
Theorem groups_greedy (rows : list RawExtractionItem) :
  (forall c vs v,
     (c, vs) ∈ groups_of rows -> v ∈ vs -> c = v \/ similar c v = true)
  /\ (forall i j c vs c' vs' v,
        groups_of rows !! i = Some (c', vs') ->
        groups_of rows !! j = Some (c, vs) ->
        i < j -> v ∈ vs -> similar c' v = false).
Proof. exact (greedy_groups rows). Qed.

Lemma member_group rows k :
  k ∈ allKeys rows ->
  exists i c vs, groups_of rows !! i = Some (c, vs) /\ k ∈ vs.
Proof.
  intros Hk.
  destruct (grouped_allKeys rows) as [Hasg _ _ Hdone _ _ _ _ _ _].
  apply Hdone, Hasg in Hk. unfold members in Hk.
  apply list_elem_of_In, in_concat in Hk as (vs & Hvs & Hk).
  apply in_map_iff in Hvs as ([c vs'] & Heq & Hg). simpl in Heq. subst vs'.
  apply list_elem_of_In, list_elem_of_lookup_1 in Hg as [i Hi].
  exists i, c, vs. split; [exact Hi | apply list_elem_of_In, Hk].
Qed.

Lemma earlier_group_excludes rows i j c vs c' vs' a b :
  groups_of rows !! i = Some (c', vs') ->
  groups_of rows !! j = Some (c, vs) ->
  i < j -> a ∈ vs' -> b ∈ vs ->
  toLowerCase a = toLowerCase b -> False.
Proof.
  intros Hi Hj Hlt Ha Hb Hlow.
  destruct (greedy_groups rows) as [Hsim Hearly].
  pose proof (Hearly i j c vs c' vs' b Hi Hj Hlt Hb) as Hfalse.
  rewrite <- (similar_lower c' a b Hlow) in Hfalse.
  destruct (Hsim c' vs' a (list_elem_of_lookup_2 _ _ _ Hi) Ha) as [->|Htrue].
  - rewrite similar_same_lower in Hfalse by reflexivity. discriminate.
  - congruence.
Qed.

Lemma case_variants_together rows a b :
  a ∈ allKeys rows -> b ∈ allKeys rows ->
  toLowerCase a = toLowerCase b ->
  exists c vs, (c, vs) ∈ groups_of rows /\ a ∈ vs /\ b ∈ vs.
Proof.
  intros Ha Hb Hlow.
  destruct (member_group rows a Ha) as (i & ca & va & Hi & Hai).
  destruct (member_group rows b Hb) as (j & cb & vb & Hj & Hbj).
  destruct (Nat.lt_trichotomy i j) as [Hlt|[Heq|Hgt]].
  - destruct (earlier_group_excludes rows i j cb vb ca va a b
                Hi Hj Hlt Hai Hbj Hlow).
  - subst j. rewrite Hi in Hj. injection Hj as <- <-.
    exists ca, va. split; [eapply list_elem_of_lookup_2, Hi|]. split; assumption.
  - destruct (earlier_group_excludes rows j i ca va cb vb b a
                Hj Hi Hgt Hbj Hai (eq_sym Hlow)).
Qed.

(** X20: two headers of a batch that differ by the case of their letters
    only are put in the same group. *)
Theorem case_variants_grouped (rows : list RawExtractionItem) (a b : string) :
  a ∈ allKeys rows -> b ∈ allKeys rows ->
  toLowerCase a = toLowerCase b ->
  exists c vs, (c, vs) ∈ groups_of rows /\ a ∈ vs /\ b ∈ vs.
Proof. apply case_variants_together. Qed.

Example allKeys_case_batch :
  allKeys MoreExamples.case_batch = ["Price"; "PRICE"].
Proof. vm_compute. reflexivity. Qed.

Lemma case_variants_grouped_witness :
  "Price" ∈ allKeys MoreExamples.case_batch
  /\ "PRICE" ∈ allKeys MoreExamples.case_batch
  /\ toLowerCase "Price" = toLowerCase "PRICE"
  /\ exists c vs,
       (c, vs) ∈ groups_of MoreExamples.case_batch
       /\ "Price" ∈ vs /\ "PRICE" ∈ vs.
Proof.
  assert (Ha : "Price" ∈ allKeys MoreExamples.case_batch)
    by (rewrite allKeys_case_batch; left).
  assert (Hb : "PRICE" ∈ allKeys MoreExamples.case_batch)
    by (rewrite allKeys_case_batch; right; left).
  assert (Hlow : toLowerCase "Price" = toLowerCase "PRICE") by reflexivity.
  exact (conj Ha (conj Hb (conj Hlow
           (case_variants_grouped MoreExamples.case_batch "Price" "PRICE"
              Ha Hb Hlow)))).
Defined.


Lemma canonical_member_apart rows c vs v :
  (c, vs) ∈ groups_of rows -> v ∈ vs -> toLowerCase c <> toLowerCase v ->
  anti_match c v = false.
Proof.
  intros Hg Hv Hne.
  destruct (greedy_groups rows) as [Hsim _].
  destruct (Hsim c vs v Hg Hv) as [->|Htrue]; [contradiction|].
  apply similar_no_anti_match; assumption.
Qed.

(** X21: the anti-match rule keeps a cost header and an SRP header apart
    only when one of them is the canonical key: the canonical key of a
    group and a member that differs from it beyond case never are one a cost
    header and the other an SRP header. Two members can be: after a neutral
    header ([Price]) a cost header and an SRP header join its group, and
    the row that holds both keeps one of the two cells. *)
Theorem anti_match_guards_canonical_only :
  (forall rows c vs v,
     (c, vs) ∈ groups_of rows -> v ∈ vs ->
     toLowerCase c <> toLowerCase v -> anti_match c v = false)
  /\ groups_of neutral_first
     = [("Item", ["Item"]);
        ("Price", ["Price"; "Net Price"; "Retail Price"])]
  /\ anti_match "Net Price" "Retail Price" = true
  /\ harmonizeColumnNames neutral_first
     = [ [("Item", VStr "Nikon D850"); ("Price", VNum (Fin 24000000))];
         [("Item", VStr "Canon R5"); ("Price", VNum (Fin 35000000))] ].
Proof.
  split; [exact canonical_member_apart|].
  vm_compute. repeat split.
Qed.

End Greedy.

(** ** More on the Column Harmonizer *)

Section HarmonizerMore.
Import JS Types GeminiService Spec Examples GroupNotions.
Local Open Scope list_scope.

Lemma first_variant_source row vs v :
  first_variant row vs = Some v -> exists w, w ∈ vs /\ get row w = Some v.
Proof.
  induction vs as [|w vs IH]; simpl; [discriminate|].
  destruct (get row w) as [v'|] eqn:Hw.
  - intros [= ->]. exists w. split; [left | exact Hw].
  - intros H. destruct (IH H) as (w' & H1 & H2). exists w'.
    split; [right; exact H1 | exact H2].
Qed.

Lemma first_variant_owned row vs k :
  k ∈ vs -> k ∈ keys row -> exists v, first_variant row vs = Some v.
Proof.
  induction vs as [|w vs IH]; intros Hk Hrow; [inversion Hk|]. simpl.
  destruct (get row w) as [v|] eqn:Hw; [exists v; reflexivity|].
  apply elem_of_cons in Hk as [->|Hk]; [|apply IH; assumption].
  apply get_None_keys in Hw. contradiction.
Qed.

Lemma get_Some_key (o : RawExtractionItem) k v : get o k = Some v -> k ∈ keys o.
Proof.
  intros H. destruct (decide (k ∈ keys o)) as [Hk|Hk]; [exact Hk|].
  apply get_None_keys in Hk. congruence.
Qed.

Lemma NoDup_canonical rows : NoDup (canonical_keys (groups_of rows)).
Proof.
  destruct (grouped_allKeys rows) as [_ Hmem Hhead _ _ _ _ _ _ _].
  apply NoDup_canonical_keys; assumption.
Qed.

Lemma canonical_group rows c :
  c ∈ canonical_keys (groups_of rows) ->
  exists vs, (c, vs) ∈ groups_of rows.
Proof.
  intros Hc. apply list_elem_of_fmap in Hc as ([c' vs] & -> & Hg).
  exists vs. exact Hg.
Qed.

Lemma rewritten_normalizeRow rows r :
  r ∈ rows -> rewritten r (normalizeRow (groups_of rows) r).
Proof.
  intros Hr. destruct (greedy_groups rows) as [Hsim _]. split.
  - intros c v Hv.
    pose proof (get_Some_key _ _ _ Hv) as Hc.
    apply keys_normalizeRow, canonical_group in Hc as [vs Hg].
    rewrite (get_normalizeRow _ r c vs (NoDup_canonical rows) Hg) in Hv.
    apply first_variant_source in Hv as (w & Hw & Hget).
    exists w. split; [exact Hget | exact (Hsim c vs w Hg Hw)].
  - intros k Hk.
    assert (Hall : k ∈ allKeys rows)
      by (apply elem_of_allKeys; exists r; split; assumption).
    destruct (member_group rows k Hall) as (i & c & vs & Hi & Hkv).
    apply list_elem_of_lookup_2 in Hi.
    destruct (first_variant_owned r vs k Hkv Hk) as [v Hv].
    exists c. split; [|exact (Hsim c vs k Hi Hkv)].
    apply (get_Some_key _ c v).
    rewrite (get_normalizeRow _ r c vs (NoDup_canonical rows) Hi). exact Hv.
Qed.

(** X22: the Harmonizer invents no cell and drops no header without a
    stand-in. Row by row, every cell of the output is a cell of the input
    row, with the same value, under the output header itself or a header
    similar to it; and every header of the input row is the header of an
    output cell or is similar to one. *)
Theorem harmonize_rewrites (rows : list RawExtractionItem) :
  Forall2 rewritten rows (harmonizeColumnNames rows).
Proof.
  rewrite harmonize_map. apply Forall2_fmap_r, Forall_Forall2_diag.
  apply Forall_forall. intros r Hr. apply rewritten_normalizeRow, Hr.
Qed.

Lemma harmonized_header_iff rows k :
  k ∈ allKeys (harmonizeColumnNames rows)
  <-> k ∈ canonical_keys (groups_of rows).
Proof.
  split.
  - intros Hk. apply elem_of_allKeys in Hk as (out & Hout & Hk).
    exact (harmonize_keys rows out k Hout Hk).
  - intros Hc. destruct (canonical_group rows k Hc) as [vs Hg].
    destruct (grouped_allKeys rows) as [_ _ Hhead _ Hkeys _ _ _ _ _].
    destruct (Hhead k vs Hg) as [rest ->].
    assert (Hall : k ∈ allKeys rows).
    { apply Hkeys. eapply canonical_is_member; eassumption. }
    apply elem_of_allKeys in Hall as (r & Hr & Hk).
    destruct (first_variant_owned r (k :: rest) k) as [v Hv]; [left | exact Hk |].
    apply elem_of_allKeys. exists (normalizeRow (groups_of rows) r). split.
    + rewrite harmonize_map.
      apply list_elem_of_In, in_map, list_elem_of_In, Hr.
    + apply (get_Some_key _ k v).
      rewrite (get_normalizeRow _ r k (k :: rest) (NoDup_canonical rows) Hg).
      exact Hv.
Qed.

Lemma canonical_observed rows k :
  k ∈ canonical_keys (groups_of rows) -> k ∈ allKeys rows.
Proof.
  intros Hc. destruct (canonical_group rows k Hc) as [vs Hg].
  destruct (grouped_allKeys rows) as [_ _ Hhead _ Hkeys _ _ _ _ _].
  apply Hkeys. eapply canonical_is_member; eassumption.
Qed.

(** X23: the headers of the output are exactly the canonical keys of the
    batch: one header per group, each a header of the input, so the output
    never has more headers than the input. *)
Theorem harmonized_headers (rows : list RawExtractionItem) :
  (forall k, k ∈ allKeys (harmonizeColumnNames rows)
             <-> k ∈ canonical_keys (groups_of rows))
  /\ (forall k, k ∈ allKeys (harmonizeColumnNames rows) -> k ∈ allKeys rows)
  /\ length (allKeys (harmonizeColumnNames rows)) = length (groups_of rows)
  /\ length (allKeys (harmonizeColumnNames rows)) <= length (allKeys rows).
Proof.
  split; [apply harmonized_header_iff|].
  split; [intros k Hk; apply canonical_observed, harmonized_header_iff, Hk|].
  assert (Hperm : allKeys (harmonizeColumnNames rows)
                  ≡ₚ canonical_keys (groups_of rows)).
  { apply NoDup_Permutation;
      [apply NoDup_allKeys | apply NoDup_canonical
      | apply harmonized_header_iff]. }
  split.
  - rewrite Hperm. unfold canonical_keys. apply length_map.
  - rewrite Hperm. apply submseteq_length, NoDup_submseteq;
      [apply NoDup_canonical | apply canonical_observed].
Qed.

(** X24: no two distinct headers of the output are similar: the header
    naming of an output is canonical. *)
Theorem harmonized_headers_apart (rows : list RawExtractionItem)
    (a b : string) :
  a ∈ allKeys (harmonizeColumnNames rows) ->
  b ∈ allKeys (harmonizeColumnNames rows) ->
  a <> b ->
  similar a b = false.
Proof. apply harmonize_canonical_naming. Qed.

Example headers_mixed_batch :
  allKeys (harmonizeColumnNames mixed_batch)
  = ["Product Name"; "Cost Price"; "SRP Price"].
Proof. vm_compute. reflexivity. Qed.

Lemma harmonized_headers_apart_witness :
  "Cost Price" ∈ allKeys (harmonizeColumnNames mixed_batch)
  /\ "SRP Price" ∈ allKeys (harmonizeColumnNames mixed_batch)
  /\ "Cost Price" <> "SRP Price"
  /\ similar "Cost Price" "SRP Price" = false.
Proof.
  assert (Ha : "Cost Price" ∈ allKeys (harmonizeColumnNames mixed_batch))
    by (rewrite headers_mixed_batch; right; left).
  assert (Hb : "SRP Price" ∈ allKeys (harmonizeColumnNames mixed_batch))
    by (rewrite headers_mixed_batch; right; right; left).
  assert (Hne : "Cost Price" <> "SRP Price") by discriminate.
  exact (conj Ha (conj Hb (conj Hne
           (harmonized_headers_apart mixed_batch "Cost Price" "SRP Price"
              Ha Hb Hne)))).
Defined.


(** X25: on a batch in which no two distinct headers are similar, every
    header is a group of its own and the Harmonizer changes the content of
    no row: every row keeps its cells, header for header (the order of the
    keys of a row may change). *)
Theorem harmonize_canonical_batch (rows : list RawExtractionItem) :
  canonical_naming (allKeys rows) ->
  groups_of rows = List.map (fun k => (k, [k])) (allKeys rows)
  /\ List.map cells (harmonizeColumnNames rows) = List.map cells rows.
Proof.
  intros Hcan. split.
  - apply buildGroups_canonical; [apply NoDup_allKeys | exact Hcan].
  - apply same_cells_contents, harmonize_canonical_noop, Hcan.
Qed.

Example allKeys_batch : allKeys batch = ["Desc"; "Net"].
Proof. vm_compute. reflexivity. Qed.

Lemma canonical_naming_batch : canonical_naming (allKeys batch).
Proof.
  rewrite allKeys_batch. intros a b Ha Hb Hne.
  apply elem_of_cons in Ha as [->|Ha]; [|apply list_elem_of_singleton in Ha as ->];
    (apply elem_of_cons in Hb as [->|Hb];
       [|apply list_elem_of_singleton in Hb as ->]);
    try contradiction; vm_compute; reflexivity.
Qed.

Lemma harmonize_canonical_batch_witness :
  canonical_naming (allKeys batch)
  /\ groups_of batch = List.map (fun k => (k, [k])) (allKeys batch)
  /\ List.map cells (harmonizeColumnNames batch) = List.map cells batch.
Proof.
  exact (conj canonical_naming_batch
           (harmonize_canonical_batch batch canonical_naming_batch)).
Defined.

End HarmonizerMore.

(** ** The import step *)

Section ImportStep.
Import JS Types MappingModal Spec Examples ModalState Notions.
Local Open Scope list_scope.

Lemma first_fallback_first item fallbackKeys :
  App.first_fallback item fallbackKeys
  = head (List.filter truthy
            (List.map (fun key => normalizeText (get item key)) fallbackKeys)).
Proof.
  induction fallbackKeys as [|key rest IH]; simpl; [reflexivity|].
  change (App.normalizeText (get item key)) with (normalizeText (get item key)).
  destruct (truthy (normalizeText (get item key))); [reflexivity | exact IH].
Qed.

(** [getBestValue] takes the first usable cell of the preferred key and
    the fallback keys, and goes by the pattern when there is none. *)
Lemma getBestValue_first item preferredKey fallbackKeys fallbackPattern :
  App.getBestValue item preferredKey fallbackKeys fallbackPattern
  = first_usable truthy (App.by_pattern item fallbackPattern)
      (List.map (fun key => normalizeText (get item key))
         (preferredKey :: fallbackKeys)).
Proof.
  unfold App.getBestValue, first_usable. cbv zeta. simpl.
  change (App.normalizeText (get item preferredKey))
    with (normalizeText (get item preferredKey)).
  destruct (truthy (normalizeText (get item preferredKey))); [reflexivity|].
  rewrite first_fallback_first.
  destruct (head _); reflexivity.
Qed.

Lemma not_truthy s : truthy s = false -> s = "".
Proof. destruct s; [reflexivity | discriminate]. Qed.

(** Leaving out the empty keys does not change the first usable cell of a
    row that holds nothing usable under the empty key. *)
Lemma first_usable_named {A} (usable : A -> bool) (dflt : A)
    (g : string -> A) (l : list string) :
  usable (g "") = false ->
  first_usable usable dflt (List.map g (List.filter truthy l))
  = first_usable usable dflt (List.map g l).
Proof.
  intros Hempty. unfold first_usable.
  induction l as [|k l IH]; simpl; [reflexivity|].
  destruct (truthy k) eqn:Hk; simpl.
  - destruct (usable (g k)); [reflexivity | exact IH].
  - apply not_truthy in Hk. subst k. rewrite Hempty. exact IH.
Qed.

Lemma stage_name mapping index item :
  truthy (normalizeText (get item "")) = false ->
  App.name (App.stage mapping index item)
  = if truthy (resolveName mapping item index)
    then resolveName mapping item index
    else App.by_pattern item (Some App.name_pattern).
Proof.
  intros Hempty. unfold App.stage, resolveName. cbv zeta. cbn [App.name].
  change (App.normalizeText (VStr <$> manualRetag mapping index ≫= name))
    with (normalizeText (VStr <$> manualRetag mapping index ≫= name)).
  destruct (truthy (normalizeText (VStr <$> _))) eqn:Hm; [rewrite Hm; reflexivity|].
  rewrite getBestValue_first, name_of_candidates_first. unfold candidates.
  rewrite (first_usable_named truthy "" _ _ Hempty).
  apply first_usable_default. reflexivity.
Qed.

(** X26: when the row holds nothing usable under the empty header, the
    import step names the row as the modal resolves it, and, where the
    modal finds no name, takes the first header of the row that matches the
    name pattern and holds a usable text: such a row is imported although
    the modal lists it as unresolved for its name. *)
Theorem import_name (mapping : ColumnMapping) (index : nat)
    (item : RawExtractionItem) :
  truthy (normalizeText (get item "")) = false ->
  App.name (App.stage mapping index item)
  = if truthy (resolveName mapping item index)
    then resolveName mapping item index
    else App.by_pattern item (Some App.name_pattern).
Proof. apply stage_name. Qed.

Lemma import_name_witness :
  truthy (normalizeText (get MoreExamples.unnamed_row "")) = false
  /\ App.name (App.stage (primary_mapping None) 0 MoreExamples.unnamed_row)
     = (if truthy (resolveName (primary_mapping None)
                     MoreExamples.unnamed_row 0)
        then resolveName (primary_mapping None) MoreExamples.unnamed_row 0
        else App.by_pattern MoreExamples.unnamed_row (Some App.name_pattern))
  /\ isResolved (analysed (primary_mapping None) MoreExamples.unnamed_row 0)
     = false
  /\ List.map App.name
       (App.incomingItems (primary_mapping None) [MoreExamples.unnamed_row])
     = ["Canon R5"].
Proof.
  split; [reflexivity|].
  split; [exact (import_name (primary_mapping None) 0
                   MoreExamples.unnamed_row eq_refl)|].
  split; reflexivity.
Defined.


Lemma manual_price_gt0 price :
  gt0 (App.manual_price price) = gt0 (or0 (default NaN price)).
Proof. destruct price as [[| | |[]]|]; reflexivity. Qed.

Lemma manual_price_value price :
  gt0 (App.manual_price price) = true ->
  App.manual_price price = or0 (default NaN price).
Proof. destruct price as [[| | |[]]|]; simpl; (discriminate || reflexivity). Qed.

Lemma cleanPrice_text s :
  truthy (normalizeText (Some (VStr s))) = true ->
  App.cleanPrice (VStr (normalizeText (Some (VStr s))))
  = parsePrice (Some (VStr s)).
Proof.
  intros H. unfold App.cleanPrice, parsePrice. cbv zeta.
  unfold truthy in H. apply negb_true_iff in H. rewrite H. reflexivity.
Qed.

Lemma stage_cost_text mapping index item s :
  gt0 (App.manual_price (manual_cost mapping index)) = false ->
  get item (costField mapping) = Some (VStr s) ->
  truthy (normalizeText (Some (VStr s))) = true ->
  App.costPrice (App.stage mapping index item) = parsePrice (Some (VStr s)).
Proof.
  intros Hman Hcell Htext. unfold App.stage. cbv zeta. cbn [App.costPrice].
  unfold manual_cost in Hman. rewrite Hman.
  unfold App.getBestValue. cbv zeta.
  change (App.normalizeText (get item (costField mapping)))
    with (normalizeText (get item (costField mapping))).
  rewrite Hcell, Htext. apply cleanPrice_text, Htext.
Qed.

Lemma resolveCost_text mapping index item s :
  gt0 (App.manual_price (manual_cost mapping index)) = false ->
  get item (costField mapping) = Some (VStr s) ->
  resolveCost mapping item index
  = if truthy (costField mapping) && gt0 (parsePrice (Some (VStr s)))
    then parsePrice (Some (VStr s))
    else price_of_candidates item
           (List.filter truthy (default [] (costFallbackFields mapping))).
Proof.
  intros Hman Hcell. unfold resolveCost. cbv zeta.
  rewrite manual_price_gt0 in Hman. unfold manual_cost in Hman. rewrite Hman.
  unfold candidates. simpl.
  destruct (truthy (costField mapping)); simpl; [|reflexivity].
  rewrite Hcell. reflexivity.
Qed.

(** X27: when the primary cost cell of a row is a usable text and no
    manual cost applies, the import step takes the price of that cell,
    whatever it is, and never looks at the fallback fields; the modal takes
    it only when it is greater than 0 and goes on to the fallback fields
    otherwise. So a row whose primary cost cell is a text without a price
    is dropped by the import even where the modal shows it ready. *)
Theorem import_cost_primary_text (mapping : ColumnMapping) (index : nat)
    (item : RawExtractionItem) (s : string) :
  gt0 (App.manual_price (manual_cost mapping index)) = false ->
  get item (costField mapping) = Some (VStr s) ->
  truthy (normalizeText (Some (VStr s))) = true ->
  App.costPrice (App.stage mapping index item) = parsePrice (Some (VStr s))
  /\ resolveCost mapping item index
     = (if truthy (costField mapping) && gt0 (parsePrice (Some (VStr s)))
        then parsePrice (Some (VStr s))
        else price_of_candidates item
               (List.filter truthy (default [] (costFallbackFields mapping)))).
Proof.
  intros Hman Hcell Htext.
  split; [apply stage_cost_text | apply resolveCost_text]; assumption.
Qed.

Lemma import_cost_primary_text_witness :
  gt0 (App.manual_price (manual_cost (fallback_mapping ∅) 0)) = false
  /\ get MoreExamples.unpriced_row (costField (fallback_mapping ∅))
     = Some (VStr "TBA")
  /\ truthy (normalizeText (Some (VStr "TBA"))) = true
  /\ (App.costPrice (App.stage (fallback_mapping ∅) 0 MoreExamples.unpriced_row)
      = parsePrice (Some (VStr "TBA"))
      /\ resolveCost (fallback_mapping ∅) MoreExamples.unpriced_row 0
         = (if truthy (costField (fallback_mapping ∅))
               && gt0 (parsePrice (Some (VStr "TBA")))
            then parsePrice (Some (VStr "TBA"))
            else price_of_candidates MoreExamples.unpriced_row
                   (List.filter truthy
                      (default [] (costFallbackFields (fallback_mapping ∅))))))
  /\ isResolved (analysed (fallback_mapping ∅) MoreExamples.unpriced_row 0)
     = true
  /\ App.incomingItems (fallback_mapping ∅) [MoreExamples.unpriced_row] = [].
Proof.
  split; [reflexivity|]. split; [reflexivity|]. split; [reflexivity|].
  split; [exact (import_cost_primary_text (fallback_mapping ∅) 0
                   MoreExamples.unpriced_row "TBA" eq_refl eq_refl eq_refl)|].
  split; reflexivity.
Defined.


Lemma cleanPrice_text_sign t :
  gt0 (App.cleanPrice (VStr t)) = true \/ App.cleanPrice (VStr t) = Fin 0.
Proof.
  unfold App.cleanPrice. cbv zeta.
  rewrite parseInt_all_digits by apply all_digits_keep_digits.
  destruct (read_digits _ 0 false) as [n|] eqn:Hread; [|right; reflexivity].
  apply read_digits_nonneg in Hread; [|lia].
  pose proof (to_double_nonneg n Hread) as Hd.
  destruct (to_double n) as [| | |z]; try discriminate Hd.
  - left. reflexivity.
  - destruct z; simpl in *; try discriminate Hd;
      [right; reflexivity | left; reflexivity].
Qed.

Lemma by_pattern_normal item fallbackPattern :
  normalizeText (Some (VStr (App.by_pattern item fallbackPattern)))
  = App.by_pattern item fallbackPattern.
Proof.
  unfold App.by_pattern. destruct fallbackPattern as [alts|]; [|reflexivity].
  cbv zeta. destruct (List.find _ _) as [key|]; [|reflexivity].
  destruct (truthy key); [|reflexivity].
  apply normalizeText_idem.
Qed.

Lemma getBestValue_normal item preferredKey fallbackKeys fallbackPattern :
  normalizeText
    (Some (VStr (App.getBestValue item preferredKey fallbackKeys
                   fallbackPattern)))
  = App.getBestValue item preferredKey fallbackKeys fallbackPattern.
Proof.
  rewrite getBestValue_first. unfold first_usable.
  generalize (preferredKey :: fallbackKeys). intros l.
  induction l as [|k l IH]; simpl; [apply by_pattern_normal|].
  destruct (truthy (normalizeText (get item k))); [|exact IH].
  simpl. apply normalizeText_idem.
Qed.

Lemma toUpperCase_truthy s : truthy (App.toUpperCase s) = truthy s.
Proof. destruct s; reflexivity. Qed.

Lemma formatBrandName_truthy value :
  truthy (App.formatBrandName value) = true.
Proof.
  unfold App.formatBrandName. cbv zeta.
  destruct (truthy (App.compact false _)) eqn:H; [|reflexivity].
  rewrite toUpperCase_truthy. exact H.
Qed.

(** What holds of a staged item, whether it is kept or not. *)
Lemma stage_valid mapping index item :
  normalizeText (Some (VStr (App.name (App.stage mapping index item))))
  = App.name (App.stage mapping index item)
  /\ (gt0 (App.srpPrice (App.stage mapping index item)) = true
      \/ App.srpPrice (App.stage mapping index item) = Fin 0)
  /\ (gt0 (App.costPrice (App.stage mapping index item)) = true
      \/ App.costPrice (App.stage mapping index item) = Fin 0)
  /\ App.brand (App.stage mapping index item)
     = App.formatBrandName (Some (brandName mapping))
  /\ App.rawJson (App.stage mapping index item) = item.
Proof.
  unfold App.stage. cbv zeta.
  cbn [App.name App.srpPrice App.costPrice App.brand App.rawJson].
  split; [|split; [|split; [|split; reflexivity]]].
  - destruct (truthy (App.normalizeText _)) eqn:Hm.
    + apply normalizeText_idem.
    + apply getBestValue_normal.
  - destruct (gt0 (App.manual_price (manualRetag mapping index ≫= srpPrice)))
      eqn:Hm; [left; exact Hm|].
    destruct (truthy (default "" (srpField mapping)));
      apply cleanPrice_text_sign.
  - destruct (gt0 (App.manual_price (manualRetag mapping index ≫= costPrice)))
      eqn:Hm; [left; exact Hm|].
    apply cleanPrice_text_sign.
Qed.

Lemma kept_sublist {A B} (keep : B -> bool) (raw : B -> A)
    (l : list A) : forall f : nat -> A -> B,
  (forall i x, raw (f i x) = x) ->
  sublist (List.map raw (List.filter keep (imap f l))) l.
Proof.
  induction l as [|x l IH]; intros f Hraw; simpl; [constructor|].
  destruct (keep (f 0 x)); simpl.
  - rewrite Hraw. apply sublist_skip, IH. intros i y. apply Hraw.
  - apply sublist_cons, IH. intros i y. apply Hraw.
Qed.

(** X28: every item that the import step stages has a name, which is a
    normalized text, a cost greater than 0, an SRP that is greater than 0 or
    0, and the formatted brand of the mapping, which is never empty; the
    staged items stand for rows of the data in their order, at most one per
    row. *)
Theorem incomingItems_valid (mapping : ColumnMapping)
    (extractedData : list RawExtractionItem) :
  Forall (fun p =>
            truthy (App.name p) = true
            /\ normalizeText (Some (VStr (App.name p))) = App.name p
            /\ gt0 (App.costPrice p) = true
            /\ (gt0 (App.srpPrice p) = true \/ App.srpPrice p = Fin 0)
            /\ App.brand p = App.formatBrandName (Some (brandName mapping))
            /\ truthy (App.brand p) = true)
    (App.incomingItems mapping extractedData)
  /\ sublist (List.map App.rawJson (App.incomingItems mapping extractedData))
       extractedData
  /\ length (App.incomingItems mapping extractedData)
     <= length extractedData.
Proof.
  assert (Hsub : sublist
            (List.map App.rawJson (App.incomingItems mapping extractedData))
            extractedData).
  { apply kept_sublist. intros i x. reflexivity. }
  split; [|split; [exact Hsub|]].
  - apply Forall_forall. intros p Hp. unfold App.incomingItems in Hp.
    apply elem_of_filter in Hp as [Hp Hkeep].
    apply elem_of_lookup_imap in Hp as (i & item & -> & _).
    apply andb_true_iff in Hkeep as [Hname Hcost].
    destruct (stage_valid mapping i item) as (Hn & Hs & _ & Hb & _).
    repeat split; try assumption.
    rewrite Hb. apply formatBrandName_truthy.
  - apply sublist_length in Hsub. rewrite length_map in Hsub. exact Hsub.
Qed.

End ImportStep.

(** ** Numeric cells in the import step *)

Section NumericCells.
Import JS Types MappingModal Spec Examples ModalState Notions.
Local Open Scope list_scope.

Lemma read_digits_uint_acc (d : Decimal.uint) : forall acc : positive,
  read_digits (NilEmpty.string_of_uint d) (Z.pos acc) true
  = Some (Z.pos (Pos.of_uint_acc d acc)).
Proof.
  induction d as [|d IH|d IH|d IH|d IH|d IH|d IH|d IH|d IH|d IH|d IH];
    intros acc; [reflexivity|..];
    cbn [NilEmpty.string_of_uint read_digits Pos.of_uint_acc];
    change (is_digit _) with true; cbv iota; rewrite <- IH; f_equal;
    unfold digit_value; simpl; lia.
Qed.

Lemma read_digits_uint (d : Decimal.uint) : forall seen,
  d <> Decimal.Nil \/ seen = true ->
  read_digits (NilEmpty.string_of_uint d) 0 seen
  = Some (Z.of_N (Pos.of_uint d)).
Proof.
  induction d as [|d IH|d IH|d IH|d IH|d IH|d IH|d IH|d IH|d IH|d IH];
    intros seen Hseen;
    [destruct Hseen as [H| ->]; [contradiction | reflexivity]
    |exact (IH true (or_intror eq_refl))|..];
    cbn [NilEmpty.string_of_uint read_digits Pos.of_uint];
    change (is_digit _) with true; cbv iota;
    apply (read_digits_uint_acc d).
Qed.

Lemma all_digits_uint (d : Decimal.uint) :
  all_digits (NilEmpty.string_of_uint d) = true.
Proof. induction d; simpl; auto. Qed.

Lemma to_uint_not_Nil p : Pos.to_uint p <> Decimal.Nil.
Proof.
  intros H. pose proof (DecimalPos.Unsigned.of_to p) as Hp.
  rewrite H in Hp. discriminate Hp.
Qed.

Lemma read_digits_printed p :
  read_digits (NilEmpty.string_of_uint (Pos.to_uint p)) 0 false
  = Some (Z.pos p).
Proof.
  rewrite read_digits_uint by (left; apply to_uint_not_Nil).
  rewrite DecimalPos.Unsigned.of_to. reflexivity.
Qed.

Lemma keep_digits_all_digits s : all_digits s = true -> keep_digits s = s.
Proof.
  induction s as [|c s IH]; simpl; [reflexivity|]. intros H.
  apply andb_true_iff in H as [Hc Hs]. rewrite Hc, IH by exact Hs. reflexivity.
Qed.

Lemma digit_not_space c : is_digit c = true -> is_space c = false.
Proof.
  unfold is_digit, is_space. intros H.
  apply andb_true_iff in H as [H1 H2]. apply N.leb_le in H1, H2.
  apply orb_false_iff. split.
  - apply andb_false_iff. right. apply N.leb_gt. lia.
  - apply N.eqb_neq. lia.
Qed.

Lemma trimEnd_all_digits s : all_digits s = true -> trimEnd s = s.
Proof.
  induction s as [|c s IH]; simpl; [reflexivity|]. intros H.
  apply andb_true_iff in H as [Hc Hs].
  rewrite (digit_not_space c Hc), IH by exact Hs. reflexivity.
Qed.

Lemma trim_all_digits s : all_digits s = true -> trim s = s.
Proof.
  intros H. unfold trim. destruct s as [|c s]; [reflexivity|].
  pose proof H as H'. simpl in H'. apply andb_true_iff in H' as [Hc _].
  cbn [trimStart]. rewrite (digit_not_space c Hc).
  apply trimEnd_all_digits, H.
Qed.

Lemma trimEnd_cons c s :
  trimEnd (String c s)
  = if is_space c && is_empty (trimEnd s) then "" else String c (trimEnd s).
Proof. reflexivity. Qed.

Lemma trim_minus ds :
  all_digits ds = true -> trim (String "-" ds) = String "-" ds.
Proof.
  intros H. unfold trim.
  change (trimStart (String "-" ds)) with (String "-" ds).
  rewrite trimEnd_cons, (trimEnd_all_digits ds H). reflexivity.
Qed.

Lemma digit_not_placeholder c s :
  is_digit c = true -> test_whole placeholders (String c s) = false.
Proof.
  destruct c as [[] [] [] [] [] [] [] []]; intros H;
    try discriminate H; reflexivity.
Qed.

Lemma printed_head p :
  exists c s, NilEmpty.string_of_uint (Pos.to_uint p) = String c s
              /\ is_digit c = true.
Proof.
  pose proof (to_uint_not_Nil p) as Hn.
  pose proof (all_digits_uint (Pos.to_uint p)) as Hall.
  destruct (NilEmpty.string_of_uint (Pos.to_uint p)) as [|c s] eqn:Hs.
  - destruct (Pos.to_uint p); try discriminate Hs. contradiction.
  - exists c, s. split; [reflexivity|].
    simpl in Hall. apply andb_true_iff in Hall as [Hc _]. exact Hc.
Qed.

(** The text that the import step reads in a numeric cell. *)
Lemma normalizeText_number z :
  normalizeText (Some (VNum (Fin z))) = number_to_string (Fin z).
Proof.
  unfold normalizeText. cbv zeta.
  cbn [to_string number_to_string]. destruct z as [|p|p];
    cbn [Z.to_int NilEmpty.string_of_int]; [reflexivity| |].
  - rewrite trim_all_digits by apply all_digits_uint.
    destruct (printed_head p) as (c & s & -> & Hc).
    cbn [is_empty]. rewrite (digit_not_placeholder c s Hc). reflexivity.
  - destruct (printed_head p) as (c & s & Hs & Hc).
    pose proof (all_digits_uint (Pos.to_uint p)) as Hall.
    rewrite Hs in *.
    rewrite (trim_minus _ Hall). cbn [is_empty].
    destruct c as [[] [] [] [] [] [] [] []]; try discriminate Hc; reflexivity.
Qed.

Lemma cleanPrice_number z :
  (- 2 ^ 53 < z < 2 ^ 53)%Z ->
  App.cleanPrice (VStr (number_to_string (Fin z))) = Fin (Z.abs z).
Proof.
  intros Hz. unfold App.cleanPrice. cbv zeta.
  cbn [number_to_string]. destruct z as [|p|p];
    cbn [Z.to_int NilEmpty.string_of_int Z.abs]; [reflexivity| |].
  - rewrite keep_digits_all_digits by apply all_digits_uint.
    rewrite parseInt_all_digits by apply all_digits_uint.
    rewrite read_digits_printed. unfold to_double.
    destruct (Z.ltb_spec (Z.pos p) (2 ^ 53)) as [_|H]; [reflexivity | lia].
  - cbn [keep_digits]. change (is_digit "-") with false. cbv iota.
    rewrite keep_digits_all_digits by apply all_digits_uint.
    rewrite parseInt_all_digits by apply all_digits_uint.
    rewrite read_digits_printed. unfold to_double.
    destruct (Z.ltb_spec (Z.pos p) (2 ^ 53)) as [_|H]; [reflexivity | lia].
Qed.

Lemma number_to_string_truthy z : truthy (number_to_string (Fin z)) = true.
Proof.
  cbn [number_to_string]. destruct z as [|p|p];
    cbn [Z.to_int NilEmpty.string_of_int]; [reflexivity| |reflexivity].
  destruct (printed_head p) as (c & s & -> & _). reflexivity.
Qed.

Lemma stage_cost_number mapping index item z :
  gt0 (App.manual_price (manual_cost mapping index)) = false ->
  get item (costField mapping) = Some (VNum (Fin z)) ->
  (- 2 ^ 53 < z < 2 ^ 53)%Z ->
  App.costPrice (App.stage mapping index item) = Fin (Z.abs z).
Proof.
  intros Hman Hcell Hz. unfold App.stage. cbv zeta. cbn [App.costPrice].
  unfold manual_cost in Hman. rewrite Hman.
  unfold App.getBestValue. cbv zeta.
  change (App.normalizeText (get item (costField mapping)))
    with (normalizeText (get item (costField mapping))).
  rewrite Hcell, normalizeText_number, number_to_string_truthy.
  apply cleanPrice_number, Hz.
Qed.

Lemma resolveCost_number mapping index item z :
  gt0 (App.manual_price (manual_cost mapping index)) = false ->
  get item (costField mapping) = Some (VNum (Fin z)) ->
  resolveCost mapping item index
  = if truthy (costField mapping) && (0 <? z)%Z then Fin z
    else price_of_candidates item
           (List.filter truthy (default [] (costFallbackFields mapping))).
Proof.
  intros Hman Hcell. unfold resolveCost. cbv zeta.
  rewrite manual_price_gt0 in Hman. unfold manual_cost in Hman. rewrite Hman.
  unfold candidates. simpl.
  destruct (truthy (costField mapping)); simpl; [|reflexivity].
  rewrite Hcell. reflexivity.
Qed.

(** X29: when the primary cost cell of a row is a number (an integer of
    magnitude below 2^53) and no manual cost applies, the import step reads
    the digits of its decimal form and so takes its magnitude: a negative
    cell is imported as a positive cost. The modal takes the number itself
    when it is greater than 0 and goes on to the fallback fields
    otherwise. *)
Theorem import_cost_primary_number (mapping : ColumnMapping) (index : nat)
    (item : RawExtractionItem) (z : Z) :
  gt0 (App.manual_price (manual_cost mapping index)) = false ->
  get item (costField mapping) = Some (VNum (Fin z)) ->
  (- 2 ^ 53 < z < 2 ^ 53)%Z ->
  App.costPrice (App.stage mapping index item) = Fin (Z.abs z)
  /\ resolveCost mapping item index
     = (if truthy (costField mapping) && (0 <? z)%Z then Fin z
        else price_of_candidates item
               (List.filter truthy (default [] (costFallbackFields mapping)))).
Proof.
  intros Hman Hcell Hz.
  split; [apply stage_cost_number | apply resolveCost_number]; assumption.
Qed.

Lemma import_cost_primary_number_witness :
  gt0 (App.manual_price (manual_cost (fallback_mapping ∅) 0)) = false
  /\ get MoreExamples.negative_row (costField (fallback_mapping ∅))
     = Some (VNum (Fin (-5000)))
  /\ (- 2 ^ 53 < -5000 < 2 ^ 53)%Z
  /\ (App.costPrice (App.stage (fallback_mapping ∅) 0 MoreExamples.negative_row)
      = Fin (Z.abs (-5000))
      /\ resolveCost (fallback_mapping ∅) MoreExamples.negative_row 0
         = (if truthy (costField (fallback_mapping ∅)) && (0 <? -5000)%Z
            then Fin (-5000)
            else price_of_candidates MoreExamples.negative_row
                   (List.filter truthy
                      (default [] (costFallbackFields (fallback_mapping ∅))))))
  /\ isResolved (analysed (fallback_mapping ∅) MoreExamples.negative_row 0)
     = false
  /\ List.map App.costPrice
       (App.incomingItems (fallback_mapping ∅) [MoreExamples.negative_row])
     = [Fin 5000].
Proof.
  assert (Hz : (- 2 ^ 53 < -5000 < 2 ^ 53)%Z) by (split; reflexivity).
  split; [reflexivity|]. split; [reflexivity|]. split; [exact Hz|].
  split; [exact (import_cost_primary_number (fallback_mapping ∅) 0
                   MoreExamples.negative_row (-5000) eq_refl eq_refl Hz)|].
  split; reflexivity.
Defined.

End NumericCells.

(** ** The brand name *)

Section BrandName.
Import JS Types.
Import App.
Local Open Scope list_scope.

Lemma is_space_upper c : is_space (upper_char c) = is_space c.
Proof. destruct c as [[] [] [] [] [] [] [] []]; reflexivity. Qed.

Lemma upper_char_idem c : upper_char (upper_char c) = upper_char c.
Proof. destruct c as [[] [] [] [] [] [] [] []]; reflexivity. Qed.

Lemma toUpperCase_idem s : toUpperCase (toUpperCase s) = toUpperCase s.
Proof.
  induction s as [|c s IH]; simpl; [reflexivity|].
  rewrite upper_char_idem, IH. reflexivity.
Qed.

Lemma is_empty_upper s : is_empty (toUpperCase s) = is_empty s.
Proof. destruct s; reflexivity. Qed.

Lemma trimStart_upper s : trimStart (toUpperCase s) = toUpperCase (trimStart s).
Proof.
  induction s as [|c s IH]; simpl; [reflexivity|].
  rewrite is_space_upper. destruct (is_space c); [exact IH | reflexivity].
Qed.

Lemma trimEnd_upper s : trimEnd (toUpperCase s) = toUpperCase (trimEnd s).
Proof.
  induction s as [|c s IH]; simpl; [reflexivity|].
  rewrite IH, is_space_upper, is_empty_upper.
  destruct (is_space c && is_empty (trimEnd s)); reflexivity.
Qed.

Lemma trim_upper s : trim (toUpperCase s) = toUpperCase (trim s).
Proof. unfold trim. rewrite trimStart_upper. apply trimEnd_upper. Qed.

Lemma compact_upper s : forall in_run,
  compact in_run (toUpperCase s) = toUpperCase (compact in_run s).
Proof.
  induction s as [|c s IH]; intros in_run; simpl; [reflexivity|].
  rewrite is_space_upper. destruct (is_space c).
  - destruct in_run; simpl; rewrite IH; reflexivity.
  - simpl. rewrite IH. reflexivity.
Qed.

Lemma compact_idem s : forall in_run,
  compact in_run (compact in_run s) = compact in_run s.
Proof.
  induction s as [|c s IH]; intros in_run; simpl; [reflexivity|].
  destruct (is_space c) eqn:Hc.
  - destruct in_run; [apply IH|]. simpl. rewrite IH. reflexivity.
  - simpl. rewrite Hc, IH. reflexivity.
Qed.

Lemma trimStart_compact_trim s :
  trimStart (compact false (trim s)) = compact false (trim s).
Proof.
  unfold trim. induction s as [|c s IH]; simpl; [reflexivity|].
  destruct (is_space c) eqn:Hc; [exact IH|].
  simpl. rewrite Hc. simpl. rewrite Hc. simpl. rewrite Hc. reflexivity.
Qed.

Lemma trimEnd_fixed c s :
  trimEnd (String c s) = String c s ->
  trimEnd s = s /\ is_space c && is_empty s = false.
Proof.
  simpl. destruct (is_space c && is_empty (trimEnd s)) eqn:H; [discriminate|].
  intros [= Hs]. rewrite Hs in H. split; assumption.
Qed.

Lemma compact_not_empty s : forall in_run,
  trimEnd s = s -> is_empty s = false -> is_empty (compact in_run s) = false.
Proof.
  induction s as [|c s IH]; intros in_run Hfix Hne; [discriminate Hne|].
  apply trimEnd_fixed in Hfix as [Hs Hc]. simpl.
  destruct (is_space c); [|reflexivity]. simpl in Hc.
  destruct in_run; [|reflexivity]. apply IH; assumption.
Qed.

Lemma trimEnd_compact s : forall in_run,
  trimEnd s = s -> trimEnd (compact in_run s) = compact in_run s.
Proof.
  induction s as [|c s IH]; intros in_run Hfix; [reflexivity|].
  apply trimEnd_fixed in Hfix as [Hs Hc]. simpl.
  destruct (is_space c) eqn:Hsp.
  - simpl in Hc. destruct in_run; [apply IH, Hs|].
    simpl. rewrite (IH true Hs), (compact_not_empty s true Hs Hc).
    reflexivity.
  - simpl. rewrite Hsp, (IH false Hs). reflexivity.
Qed.

Lemma trim_compact_trim s : trim (compact false (trim s)) = compact false (trim s).
Proof.
  unfold trim at 1. rewrite trimStart_compact_trim.
  apply trimEnd_compact. unfold trim. apply trimEnd_idem.
Qed.

Lemma formatBrandName_cases value :
  formatBrandName value
  = if truthy (compact false (trim (default "" value)))
    then toUpperCase (compact false (trim (default "" value)))
    else "UNKNOWN".
Proof. reflexivity. Qed.

Lemma formatBrandName_again value :
  formatBrandName (Some (formatBrandName value)) = formatBrandName value.
Proof.
  rewrite !(formatBrandName_cases value).
  destruct (truthy (compact false (trim (default "" value)))) eqn:Ht;
    [|reflexivity].
  rewrite formatBrandName_cases. cbn [default from_option id].
  rewrite trim_upper, compact_upper, trim_compact_trim, compact_idem.
  rewrite toUpperCase_truthy, Ht. apply toUpperCase_idem.
Qed.

(** X30: a formatted brand name is never empty, and formatting it again
    changes nothing; a brand that is absent or blank is formatted as
    [UNKNOWN], and any other as its trimmed text in upper case with every
    run of white space turned into one space. *)
Theorem formatBrandName_stable (value : option string) :
  truthy (formatBrandName value) = true
  /\ formatBrandName (Some (formatBrandName value)) = formatBrandName value
  /\ formatBrandName value
     = (if truthy (trim (default "" value))
        then toUpperCase (compact false (trim (default "" value)))
        else "UNKNOWN").
Proof.
  split; [apply formatBrandName_truthy|].
  split; [apply formatBrandName_again|].
  unfold formatBrandName. cbv zeta.
  destruct (trim (default "" value)) as [|c t] eqn:Htrim; [reflexivity|].
  assert (Hne : is_empty (compact false (String c t)) = false).
  { apply compact_not_empty; [|reflexivity].
    rewrite <- Htrim. unfold trim. apply trimEnd_idem. }
  unfold truthy. rewrite Hne. reflexivity.
Qed.

End BrandName.
